(** * sphinxcontrib.autojsdoc: the doclet forest, the cross-reference
    resolver, the structure cache and the top-level selection

    A shallow embedding of [sphinxcontrib/autojsdoc/__init__.py] and the
    properties of its forest builder ([merge_doclets], [make_forest]), of
    [xref], of the module-level cache [loaded_structure_files], of the
    selection loop of [AutoDirective.run] and of the renderers
    [JSArgument.run] and [JSSee.run].

    Python objects are mutable and shared: the same doclet object is held by
    the list of merged doclets, by the two lookup dictionaries and by its
    parent's [children] list.  The embedding therefore keeps the doclets in
    a heap (a list indexed by object identity) and lets every container hold
    object identities.  Dictionaries are [gmap]s, sets are [gset]s,
    exceptions are the [Raise] outcome of a small result monad; a raised
    exception discards the state of the call that raised it.

    Strings are sequences of code points below 256; the character classes of
    Python ([str.isspace], the line boundaries of [str.splitlines]) are
    written out for that range.  Python's [re] and the [run] methods of the
    doclet classes other than [JSArgument] and [JSSee] are parameters of the
    selection loop: what is proved about the loop holds for every regular
    expression engine and every renderer. *)

From Stdlib Require Import ZArith Ascii String DecimalString.
From stdpp Require Import gmap strings list fin_maps sorting.

Local Open Scope string_scope.
Local Open Scope list_scope.
Local Open Scope stdpp_scope.

(** ** Python primitives *)

Module Py.

(** The exceptions that the modelled code can raise.  [Dangling] is not
    a Python exception: it is the outcome of following a heap position
    that holds no object, which no Python reference can do. *)
Inductive PyErr : Type :=
| AttributeError (attr : string)
| KeyError (key : string)
| FileNotFoundError (file : string)
| ReError (pattern : string)
| RecursionError
| AutoJSDocError (message : string)
| Dangling (position : nat).

Inductive Result (A : Type) : Type :=
| Ok (a : A)
| Raise (e : PyErr).
Arguments Ok {A} a.
Arguments Raise {A} e.

#[global] Instance result_ret : MRet Result := fun A a => Ok a.
#[global] Instance result_bind : MBind Result := fun A B f m =>
  match m with
  | Ok a => f a
  | Raise e => Raise e
  end.
#[global] Instance result_fmap : FMap Result := fun A B f m =>
  match m with
  | Ok a => Ok (f a)
  | Raise e => Raise e
  end.

(** Reading an attribute that an object may not carry. *)
Definition getattr {A : Type} (attr : string) (v : option A) : Result A :=
  match v with
  | Some a => Ok a
  | None => Raise (AttributeError attr)
  end.

(** [try: ... except AttributeError: handler] *)
Definition except_AttributeError {A : Type} (body : Result A) (handler : A) : Result A :=
  match body with
  | Raise (AttributeError _) => Ok handler
  | r => r
  end.

(** [sep.join (l)] *)
Fixpoint join (sep : string) (l : list string) : string :=
  match l with
  | [] => ""
  | [s] => s
  | s :: rest => s +:+ sep +:+ join sep rest
  end.

(** [needle in hay] on strings. *)
Fixpoint contains (needle hay : string) : bool :=
  String.prefix needle hay ||
  match hay with
  | EmptyString => false
  | String _ rest => contains needle rest
  end.

(** [' ' * n] *)
Fixpoint spaces (n : nat) : string :=
  match n with
  | O => ""
  | S n' => String " " (spaces n')
  end.

(** [str.isspace] on one character with code below 256. *)
Definition isspace (c : ascii) : bool :=
  let n := nat_of_ascii c in
  ((9 <=? n)%nat && (n <=? 13)%nat) || ((28 <=? n)%nat && (n <=? 32)%nat)
  || (n =? 133)%nat || (n =? 160)%nat.

Fixpoint lstrip (s : string) : string :=
  match s with
  | EmptyString => ""
  | String c rest => if isspace c then lstrip rest else s
  end.

Definition rstrip (s : string) : string :=
  String.rev (lstrip (String.rev s)).

(** [text.strip ()] *)
Definition strip (s : string) : string := rstrip (lstrip s).

(** [re.compile (r'(\s+)').sub (' ', s)]: every maximal run of whitespace
    becomes one space.  [in_run] tells that the previous character was
    whitespace. *)
Fixpoint sub_ws (in_run : bool) (s : string) : string :=
  match s with
  | EmptyString => ""
  | String c rest =>
      if isspace c
      then (if in_run then sub_ws true rest else String " " (sub_ws true rest))
      else String c (sub_ws false rest)
  end.

(** The line boundaries of [str.splitlines] with code below 256. *)
Definition is_linebreak (c : ascii) : bool :=
  let n := nat_of_ascii c in
  ((10 <=? n)%nat && (n <=? 13)%nat) || ((28 <=? n)%nat && (n <=? 30)%nat)
  || (n =? 133)%nat.

(** [text.splitlines ()].  [cur] is the line being read, reversed;
    [after_cr] tells that the previous character was a carriage return,
    so that a line feed now belongs to the same boundary. *)
Fixpoint splitlines_from (after_cr : bool) (cur : string) (s : string) : list string :=
  match s with
  | EmptyString =>
      match cur with
      | EmptyString => []
      | _ => [String.rev cur]
      end
  | String c rest =>
      if (nat_of_ascii c =? 10)%nat && after_cr then splitlines_from false cur rest
      else if is_linebreak c
           then String.rev cur :: splitlines_from (nat_of_ascii c =? 13)%nat "" rest
           else splitlines_from false (String c cur) rest
  end.

Definition splitlines (s : string) : list string := splitlines_from false "" s.

(** [os.path.join (a, b)] of [posixpath]. *)
Definition endswith_sep (s : string) : bool :=
  match String.rev s with
  | String "/" _ => true
  | _ => false
  end.

Definition os_path_join (a b : string) : string :=
  if String.prefix "/" b then b
  else if (String.eqb a "" || endswith_sep a) then a +:+ b
  else a +:+ "/" +:+ b.

(** ['%d' % n] *)
Definition fmt_d (n : Z) : string := NilZero.string_of_int (Z.to_int n).

(** ['%s' % v] where [v] may be [None]. *)
Definition fmt_s (v : option string) : string :=
  match v with
  | Some s => s
  | None => "None"
  end.

End Py.
Import Py.

(** ** Module-level functions *)

Definition NAME : string := "autojsdoc".

(** Replace all runs of whitespace with one space. *)
Definition normalize_space (text : string) : string := sub_ws false (strip text).

(** Strip directive name to obtain the obj type: [RE_AUTOSTRIP] is
    [^js:auto]. *)
Definition strip_directive (name : string) : string :=
  if String.prefix "js:auto" name
  then String.substring 7 (String.length name - 7) name
  else name.

(** [link.replace ('\\', '\\\\')]: every backslash is doubled. *)
Fixpoint bs (link : string) : string :=
  match link with
  | EmptyString => ""
  | String c rest =>
      if Ascii.eqb c "\" then String "\" (String "\" (bs rest))
      else String c (bs rest)
  end.

(** ** The record model *)

(** Object identities: positions in the heap. *)
Abbreviation oid := nat.

(** [meta.code]; [paramnames] and [value] are read by the functions
    modelled here. *)
Record Code := mkCode {
  paramnames : option (list string);
  value : option string
}.

(** The [meta] sub-record of a doclet. *)
Record Meta := mkMeta {
  path : string;
  filename : string;
  lineno : Z;
  code : option Code
}.

(** An entry of [params]: an [obj] without a kind.  [None] stands for an
    attribute that the record does not carry. *)
Record Param := mkParam {
  p_name : option string;
  p_type_names : option (list string);
  p_description : option string
}.

(** An entry of [returns]: an [obj] without a kind.  [r_type] is [None]
    for an entry without a [type], and [Some None] for one whose [type]
    has no [names]. *)
Record Ret := mkRet {
  r_description : option string;
  r_type : option (option (list string))
}.

(** A doclet after construction by [Obj.__init__] (or a subclass): the
    attributes with a default are always present, [comment], [meta],
    [params] and [returns] only when the record (or the class) provides
    them.  The structure file gives every doclet a [kind], a [longname]
    and a [name].  [type_names] is [self.type.names], [None] when there is
    no such attribute; [doclet_files] is the list [files] of a package,
    empty for every other doclet. *)
Record Doclet := mkDoclet {
  kind : string;
  longname : string;
  name : string;
  memberof : option string;
  description : string;
  undocumented : bool;
  ignore : bool;
  comment : option string;
  meta : option Meta;
  params : option (list Param);
  parent : option oid;
  children : list oid;
  type_names : option (list string);
  returns : option (list Ret);
  doclet_files : list string
}.

Definition set_parent (p : option oid) (d : Doclet) : Doclet :=
  mkDoclet (kind d) (longname d) (name d) (memberof d) (description d)
           (undocumented d) (ignore d) (comment d) (meta d) (params d)
           p (children d) (type_names d) (returns d) (doclet_files d).

Definition append_child (c : oid) (d : Doclet) : Doclet :=
  mkDoclet (kind d) (longname d) (name d) (memberof d) (description d)
           (undocumented d) (ignore d) (comment d) (meta d) (params d)
           (parent d) (children d ++ [c]) (type_names d) (returns d) (doclet_files d).

(** The four assignments of the folding branch of [merge_doclets]. *)
Definition set_folded (u : bool) (c : string) (desc : string) (m : Meta)
    (d : Doclet) : Doclet :=
  mkDoclet (kind d) (longname d) (name d) (memberof d) desc
           u (ignore d) (Some c) (Some m) (params d)
           (parent d) (children d) (type_names d) (returns d) (doclet_files d).

Abbreviation Heap := (list Doclet).

(** Following a reference. *)
Definition deref (h : Heap) (i : oid) : Result Doclet :=
  match h !! i with
  | Some d => Ok d
  | None => Raise (Dangling i)
  end.

(** [Obj.doc] *)
Definition doc (d : Doclet) : bool := negb (undocumented d).

(** ** The logger *)

Inductive Level := Error | Warning.

Record LogEntry := mkLog {
  level : Level;
  msg : string;
  location : string
}.

(** What the methods of the base class [Obj] read from [self]; every class
    of the record model provides it. *)
Class IsObj (A : Type) := {
  obj_meta : A → option Meta;
  obj_parent : A → option oid;
  obj_description : A → string
}.

#[global] Instance Doclet_IsObj : IsObj Doclet :=
  {| obj_meta := meta; obj_parent := parent; obj_description := description |}.

(** [Obj.get_source_line]: the object's own [meta], else that of its
    closest ancestor, else the unknown location.  [depth] bounds the
    recursion; Python raises [RecursionError] when its stack is used up. *)
Fixpoint source_line_from (depth : nat) (h : Heap) (m : option Meta) (p : option oid)
    : Result (string * Z) :=
  match m with
  | Some m => Ok (os_path_join (path m) (filename m), lineno m)
  | None =>
      match p with
      | Some p =>
          match depth with
          | O => Raise RecursionError
          | S depth' => d ← deref h p; source_line_from depth' h (meta d) (parent d)
          end
      | None => Ok ("<unknown>", 0%Z)
      end
  end.

(** The recursion depth granted to [get_source_line]: enough for every
    chain of parents without a cycle.  Python gives up earlier on a chain
    longer than its recursion limit; what is stated about chains of
    parents is stated on [source_line_from] for every depth. *)
Definition recursion_limit (h : Heap) : nat := length h.

Definition get_source_line `{IsObj A} (h : Heap) (self : A) : Result (string * Z) :=
  source_line_from (recursion_limit h) h (obj_meta self) (obj_parent self).

(** ['%s:%d' % self.get_source_line ()] *)
Definition fmt_location (sl : string * Z) : string :=
  fst sl +:+ ":" +:+ fmt_d (snd sl).

(** [Obj.error] and [Obj.warn] *)
Definition error `{IsObj A} (h : Heap) (self : A) (m : string) : Result LogEntry :=
  sl ← get_source_line h self;
  mret (mkLog Error m (fmt_location sl)).

Definition warn `{IsObj A} (h : Heap) (self : A) (m : string) : Result LogEntry :=
  sl ← get_source_line h self;
  mret (mkLog Warning m (fmt_location sl)).

(** [Obj.get_description] *)
Definition get_description `{IsObj A} (self : A) : string :=
  normalize_space (obj_description self).

(** ** The forest builder *)

(** The state the methods of [AutoDirective] act on: the heap of doclets,
    the instance attributes [self.doclets], [self.names] and
    [self.longnames], and what has been sent to the logger. *)
Record State := mkState {
  heap : Heap;
  doclets : list oid;
  names : gmap string oid;
  longnames : gmap string oid;
  logger : list LogEntry
}.

(** [for x in l: s = body (s, x)], stopping at the first exception. *)
Fixpoint for_each {S A : Type} (body : S → A → Result S) (s : S) (l : list A) : Result S :=
  match l with
  | [] => Ok s
  | x :: rest => s' ← body s x; for_each body s' rest
  end.

(** [AutoDirective.check_params]: the warnings about undocumented or
    incongruous params; the doclet itself is returned unchanged.  The two
    differences are Python sets; the order in which a set is iterated is not
    specified, the lists below enumerate them in order of first
    occurrence. *)
Definition check_params (h : Heap) (doclet : Doclet) : Result (list LogEntry) :=
  if undocumented doclet then Ok []
  else
    except_AttributeError
      (ps ← getattr "params" (params doclet);
       param_names ← remove_dups <$> mapM (λ p, getattr "name" (p_name p)) ps;
       m ← getattr "meta" (meta doclet);
       c ← getattr "code" (code m);
       meta_param_names ← remove_dups <$> getattr "paramnames" (paramnames c);
       w1 ← mapM (λ n, warn h doclet
                         ("Documented parameter " +:+ n +:+ " not found on signature"))
                 (list_difference param_names meta_param_names);
       w2 ← mapM (λ n, warn h doclet ("Undocumented parameter " +:+ n))
                 (list_difference meta_param_names param_names);
       mret (w1 ++ w2))
      [].

(** [d.setdefault (k, v)]: the value under [k], after storing [v] there if
    the key was absent. *)
Definition setdefault (d : gmap string oid) (k : string) (v : oid) : oid * gmap string oid :=
  match d !! k with
  | Some w => (w, d)
  | None => (v, <[k := v]> d)
  end.

(** One turn of the loop of [merge_doclets]; [merged] is the local list. *)
Definition merge_step (acc : State * list oid) (i : oid) : Result (State * list oid) :=
  let '(σ, merged) := acc in
  doclet ← deref (heap σ) i;
  let '(last, lns) := setdefault (longnames σ) (longname doclet) i in
  if Nat.eqb i last then
    (* first time seen *)
    ws ← check_params (heap σ) doclet;
    mret (mkState (heap σ) (doclets σ) (<[name doclet := i]> (names σ)) lns
                  (logger σ ++ ws),
          merged ++ [i])
  else
    last_doclet ← deref (heap σ) last;
    let u := undocumented last_doclet && undocumented doclet in
    c1 ← getattr "comment" (comment last_doclet);
    c2 ← getattr "comment" (comment doclet);
    let desc := description last_doclet +:+ description doclet in
    m ← getattr "meta" (meta doclet);  (* prefer compilers view *)
    mret (mkState (<[last := set_folded u (c1 +:+ c2) desc m last_doclet]> (heap σ))
                  (doclets σ) (names σ) lns (logger σ),
          merged).

Definition newline : string := String (ascii_of_nat 10) "".

(** The two error messages of [make_forest]. *)
Definition link_message (o : Doclet) (target : string) : string :=
  if String.eqb target "<anonymous>"
  then "Could not link up object " +:+ longname o +:+ " to " +:+ target +:+ "."
       +:+ newline +:+ spaces 29 +:+ "Try giving the anonymous object an @alias."
  else "Could not link up object " +:+ longname o +:+ " to " +:+ target.

(** One turn of the loop of [make_forest]. *)
Definition forest_step (σ : State) (i : oid) : Result State :=
  o ← deref (heap σ) i;
  match memberof o with
  | None => Ok σ
  | Some target =>
      match longnames σ !! target with
      | Some p =>
          let h1 := alter (set_parent (Some p)) i (heap σ) in
          let h2 := alter (append_child i) p h1 in
          Ok (mkState h2 (doclets σ) (names σ) (longnames σ) (logger σ))
      | None =>
          if doc o then
            e ← error (heap σ) o (link_message o target);
            mret (mkState (heap σ) (doclets σ) (names σ) (longnames σ) (logger σ ++ [e]))
          else Ok σ
      end
  end.

(** [AutoDirective.make_forest] *)
Definition make_forest (σ : State) (ds : list oid) : Result State :=
  for_each forest_step σ ds.

(** [AutoDirective.merge_doclets]: the returned dictionaries are the two
    locals [names] and [longnames], which the loop never writes. *)
Definition merge_doclets (σ : State) (ds : list oid)
    : Result (State * (list oid * gmap string oid * gmap string oid)) :=
  let names_local : gmap string oid := ∅ in
  let longnames_local : gmap string oid := ∅ in
  '(σ1, merged) ← for_each merge_step (σ, []) ds;
  σ2 ← make_forest σ1 merged;
  mret (σ2, (merged, names_local, longnames_local)).

(** ** The cross-reference resolver *)

(** Table JSDoc [@kind] => [js:ref] *)
Definition xref_table : gmap string string :=
  list_to_map [
    ("class", "js:class");
    ("constant", "js:data");
    ("function", "js:func");
    ("member", "js:attr");
    ("method", "js:meth");
    ("module", "js:mod")
  ].

(** [d[k]] on a dictionary with string keys. *)
Definition getitem {V : Type} (d : gmap string V) (k : string) : Result V :=
  match d !! k with
  | Some v => Ok v
  | None => Raise (KeyError k)
  end.

(** [AutoDirective.xref]; the local [kind] starts as [None]. *)
Definition xref (σ : State) (nm : string) : Result string :=
  knd ← match longnames σ !! nm with
        | Some i => d ← deref (heap σ) i; mret (Some (kind d))
        | None =>
            match names σ !! nm with
            | Some i => d ← deref (heap σ) i; mret (Some (kind d))
            | None => mret None
            end
        end;
  match knd with
  | Some k =>
      if String.eqb k "" then Ok nm
      else
        role ← getitem xref_table k;
        mret (":" +:+ role +:+ ":`" +:+ nm +:+ "`")
  | None => Ok nm
  end.

(** ** Rendering *)

(** A line of [directive.content] with its source tag. *)
Abbreviation Line := (string * string)%type.

(** [Obj.splitlines] *)
Definition Obj_splitlines (text : string) (indent : nat) : list string :=
  (λ s, spaces indent +:+ s) <$> splitlines text.

(** [Obj.nl] *)
Definition nl : list Line := [("", "")].

(** [Obj.append] for a [str] argument: the lines it appends to
    [directive.content]. *)
Definition append `{IsObj A} (h : Heap) (self : A) (text : string) (indent : nat)
    : Result (list Line) :=
  '(filename, sourceline) ← get_source_line h self;
  mret ((λ line, (line, filename +:+ ":" +:+ fmt_d sourceline +:+ ":<" +:+ NAME +:+ ">"))
          <$> Obj_splitlines text indent).

(** [JSSee]: an [Obj] with a [link]. *)
Record JSSee := mkJSSee {
  link : string;
  see_description : string;
  see_meta : option Meta;
  see_parent : option oid
}.

#[global] Instance JSSee_IsObj : IsObj JSSee :=
  {| obj_meta := see_meta; obj_parent := see_parent; obj_description := see_description |}.

(** [JSSee.run] *)
Definition JSSee_run (σ : State) (self : JSSee) (indent : nat) : Result (list Line) :=
  lnk ← (if negb (contains "://" (link self)) then xref σ (link self) else Ok (link self));
  ls ← append (heap σ) self ("See: " +:+ lnk +:+ " " +:+ get_description self) indent;
  mret (ls ++ nl).

(** [JSArgument (param)]: the entry of [params] wrapped as a [JSWithTypes];
    [name] defaults to [None], [description] to the empty string, the type
    names to the empty list; the wrapper has no [meta] and no parent. *)
Record JSArgument := mkJSArgument {
  arg_name : option string;
  arg_description : string;
  arg_type_names : list string
}.

#[global] Instance JSArgument_IsObj : IsObj JSArgument :=
  {| obj_meta := λ _, None; obj_parent := λ _, None; obj_description := arg_description |}.

Definition JSArgument_init (param : Param) : JSArgument :=
  mkJSArgument (p_name param)
               (default "" (p_description param))
               (default [] (p_type_names param)).

(** [JSWithTypes.get_types] *)
Definition get_types (self : JSArgument) : string :=
  bs (join "|" (arg_type_names self)).

(** [JSArgument.run]; ['name' in self] holds for every [Obj], whose
    constructor sets the attribute. *)
Definition JSArgument_run (h : Heap) (self : JSArgument) (indent : nat) : Result (list Line) :=
  let nm := arg_name self in
  append h self (":param " +:+ get_types self +:+ " " +:+ fmt_s nm +:+ ": "
                 +:+ get_description self) indent.

(** ** The structure cache *)

(** An entry of [loaded_structure_files]: the triple returned by
    [merge_doclets], with the doclet objects its list refers to. *)
Record Structure := mkStructure {
  s_heap : Heap;
  s_doclets : list oid;
  s_names : gmap string oid;
  s_longnames : gmap string oid
}.

(** The process: the structure files on disk (as [json.load] with
    [obj_factory] reads them), the module-level cache
    [loaded_structure_files] and the files read so far. *)
Record Process := mkProcess {
  files : gmap string (list Doclet);
  loaded_structure_files : gmap string Structure;
  opened : list string;
  process_log : list LogEntry
}.

(** The first three assignments of [run], with the objects that
    [jsonlib.load] constructs from the structure file as the heap. *)
Definition initial_state (ds : list Doclet) (log : list LogEntry) : State :=
  mkState ds [] ∅ ∅ log.

(** The assignment of the cached triple to the instance attributes. *)
Definition cached_state (s : Structure) (log : list LogEntry) : State :=
  mkState (s_heap s) (s_doclets s) (s_names s) (s_longnames s) log.

(** Lines 613-646 of [AutoDirective.run]: reset the instance attributes,
    load and cache the structure file, get the cached structure file.  The
    process is returned also when the request fails: a file that was read
    stays read.  What an aborted merge had sent to the logger is not
    kept. *)
Definition load_structure (w : Process) (structure_json : string) : Process * Result State :=
  match loaded_structure_files w !! structure_json with
  | Some s => (w, Ok (cached_state s (process_log w)))
  | None =>
      match files w !! structure_json with
      | None => (w, Raise (FileNotFoundError structure_json))
      | Some ds =>
          let reads := opened w ++ [structure_json] in
          let σ0 := initial_state ds (process_log w) in
          match merge_doclets σ0 (seq 0 (length ds)) with
          | Raise e =>
              (mkProcess (files w) (loaded_structure_files w) reads (process_log w),
               Raise e)
          | Ok (σ, (merged, ns, lns)) =>
              let s := mkStructure (heap σ) merged ns lns in
              (mkProcess (files w) (<[structure_json := s]> (loaded_structure_files w))
                         reads (logger σ),
               Ok (cached_state s (logger σ)))
          end
      end
  end.

(** ** Selection and ordering at the top level *)

(** [sorted (doclets, key = operator.attrgetter ('longname'))]: a stable
    sort on the longnames, compared as Python compares strings, code point
    by code point. *)
Fixpoint insert_by_longname (x : oid * Doclet) (l : list (oid * Doclet)) : list (oid * Doclet) :=
  match l with
  | [] => [x]
  | y :: rest =>
      if String.leb (longname (snd x)) (longname (snd y)) then x :: y :: rest
      else y :: insert_by_longname x rest
  end.

Fixpoint sorted_by_longname (l : list (oid * Doclet)) : list (oid * Doclet) :=
  match l with
  | [] => []
  | x :: rest => insert_by_longname x (sorted_by_longname rest)
  end.

(** What the loop over the arguments carries: the [visited] set, the
    doclets whose [run] has been called (in order), and
    [directive.content]. *)
Record Output := mkOutput {
  visited : gset string;
  rendered : list oid;
  content : list Line
}.

Section Selection.

(** Python's [re]: compiled patterns, [re.compile] (which rejects a
    malformed expression) and [Pattern.search]. *)
Context {Pattern : Type}.
Variable re_compile : string → option Pattern.
Variable re_search : Pattern → string → bool.

(** [d.run (directive, indent)], dispatched on the class of the doclet: the
    lines it appends to [directive.content].  It reads the doclets and the
    directive and changes neither. *)
Variable run_doclet : State → oid → nat → Result (list Line).

(** The generator expression of [run]: grep the list of doclets. *)
Fixpoint grep (h : Heap) (objtype : string) (rex : Pattern) (seen : gset string)
    (ds : list oid) : Result (list (oid * Doclet)) :=
  match ds with
  | [] => Ok []
  | i :: rest =>
      d ← deref h i;
      tl ← grep h objtype rex seen rest;
      if String.eqb (kind d) objtype
         && re_search rex (longname d)
         && bool_decide (longname d ∉ seen)
      then mret ((i, d) :: tl)
      else mret tl
  end.

(** The body of the inner loop. *)
Definition render_step (σ : State) (out : Output) (x : oid * Doclet) : Result Output :=
  let seen := visited out ∪ {[ longname (snd x) ]} in
  ls ← run_doclet σ (fst x) 0;
  mret (mkOutput seen (rendered out ++ [fst x]) (content out ++ ls)).

(** The body of the loop over [self.arguments]. *)
Definition run_argument (σ : State) (objtype : string) (out : Output) (argument : string)
    : Result Output :=
  rex ← match re_compile argument with
        | Some rex => Ok rex
        | None => Raise (ReError argument)
        end;
  matches ← grep (heap σ) objtype rex (visited out) (doclets σ);
  for_each (render_step σ) out (sorted_by_longname matches).

Definition run_arguments (σ : State) (objtype : string) (arguments : list string)
    : Result Output :=
  for_each (run_argument σ objtype) (mkOutput ∅ [] []) arguments.

(** [AutoDirective.run] up to the hand-over of [self.content] to the
    parser; [self_name] is the name of the directive, [structure_json]
    the value of the option of that name. *)
Definition run (w : Process) (self_name : string) (structure_json : string)
    (arguments : list string) : Process * Result (State * Output) :=
  let '(w1, cached) := load_structure w structure_json in
  (w1,
   σ ← cached;
   let objtype := strip_directive self_name in  (* 'js:automodule' => 'module' *)
   out ← run_arguments σ objtype arguments;
   mret (σ, out)).

End Selection.

(** * The renderers *)

(** ** Options of the directive *)

(** The values of the options of a directive and of the settings of
    [conf.py]. *)
Inductive PyVal :=
| VNone
| VBool (b : bool)
| VStr (s : string)
| VList (l : list string).


(** [s.split (sep)] for a separator of one character. *)
Fixpoint str_split (sep : ascii) (s : string) : list string :=
  match s with
  | EmptyString => [""]
  | String c rest =>
      if Ascii.eqb c sep then "" :: str_split sep rest
      else match str_split sep rest with
           | x :: xs => String c x :: xs
           | [] => [String c ""]
           end
  end.

(** [members_option]; a value without [split] raises. *)
Definition members_option (arg : PyVal) : Result PyVal :=
  match arg with
  | VNone => Ok (VBool true)
  | VBool true => Ok (VBool true)
  | VBool false => Ok (VBool false)
  | VStr s => Ok (VList (strip <$> str_split "," s))
  | VList _ => Raise (AttributeError "split")
  end.

(** [bool_option] *)
Definition bool_option (arg : PyVal) : PyVal := VBool true.



(** ** Methods of [Obj] *)






(** ** Types and return values *)


(** [JSReturns (ret)]: the entry of [returns] wrapped as a [JSWithTypes];
    [description] defaults to the empty string, [type] to one without
    names; the wrapper has no [meta] and no parent. *)
Record JSReturns := mkJSReturns {
  ret_description : string;
  ret_type_names : option (list string)
}.

#[global] Instance JSReturns_IsObj : IsObj JSReturns :=
  {| obj_meta := λ _, None; obj_parent := λ _, None; obj_description := ret_description |}.



(** ** Variables *)




(** ** Callables *)





(** ** Containers *)





(** ** Dispatch *)

(** The classes of the doclets. *)
Inductive Class :=
| CObj
| CJSClass
| CJSConstant
| CJSFile
| CJSFunction
| CJSAttribute
| CJSMethod
| CJSModule
| CJSPackage.




(** * Vocabulary of the statements *)

(** The position of the first record of [l] with longname [ln]. *)
Definition first_with (ln : string) (l : list Doclet) : option oid :=
  fst <$> list_find (λ d, longname d = ln) l.

(** The records of [l] with longname [ln]. *)
Definition sharing (ln : string) (l : list Doclet) : list Doclet :=
  filter (λ d, longname d = ln) l.

(** The objects that a list of references points to. *)
Definition doclets_at (h : Heap) (ids : list oid) : list Doclet :=
  omap (λ i, h !! i) ids.

(** What holds after the loop of [merge_doclets] has visited the first
    [k] of the objects [ds] constructed from the structure file. *)
Record merge_inv (ds : list Doclet) (k : nat) (σ : State) (merged : list oid) : Prop := {
  mi_heap_longnames : longname <$> heap σ = longname <$> ds;
  mi_index : ∀ ln, longnames σ !! ln = first_with ln (take k ds);
  mi_merged : ∀ i, i ∈ merged ↔ ∃ ln, longnames σ !! ln = Some i;
  mi_nodup : NoDup merged;
  mi_untouched : ∀ i, i ∉ merged → heap σ !! i = ds !! i;
  mi_folded : ∀ i d r, i ∈ merged → heap σ !! i = Some d → ds !! i = Some r →
    undocumented d = forallb undocumented (sharing (longname r) (take k ds))
    ∧ kind d = kind r ∧ name d = name r ∧ memberof d = memberof r
    ∧ parent d = parent r ∧ children d = children r
}.

(** A doclet without its links. *)
Definition strip_links (d : Doclet) : Doclet :=
  set_parent None
    (mkDoclet (kind d) (longname d) (name d) (memberof d) (description d)
              (undocumented d) (ignore d) (comment d) (meta d) (params d)
              (parent d) [] (type_names d) (returns d) (doclet_files d)).

(** The parent that the longname index [lns] gives to a doclet. *)
Definition resolve (lns : gmap string oid) (d : Doclet) : option oid :=
  memberof d ≫= λ target, lns !! target.

(** The location of a doclet that has no parent. *)
Definition own_location (d : Doclet) : string * Z :=
  match meta d with
  | Some m => (os_path_join (path m) (filename m), lineno m)
  | None => ("<unknown>", 0%Z)
  end.

(** What the link pass reports about one doclet: one error for a
    documented doclet whose [memberof] is not in the index, nothing
    otherwise. *)
Definition link_report (lns : gmap string oid) (d : Doclet) : list LogEntry :=
  match memberof d with
  | Some target =>
      match lns !! target with
      | Some _ => []
      | None =>
          if undocumented d then []
          else [mkLog Error (link_message d target) (fmt_location (own_location d))]
      end
  | None => []
  end.

(** What holds after the loop of [make_forest] has visited [pre], started
    in [σ0]. *)
Record forest_inv (σ0 : State) (pre : list oid) (σ : State) : Prop := {
  fi_names : names σ = names σ0;
  fi_longnames : longnames σ = longnames σ0;
  fi_doclets : doclets σ = doclets σ0;
  fi_records : strip_links <$> heap σ = strip_links <$> heap σ0;
  fi_parent : ∀ i d0 d, heap σ0 !! i = Some d0 → heap σ !! i = Some d →
    parent d = if decide (i ∈ pre)
               then from_option Some (parent d0) (resolve (longnames σ0) d0)
               else parent d0;
  fi_logger : (∀ i d0, i ∈ pre → heap σ0 !! i = Some d0 → parent d0 = None) →
    logger σ = logger σ0 ++ (doclets_at (heap σ0) pre ≫= link_report (longnames σ0))
}.

#[global] Instance Level_eq_dec : EqDecision Level.
Proof. solve_decision. Defined.

(** The errors among the entries of a log. *)
Definition errors (log : list LogEntry) : list LogEntry :=
  filter (λ e, level e = Error) log.

(** A record as JSDoc emits it for every symbol: with a [comment] (which
    may be empty) and a [meta]. *)
Definition complete (d : Doclet) : Prop :=
  is_Some (comment d) ∧ is_Some (meta d).

(** A doclet as [Obj.__init__] leaves it: no parent, no children. *)
Definition constructed (d : Doclet) : Prop :=
  parent d = None ∧ children d = [].

(** [later w w']: the process [w'] is [w] after any number of requests for
    structure files, successful or not, and of changes of the files on
    disk between requests. *)
Inductive later (w : Process) : Process → Prop :=
| later_now : later w w
| later_request w' structure_json :
    later w w' → later w (fst (load_structure w' structure_json))
| later_edit w' fs :
    later w w' →
    later w (mkProcess fs (loaded_structure_files w') (opened w') (process_log w')).

(** The processes that start with an empty cache. *)
Definition reachable (w : Process) : Prop :=
  ∃ fs log, later (mkProcess fs ∅ [] log) w.

(** Every triple in the cache has empty dictionaries. *)
Definition cache_indexes_empty (w : Process) : Prop :=
  ∀ structure_json s, loaded_structure_files w !! structure_json = Some s →
                      s_names s = ∅ ∧ s_longnames s = ∅.

(** How often a file has been read. *)
Definition reads_of (structure_json : string) (w : Process) : nat :=
  length (filter (λ f, f = structure_json) (opened w)).

(** ** Example data *)

Definition example_meta (line : Z) : Meta := mkMeta "/src" "widget.js" line None.

Definition example_doclet (k ln n : string) (mo : option string) (u : bool) (line : Z) : Doclet :=
  mkDoclet k ln n mo "" u false (Some "") (Some (example_meta line)) None None []
           (Some []) None [].

(** A class seen twice (docblock and code), a method of it, and two
    functions whose [memberof] is not a longname of the file. *)
Definition example_records : list Doclet := [
  example_doclet "class" "Widget" "Widget" None false 3;
  example_doclet "function" "Widget.draw" "draw" (Some "Widget") false 7;
  example_doclet "class" "Widget" "Widget" None true 4;
  example_doclet "function" "helper" "helper" (Some "<anonymous>") false 20;
  example_doclet "function" "hidden" "hidden" (Some "Gadget") true 30
].

(** The example file, freshly loaded and merged. *)
Definition example_merge
    : Result (State * (list oid * gmap string oid * gmap string oid)) :=
  merge_doclets (initial_state example_records []) (seq 0 (length example_records)).

(** A process that has not yet read its one structure file. *)
Definition example_process : Process :=
  mkProcess {[ "structure.json" := example_records ]} ∅ [] [].

(** The first request for the example file. *)
Definition example_request : Process * Result State :=
  load_structure example_process "structure.json".

(** The example process after its first request, after a change of the
    file on disk, and after a second request. *)
Definition example_cached : Process := fst example_request.

Definition example_edited : Process :=
  mkProcess {[ "structure.json" := [] ]} (loaded_structure_files example_cached)
            (opened example_cached) (process_log example_cached).

Definition example_again : Process :=
  fst (load_structure example_edited "structure.json").

(** ** Vocabulary of the resolver *)

(** The cross-reference token for a name in a category. *)
Definition xref_token (role nm : string) : string :=
  ":" +:+ role +:+ ":`" +:+ nm +:+ "`".

(** A file with a global function [draw] and a member of the same short
    name in a class. *)
Definition ambiguous_records : list Doclet := [
  example_doclet "function" "draw" "draw" None false 2;
  example_doclet "class" "Widget" "Widget" None false 5;
  example_doclet "member" "Widget.draw" "draw" (Some "Widget") false 8;
  example_doclet "file" "widget.js" "widget.js" None false 1
].

Definition ambiguous_merge
    : Result (State * (list oid * gmap string oid * gmap string oid)) :=
  merge_doclets (initial_state ambiguous_records []) (seq 0 (length ambiguous_records)).

(** ** Vocabulary of the rendering *)

(** The doclet that a name matches in the indexes, the longname index
    first. *)
Definition xref_match (σ : State) (nm : string) : option oid :=
  match longnames σ !! nm with
  | Some i => Some i
  | None => names σ !! nm
  end.

(** The text of the line that [JSSee.run] renders for a resolved link. *)
Definition see_text (self : JSSee) (resolved : string) : string :=
  "See: " +:+ resolved +:+ " " +:+ get_description self.

(** A parameter of type [Array] or [null]. *)
Definition example_param : Param :=
  mkParam (Some "values") (Some ["Array"; "null"]) (Some "  the values
     to draw ").

(** Two "see" references, to a URI and to the class of the example file. *)
Definition example_see_uri : JSSee :=
  mkJSSee "https://example.com/x" "the manual" (Some (example_meta 12)) None.

Definition example_see_class : JSSee :=
  mkJSSee "Widget" "the base class" (Some (example_meta 13)) None.

(** ** Vocabulary of the selection *)

(** The order of [sorted]: the longnames compared as strings. *)
Definition longname_le (x y : oid * Doclet) : Prop :=
  String.le (longname (snd x)) (longname (snd y)).

(** A list of references in which every reference points to an object and
    no two objects share a longname. *)
Definition distinct_longnames (h : Heap) (ids : list oid) : Prop :=
  length (doclets_at h ids) = length ids
  ∧ NoDup (longname <$> doclets_at h ids).

(** Every triple in the cache lists doclets with distinct longnames. *)
Definition cache_distinct (w : Process) : Prop :=
  ∀ structure_json s, loaded_structure_files w !! structure_json = Some s →
                      distinct_longnames (s_heap s) (s_doclets s).

Section SelectionVocabulary.

Context {Pattern : Type}.
Variable re_search : Pattern → string → bool.

(** The condition of the generator expression of [run]. *)
Definition selects (objtype : string) (rex : Pattern) (seen : gset string)
    (x : oid * Doclet) : bool :=
  String.eqb (kind (snd x)) objtype
  && re_search rex (longname (snd x))
  && bool_decide (longname (snd x) ∉ seen).

(** The doclets that a pattern selects, in the order of [self.doclets]. *)
Definition matching (h : Heap) (objtype : string) (rex : Pattern) (seen : gset string)
    (ds : list oid) : list (oid * Doclet) :=
  filter (λ x, selects objtype rex seen x = true)
         (omap (λ i, (λ d, (i, d)) <$> h !! i) ds).

End SelectionVocabulary.

(** A stand-in for [re] on the patterns of the examples: a literal, which
    [search] finds anywhere in the string, optionally followed by [.*],
    which matches the rest. *)
Fixpoint literal_of (argument : string) : string :=
  match argument with
  | EmptyString => ""
  | String c rest => if String.eqb argument ".*" then "" else String c (literal_of rest)
  end.

Definition literal_compile (argument : string) : option string :=
  Some (literal_of argument).

Definition literal_search (rex : string) (s : string) : bool :=
  contains rex s.

(** A renderer for the examples: one declaration line per doclet. *)
Definition declaration_line (σ : State) (i : oid) (indent : nat) : Result (list Line) :=
  d ← deref (heap σ) i;
  mret [(spaces indent +:+ ".. js:" +:+ kind d +:+ ":: " +:+ longname d, "")].

(** A file with two classes, [foo] and [foo.bar], and two functions, [b]
    and [a], in that order. *)
Definition selection_records : list Doclet := [
  example_doclet "function" "b" "b" None false 1;
  example_doclet "class" "foo.bar" "bar" (Some "foo") false 2;
  example_doclet "function" "a" "a" None false 3;
  example_doclet "class" "foo" "foo" None false 4
].

Definition selection_process : Process :=
  mkProcess {[ "structure.json" := selection_records ]} ∅ [] [].

(** The state of a directive that has read the cache entry of the file. *)
Definition selection_state : State :=
  match snd (load_structure selection_process "structure.json") with
  | Ok σ => σ
  | Raise _ => initial_state [] []
  end.

(** What the loop over the arguments starts with. *)
Definition nothing_rendered : Output := mkOutput ∅ [] [].

(** * Further vocabulary *)

(** ** The merge pass in detail *)

(** The concatenation of strings, without a separator. *)
Definition concat_strings (l : list string) : string :=
  foldr String.append "" l.

(** The comment of a doclet into which the records [l] have been folded,
    one after the other: the comment of a single record is kept as it is;
    with a second record every comment read has to be there. *)
Definition joined_comments (l : list Doclet) : option string :=
  match l with
  | [] => None
  | r :: rest =>
      foldl (λ acc x, c1 ← acc; c2 ← comment x; Some (c1 +:+ c2)) (comment r) rest
  end.

(** The record at position [i] has the short name [n]. *)
Definition has_name (ds : list Doclet) (n : string) (i : oid) : Prop :=
  name <$> ds !! i = Some n.

#[global] Instance has_name_dec ds n i : Decision (has_name ds n i).
Proof. unfold has_name. apply _. Defined.

(** The record at position [i] is the first of [ds] with its longname. *)
Definition is_first_seen (ds : list Doclet) (i : oid) : Prop :=
  ∃ r, ds !! i = Some r ∧ first_with (longname r) ds = Some i.

#[global] Instance is_first_seen_dec ds i : Decision (is_first_seen ds i).
Proof.
  unfold is_first_seen. destruct (ds !! i) as [r|].
  - destruct (decide (first_with (longname r) ds = Some i)) as [Hyes|Hno].
    + left. eauto.
    + right. intros (r' & [= <-] & ?). done.
  - right. intros (r' & [=] & _).
Defined.

(** What else holds after the loop of [merge_doclets] has visited the
    first [k] objects of [ds]. *)
Record merge_detail (ds : list Doclet) (k : nat) (σ : State) (merged : list oid) : Prop := {
  md_names : ∀ n, names σ !! n = last (filter (has_name ds n) merged);
  md_sorted : StronglySorted lt merged;
  md_folded : ∀ i d r, i ∈ merged → heap σ !! i = Some d → ds !! i = Some r →
    description d = concat_strings (description <$> sharing (longname r) (take k ds))
    ∧ meta d = last (sharing (longname r) (take k ds)) ≫= meta
    ∧ comment d = joined_comments (sharing (longname r) (take k ds))
    ∧ params d = params r ∧ ignore d = ignore r
}.

(** A function documented in a comment block and seen again in the code,
    and a constant of the same short name in another scope. *)
Definition described_doclet (k ln n desc cmt : string) (line : Z) : Doclet :=
  mkDoclet k ln n None desc false false (Some cmt) (Some (example_meta line)) None None []
           (Some []) None [].

Definition detail_records : list Doclet := [
  described_doclet "function" "draw" "draw" "Draws the widget." "/** Draws the widget. */" 3;
  described_doclet "constant" "Widget.draw" "draw" "A flag." "/** A flag. */" 9;
  described_doclet "function" "draw" "draw" "Again." "" 4
].

Definition detail_merge
    : Result (State * (list oid * gmap string oid * gmap string oid)) :=
  merge_doclets (initial_state detail_records []) (seq 0 (length detail_records)).

(** The example file with a second record for [helper] that has lost its
    comment. *)
Definition incomplete_records : list Doclet :=
  example_records ++ [
    mkDoclet "function" "helper" "helper" None "" false false None
             (Some (example_meta 21)) None None [] (Some []) None []
  ].

(** ** The forest *)

(** The doclet at position [i] of the heap is a member of the doclet at
    position [p], by the longname index [lns]. *)
Definition links_to (lns : gmap string oid) (h : Heap) (p i : oid) : Prop :=
  ∃ d, h !! i = Some d ∧ resolve lns d = Some p.

#[global] Instance links_to_dec lns h p i : Decision (links_to lns h p i).
Proof.
  unfold links_to. destruct (h !! i) as [d|].
  - destruct (decide (resolve lns d = Some p)) as [Hyes|Hno].
    + left. eauto.
    + right. intros (d' & [= <-] & ?). done.
  - right. intros (d' & [=] & _).
Defined.

(** A class with two members, listed before and after it, and a function
    outside of it. *)
Definition forest_records : list Doclet := [
  example_doclet "member" "Widget.size" "size" (Some "Widget") false 7;
  example_doclet "class" "Widget" "Widget" None false 3;
  example_doclet "function" "main" "main" None false 30;
  example_doclet "function" "Widget.draw" "draw" (Some "Widget") false 9
].

Definition forest_merge
    : Result (State * (list oid * gmap string oid * gmap string oid)) :=
  merge_doclets (initial_state forest_records []) (seq 0 (length forest_records)).

(** ** Source locations *)

(** [ancestors h p ps d]: following the parents from [p] through the heap
    passes the doclets at the positions [ps], none of which but the last,
    [d], is required to have a [meta]; those before the last have none. *)
Inductive ancestors (h : Heap) : option oid → list oid → Doclet → Prop :=
| ancestors_last p d :
    h !! p = Some d → ancestors h (Some p) [p] d
| ancestors_step p d ps dn :
    h !! p = Some d → meta d = None → ancestors h (parent d) ps dn →
    ancestors h (Some p) (p :: ps) dn.

(** The location that a [meta] gives. *)
Definition meta_location (m : Meta) : string * Z :=
  (os_path_join (path m) (filename m), lineno m).

(** A member of a class without [meta], in a class without [meta], in a
    module. *)
Definition nested_heap : Heap := [
  mkDoclet "module" "app" "app" None "" false false None
           (Some (mkMeta "/src" "app.js" 1%Z None)) None None [1] (Some []) None [];
  mkDoclet "class" "app.Widget" "Widget" (Some "app") "" false false None None None
           (Some 0) [2] (Some []) None [];
  mkDoclet "member" "app.Widget.size" "size" (Some "app.Widget") "" false false None None None
           (Some 1) [] (Some []) None []
].

(** A file whose only record names itself as the scope it is a member
    of. *)
Definition cyclic_records : list Doclet := [
  mkDoclet "namespace" "ns" "ns" (Some "ns") "" false false None None None None []
           (Some []) None []
].

(** ** What a directive asks for *)

Section RequestVocabulary.

Context {Pattern : Type}.
Variable re_compile : string → option Pattern.
Variable re_search : Pattern → string → bool.

(** A doclet of the given kind that some of the arguments finds. *)
Definition requested (σ : State) (objtype : string) (arguments : list string) (i : oid)
    : Prop :=
  ∃ d a rex, i ∈ doclets σ ∧ heap σ !! i = Some d ∧ kind d = objtype
             ∧ a ∈ arguments ∧ re_compile a = Some rex
             ∧ re_search rex (longname d) = true.

End RequestVocabulary.

(** ** Vocabulary of the parameter check *)

(** The names of the documented parameters of a doclet, if it has [params]
    and each of them has a name. *)
Definition documented_names (d : Doclet) : option (list string) :=
  ps ← params d; mapM p_name ps.

(** The names of the parameters on the signature, as the compiler saw
    them. *)
Definition signature_names (d : Doclet) : option (list string) :=
  m ← meta d; c ← code m; paramnames c.

(** The two messages of [check_params]. *)
Definition not_on_signature (n : string) : string :=
  "Documented parameter " +:+ n +:+ " not found on signature".

Definition not_documented (n : string) : string :=
  "Undocumented parameter " +:+ n.

(** ** Vocabulary of the text functions *)

(** A text that follows a character that is not whitespace: its only
    whitespace are single spaces, each followed by a character that is not
    whitespace. *)
Fixpoint tidy_tail (s : string) : bool :=
  match s with
  | EmptyString => true
  | String c r =>
      if isspace c
      then Ascii.eqb c " "
           && match r with
              | EmptyString => false
              | String c' r' => negb (isspace c') && tidy_tail r'
              end
      else tidy_tail r
  end.

(** A text without whitespace at either end and with single spaces as its
    only whitespace. *)
Definition tidy (s : string) : bool :=
  match s with
  | EmptyString => true
  | String c r => negb (isspace c) && tidy_tail r
  end.

(** A text that does not end in whitespace. *)
Fixpoint no_trailing_ws (s : string) : bool :=
  match s with
  | EmptyString => true
  | String c r =>
      match r with
      | EmptyString => negb (isspace c)
      | String _ _ => no_trailing_ws r
      end
  end.

(** A text without a line boundary. *)
Fixpoint one_line (s : string) : bool :=
  match s with
  | EmptyString => true
  | String c r => negb (is_linebreak c) && one_line r
  end.

(** A text without a backslash. *)
Fixpoint no_backslash (s : string) : bool :=
  match s with
  | EmptyString => true
  | String c r => negb (Ascii.eqb c "\") && no_backslash r
  end.

(** ** Example data of the renderers *)


(** * Properties *)

(** ** The result monad and the loops *)

Lemma bind_Ok {A B : Type} (m : Result A) (f : A → Result B) (b : B) :
  m ≫= f = Ok b ↔ ∃ a, m = Ok a ∧ f a = Ok b.
Proof.
  destruct m as [a|e]; simpl; split.
  - intros Hf. exists a. done.
  - intros (a' & [= <-] & Hf). done.
  - done.
  - intros (a' & [=] & _).
Qed.

Lemma deref_Ok (h : Heap) (i : oid) (d : Doclet) :
  deref h i = Ok d ↔ h !! i = Some d.
Proof.
  unfold deref. destruct (h !! i); split; congruence.
Qed.

Lemma getattr_Ok {A : Type} (attr : string) (v : option A) (a : A) :
  getattr attr v = Ok a ↔ v = Some a.
Proof.
  destruct v; simpl; split; congruence.
Qed.

(** Splits the hypotheses of the shape [m ≫= f = Ok b]. *)
Ltac inv_Ok :=
  repeat match goal with
  | H : _ ≫= _ = Ok _ |- _ =>
      let a := fresh "a" in
      let Ha := fresh "Ha" in
      apply bind_Ok in H as (a & Ha & H)
  | H : mret _ = Ok _ |- _ => injection H as H
  | H : Ok _ = Ok _ |- _ => injection H as H
  | H : deref _ _ = Ok _ |- _ => apply deref_Ok in H
  | H : getattr _ _ = Ok _ |- _ => apply getattr_Ok in H
  | H : Raise _ = Ok _ |- _ => discriminate H
  end.

Lemma for_each_snoc {S A : Type} (body : S → A → Result S) (s : S) (l : list A) (x : A) :
  for_each body s (l ++ [x]) = (s' ← for_each body s l; body s' x).
Proof.
  revert s. induction l as [|y l IH]; intros s; simpl.
  - destruct (body s x); done.
  - destruct (body s y) as [s1|e]; simpl; [apply IH | done].
Qed.

(** The loop rule: an invariant indexed by the elements already visited. *)
Lemma for_each_invariant {S A : Type} (body : S → A → Result S)
    (I : list A → S → Prop) (s0 : S) (l : list A) :
  I [] s0 →
  (∀ pre x post s s',
      l = pre ++ x :: post → I pre s → body s x = Ok s' → I (pre ++ [x]) s') →
  ∀ s', for_each body s0 l = Ok s' → I l s'.
Proof.
  intros Hinit Hstep.
  assert (∀ pre post s', l = pre ++ post → for_each body s0 pre = Ok s' → I pre s')
    as Hgen.
  { induction pre as [|x pre IH] using rev_ind; intros post s' Hl Hrun.
    - simpl in Hrun. by injection Hrun as <-.
    - rewrite for_each_snoc in Hrun. apply bind_Ok in Hrun as (s & Hs & Hx).
      rewrite <- app_assoc in Hl. simpl in Hl.
      eapply Hstep; [exact Hl | | exact Hx].
      eapply IH; [exact Hl | exact Hs]. }
  intros s' Hrun. apply (Hgen l [] s'); [by rewrite app_nil_r | exact Hrun].
Qed.

(** The positions of a freshly loaded list of objects. *)
Lemma seq_split_position (n : nat) (pre post : list nat) (x : nat) :
  seq 0 n = pre ++ x :: post → x = length pre ∧ x < n.
Proof.
  intros Hl.
  assert (seq 0 n !! length pre = Some x) as Hx.
  { rewrite Hl. by rewrite list_lookup_middle. }
  apply lookup_seq in Hx. lia.
Qed.

(** ** The merge pass *)

Lemma first_with_Some (ln : string) (l : list Doclet) (i : oid) :
  first_with ln l = Some i ↔
  ∃ d, l !! i = Some d ∧ longname d = ln
       ∧ ∀ j d', l !! j = Some d' → j < i → longname d' ≠ ln.
Proof.
  unfold first_with. split.
  - intros Hf. destruct (list_find _ l) as [[i' d]|] eqn:Hfind; [|done].
    simpl in Hf. injection Hf as ->.
    apply list_find_Some in Hfind as (Hi & Hd & Hbefore). eauto.
  - intros (d & Hi & Hd & Hbefore).
    assert (list_find (λ d, longname d = ln) l = Some (i, d)) as ->; [|done].
    apply list_find_Some. eauto.
Qed.

Lemma first_with_None (ln : string) (l : list Doclet) :
  first_with ln l = None ↔ Forall (λ d, longname d ≠ ln) l.
Proof.
  unfold first_with. rewrite fmap_None. apply list_find_None.
Qed.

Lemma first_with_snoc (ln : string) (l : list Doclet) (d : Doclet) :
  first_with ln (l ++ [d]) =
  match first_with ln l with
  | Some i => Some i
  | None => if decide (longname d = ln) then Some (length l) else None
  end.
Proof.
  unfold first_with.
  destruct (list_find _ l) as [[i d']|] eqn:Hfind; simpl.
  - by erewrite list_find_app_l.
  - rewrite list_find_app_r by done. simpl.
    destruct (decide (longname d = ln)); done.
Qed.

Lemma first_with_lt (ln : string) (l : list Doclet) (i : oid) :
  first_with ln l = Some i → i < length l.
Proof.
  intros (d & Hi & _)%first_with_Some. by eapply lookup_lt_Some.
Qed.

Lemma sharing_snoc (ln : string) (l : list Doclet) (d : Doclet) :
  sharing ln (l ++ [d]) =
  sharing ln l ++ (if decide (longname d = ln) then [d] else []).
Proof.
  unfold sharing. by rewrite filter_app.
Qed.

Lemma sharing_nil_first_with (ln : string) (l : list Doclet) :
  first_with ln l = None → sharing ln l = [].
Proof.
  intros Hall%first_with_None. unfold sharing.
  induction Hall as [|d l Hd _ IH]; [done|].
  rewrite filter_cons. destruct (decide (longname d = ln)); done.
Qed.

Lemma setdefault_None (d : gmap string oid) (k : string) (v : oid) :
  d !! k = None → setdefault d k v = (v, <[k := v]> d).
Proof. unfold setdefault. by intros ->. Qed.

Lemma setdefault_Some (d : gmap string oid) (k : string) (v w : oid) :
  d !! k = Some w → setdefault d k v = (w, d).
Proof. unfold setdefault. by intros ->. Qed.

Lemma merge_inv_registered ds k σ merged i :
  merge_inv ds k σ merged → i ∈ merged →
  ∃ r, ds !! i = Some r ∧ longnames σ !! longname r = Some i ∧ i < k.
Proof.
  intros Hinv Hi. apply (mi_merged _ _ _ _ Hinv) in Hi as (ln & Hln).
  pose proof Hln as Hlt. rewrite (mi_index _ _ _ _ Hinv) in Hlt.
  apply first_with_lt in Hlt. rewrite length_take in Hlt.
  pose proof Hln as Hfirst. rewrite (mi_index _ _ _ _ Hinv) in Hfirst.
  apply first_with_Some in Hfirst as (r & Hr & Hlnr & _).
  apply lookup_take_Some in Hr as [Hr _].
  exists r. subst ln. split; [done|]. split; [done|lia].
Qed.

Lemma merge_inv_init ds log : merge_inv ds 0 (initial_state ds log) [].
Proof.
  split; simpl.
  - done.
  - intros ln. by rewrite take_0, lookup_empty.
  - intros i. split; [by intros ?%elem_of_nil|].
    intros (ln & Hln). by rewrite lookup_empty in Hln.
  - constructor.
  - done.
  - intros i d r Hi. by apply elem_of_nil in Hi.
Qed.

Lemma merge_step_inv ds k σ merged σ' merged' :
  k < length ds →
  merge_inv ds k σ merged →
  merge_step (σ, merged) k = Ok (σ', merged') →
  merge_inv ds (S k) σ' merged'.
Proof.
  intros Hk Hinv Hstep.
  destruct (lookup_lt_is_Some_2 ds k Hk) as [doclet Hdoclet].
  assert (k ∉ merged) as Hfresh.
  { intros Hin. destruct (merge_inv_registered _ _ _ _ _ Hinv Hin) as (? & _ & _ & ?). lia. }
  assert (heap σ !! k = Some doclet) as Hheap.
  { by rewrite (mi_untouched _ _ _ _ Hinv k Hfresh). }
  assert (take (S k) ds = take k ds ++ [doclet]) as Htake.
  { by apply take_S_r. }
  unfold merge_step in Hstep.
  apply bind_Ok in Hstep as (doclet' & Hd' & Hstep).
  apply deref_Ok in Hd'. rewrite Hheap in Hd'. injection Hd' as <-.
  destruct (longnames σ !! longname doclet) as [j|] eqn:Hlookup.
  - (* a prior record exists for that longname *)
    rewrite (setdefault_Some _ _ _ _ Hlookup) in Hstep.
    assert (j ∈ merged) as Hj by (apply (mi_merged _ _ _ _ Hinv); eauto).
    destruct (merge_inv_registered _ _ _ _ _ Hinv Hj) as (rj & Hrj & Hlnj & Hjk).
    assert (longname rj = longname doclet) as Hsame.
    { rewrite (mi_index _ _ _ _ Hinv) in Hlookup, Hlnj.
      apply first_with_Some in Hlookup as (r1 & Hr1 & Hl1 & _).
      apply lookup_take_Some in Hr1 as [Hr1 _]. congruence. }
    replace (Nat.eqb k j) with false in Hstep by (symmetry; apply Nat.eqb_neq; lia).
    inv_Ok. subst σ' merged'.
    rename a into last_doclet.
    split; simpl.
    + rewrite list_fmap_insert. simpl.
      rewrite <- (mi_heap_longnames _ _ _ _ Hinv).
      apply list_insert_id. by rewrite list_lookup_fmap, Ha.
    + intros ln. rewrite Htake, first_with_snoc, <- (mi_index _ _ _ _ Hinv).
      destruct (longnames σ !! ln) as [i|] eqn:Hln; [done|].
      destruct (decide (longname doclet = ln)) as [<-|]; congruence.
    + apply (mi_merged _ _ _ _ Hinv).
    + apply (mi_nodup _ _ _ _ Hinv).
    + intros i Hi. rewrite list_lookup_insert_ne by (intros ->; done).
      by apply (mi_untouched _ _ _ _ Hinv).
    + intros i d r Hi Hd Hr. rewrite Htake, sharing_snoc, forallb_app.
      destruct (decide (j = i)) as [->|Hne].
      * rewrite list_lookup_insert_eq in Hd by (by eapply lookup_lt_Some).
        injection Hd as <-. simpl.
        assert (r = rj) as -> by congruence.
        destruct (mi_folded _ _ _ _ Hinv i last_doclet rj Hi Ha Hr)
          as (Hu & ? & ? & ? & ? & ?).
        rewrite Hu. rewrite decide_True by done. simpl.
        by rewrite andb_true_r.
      * rewrite list_lookup_insert_ne in Hd by done.
        destruct (mi_folded _ _ _ _ Hinv i d r Hi Hd Hr) as (Hu & ?).
        split; [|done]. rewrite Hu.
        destruct (merge_inv_registered _ _ _ _ _ Hinv Hi) as (ri & Hri & Hlni & _).
        assert (ri = r) as -> by congruence.
        rewrite decide_False; [by rewrite andb_true_r|].
        intros Heq. rewrite <- Heq in Hlni. congruence.
  - (* first time seen *)
    rewrite (setdefault_None _ _ _ Hlookup) in Hstep.
    rewrite Nat.eqb_refl in Hstep.
    inv_Ok. subst σ' merged'.
    pose proof Hlookup as Hnone. rewrite (mi_index _ _ _ _ Hinv) in Hnone.
    split; simpl.
    + apply (mi_heap_longnames _ _ _ _ Hinv).
    + intros ln. rewrite Htake, first_with_snoc, <- (mi_index _ _ _ _ Hinv).
      rewrite length_take, Nat.min_l by lia.
      destruct (decide (longname doclet = ln)) as [<-|Hne].
      * by rewrite lookup_insert_eq, Hlookup.
      * rewrite lookup_insert_ne by done. by destruct (longnames σ !! ln).
    + intros i. rewrite elem_of_app, list_elem_of_singleton.
      rewrite (mi_merged _ _ _ _ Hinv). split.
      * intros [(ln & Hln)| ->].
        -- exists ln. rewrite lookup_insert_ne; [done|].
           intros <-. congruence.
        -- exists (longname doclet). by rewrite lookup_insert_eq.
      * intros (ln & Hln).
        destruct (decide (longname doclet = ln)) as [<-|Hne].
        -- rewrite lookup_insert_eq in Hln. right. congruence.
        -- rewrite lookup_insert_ne in Hln by done. left. eauto.
    + apply NoDup_app. split; [apply (mi_nodup _ _ _ _ Hinv)|].
      split; [|apply NoDup_singleton].
      intros i Hi ->%list_elem_of_singleton. done.
    + intros i Hi. apply (mi_untouched _ _ _ _ Hinv).
      intros Hin. apply Hi. apply elem_of_app. by left.
    + intros i d r Hi Hd Hr. rewrite Htake, sharing_snoc, forallb_app.
      apply elem_of_app in Hi as [Hi| ->%list_elem_of_singleton].
      * destruct (mi_folded _ _ _ _ Hinv i d r Hi Hd Hr) as (Hu & ?).
        split; [|done]. rewrite Hu.
        destruct (merge_inv_registered _ _ _ _ _ Hinv Hi) as (ri & Hri & Hlni & _).
        assert (ri = r) as -> by congruence.
        rewrite decide_False; [by rewrite andb_true_r|].
        intros Heq. rewrite <- Heq in Hlni. congruence.
      * assert (d = doclet) as -> by congruence.
        assert (r = doclet) as -> by congruence.
        rewrite (sharing_nil_first_with _ _ Hnone).
        rewrite decide_True by done. simpl. by rewrite andb_true_r.
Qed.

Lemma merge_loop_inv (ds : list Doclet) (log : list LogEntry) (σ : State) (merged : list oid) :
  for_each merge_step (initial_state ds log, []) (seq 0 (length ds)) = Ok (σ, merged) →
  merge_inv ds (length ds) σ merged.
Proof.
  intros Hrun.
  pose (I := λ (pre : list oid) (acc : State * list oid),
               merge_inv ds (length pre) (fst acc) (snd acc)).
  assert (I (seq 0 (length ds)) (σ, merged)) as Hfinal.
  { eapply (for_each_invariant merge_step I); [| |exact Hrun].
    - apply merge_inv_init.
    - intros pre x post [s m] [s' m'] Hsplit Hpre Hstep. unfold I in *. simpl in *.
      apply seq_split_position in Hsplit as [-> Hlt].
      rewrite length_app. simpl. rewrite Nat.add_1_r.
      by eapply merge_step_inv. }
  unfold I in Hfinal. simpl in Hfinal. by rewrite length_seq in Hfinal.
Qed.

(** ** The link pass *)

Lemma strip_links_fields d d' :
  strip_links d = strip_links d' →
  kind d = kind d' ∧ longname d = longname d' ∧ name d = name d'
  ∧ memberof d = memberof d' ∧ undocumented d = undocumented d'
  ∧ meta d = meta d' ∧ description d = description d'.
Proof.
  destruct d, d'. unfold strip_links, set_parent. simpl. intros [=]. by subst.
Qed.

Lemma fmap_alter_invariant {A B : Type} (f : A → B) (g : A → A) (l : list A) (i : nat) :
  (∀ x, f (g x) = f x) → f <$> alter g i l = f <$> l.
Proof.
  intros Hfg. apply list_eq. intros j.
  rewrite !list_lookup_fmap, list_lookup_alter.
  destruct (decide (i = j)) as [->|]; [|done].
  destruct (l !! j); simpl; by rewrite ?Hfg.
Qed.

Lemma source_line_own depth h (d : Doclet) :
  parent d = None →
  source_line_from depth h (meta d) (parent d) = Ok (own_location d).
Proof.
  intros ->. unfold own_location. destruct depth, (meta d); done.
Qed.

Lemma doclets_at_snoc h pre i d :
  h !! i = Some d → doclets_at h (pre ++ [i]) = doclets_at h pre ++ [d].
Proof.
  intros Hi. unfold doclets_at. rewrite omap_app. simpl. by rewrite Hi.
Qed.

Lemma forest_step_inv σ0 pre σ i σ' :
  forest_inv σ0 pre σ → forest_step σ i = Ok σ' → forest_inv σ0 (pre ++ [i]) σ'.
Proof.
  intros Hinv Hstep. unfold forest_step in Hstep.
  apply bind_Ok in Hstep as (o & Ho%deref_Ok & Hstep).
  assert (∃ o0, heap σ0 !! i = Some o0 ∧ strip_links o = strip_links o0) as (o0 & Ho0 & Hsame).
  { pose proof (f_equal (λ l, l !! i) (fi_records _ _ _ Hinv)) as Hi. simpl in Hi.
    rewrite !list_lookup_fmap, Ho in Hi. simpl in Hi.
    destruct (heap σ0 !! i) as [o0|]; [|done]. exists o0. split; [done|]. by apply (inj Some). }
  destruct (strip_links_fields _ _ Hsame) as (_ & Hln & _ & Hmo & Hu & Hmeta & _).
  assert (link_report (longnames σ0) o0 = link_report (longnames σ0) o) as Hreport.
  { unfold link_report, link_message, own_location. by rewrite Hln, Hmo, Hu, Hmeta. }
  destruct (memberof o) as [target|] eqn:Htarget.
  - destruct (longnames σ !! target) as [p|] eqn:Hp.
    + (* the parent is in the index *)
      injection Hstep as <-. split; simpl; try apply Hinv.
      * rewrite !fmap_alter_invariant; [apply Hinv|done|done].
      * intros j d0 d Hd0 Hd.
        rewrite list_lookup_alter in Hd.
        assert (∃ d1, alter (set_parent (Some p)) i (heap σ) !! j = Some d1
                      ∧ parent d = parent d1) as (d1 & Hd1 & ->).
        { destruct (decide (p = j)) as [->|]; [|eauto].
          destruct (alter _ i (heap σ) !! j) as [d1|]; [|done].
          injection Hd as <-. eauto. }
        rewrite list_lookup_alter in Hd1.
        destruct (decide (i = j)) as [->|Hne].
        -- rewrite Ho in Hd1. injection Hd1 as <-. simpl.
           rewrite decide_True by (apply elem_of_app; right; by apply list_elem_of_singleton).
           assert (d0 = o0) as -> by congruence.
           unfold resolve. rewrite <- Hmo. simpl.
           by rewrite <- (fi_longnames _ _ _ Hinv), Hp.
        -- rewrite (fi_parent _ _ _ Hinv j d0 d1 Hd0 Hd1).
           destruct (decide (j ∈ pre)) as [Hin|Hnin].
           ++ rewrite decide_True; [done|]. apply elem_of_app. by left.
           ++ rewrite decide_False; [done|].
              intros [?| ->%list_elem_of_singleton]%elem_of_app; done.
      * intros Hfresh. rewrite (fi_logger _ _ _ Hinv).
        -- rewrite (doclets_at_snoc _ _ _ _ Ho0), bind_app. simpl.
           rewrite Hreport. unfold link_report.
           rewrite Htarget, <- (fi_longnames _ _ _ Hinv), Hp.
           by rewrite !app_nil_r.
        -- intros j d0 Hj. apply Hfresh. apply elem_of_app. by left.
    + (* the parent is not in the index *)
      assert (∀ j d0 d, heap σ0 !! j = Some d0 → heap σ !! j = Some d →
        parent d = if decide (j ∈ pre ++ [i])
                   then from_option Some (parent d0) (resolve (longnames σ0) d0)
                   else parent d0) as Hparent.
      { intros j d0 d Hd0 Hd.
        rewrite (fi_parent _ _ _ Hinv j d0 d Hd0 Hd).
        destruct (decide (j ∈ pre)) as [Hin|Hnin].
        - rewrite decide_True; [done|]. apply elem_of_app. by left.
        - destruct (decide (j = i)) as [->|Hne].
          + rewrite decide_True by (apply elem_of_app; right; by apply list_elem_of_singleton).
            assert (d0 = o0) as -> by congruence.
            unfold resolve. rewrite <- Hmo. simpl.
            by rewrite <- (fi_longnames _ _ _ Hinv), Hp.
          + rewrite decide_False; [done|].
            intros [?| ->%list_elem_of_singleton]%elem_of_app; done. }
      assert (link_report (longnames σ0) o =
              if undocumented o then []
              else [mkLog Error (link_message o target) (fmt_location (own_location o))])
        as Hrep.
      { unfold link_report. by rewrite Htarget, <- (fi_longnames _ _ _ Hinv), Hp. }
      unfold doc in Hstep. destruct (undocumented o) eqn:Hundoc; simpl in Hstep.
      * injection Hstep as <-. split; try apply Hinv; [done|].
        intros Hfresh. rewrite (fi_logger _ _ _ Hinv).
        -- rewrite (doclets_at_snoc _ _ _ _ Ho0), bind_app. simpl.
           by rewrite Hreport, Hrep, !app_nil_r.
        -- intros j d0 Hj. apply Hfresh. apply elem_of_app. by left.
      * apply bind_Ok in Hstep as (e & He & Hstep). injection Hstep as <-.
        split; simpl; try apply Hinv; [done|].
        intros Hfresh. rewrite (fi_logger _ _ _ Hinv).
        -- rewrite (doclets_at_snoc _ _ _ _ Ho0), bind_app. simpl.
           rewrite Hreport, Hrep, !app_nil_r, <- app_assoc. do 2 f_equal.
           unfold error, get_source_line in He. simpl in He.
           assert (parent o = None) as Hroot.
           { assert (i ∉ pre ∨ i ∈ pre) as [Hnin|Hin]
               by (destruct (decide (i ∈ pre)); auto).
             - rewrite (fi_parent _ _ _ Hinv i o0 o Ho0 Ho), decide_False by done.
               apply (Hfresh i o0); [|done].
               apply elem_of_app. right. by apply list_elem_of_singleton.
             - rewrite (fi_parent _ _ _ Hinv i o0 o Ho0 Ho), decide_True by done.
               unfold resolve. rewrite <- Hmo. simpl.
               rewrite <- (fi_longnames _ _ _ Hinv), Hp. simpl.
               apply (Hfresh i o0); [|done].
               apply elem_of_app. right. by apply list_elem_of_singleton. }
           rewrite (source_line_own _ _ _ Hroot) in He. simpl in He.
           by injection He as <-.
        -- intros j d0 Hj. apply Hfresh. apply elem_of_app. by left.
  - (* no memberof *)
    injection Hstep as <-. split; try apply Hinv.
    + intros j d0 d Hd0 Hd. rewrite (fi_parent _ _ _ Hinv j d0 d Hd0 Hd).
      destruct (decide (j ∈ pre)) as [Hin|Hnin].
      * rewrite decide_True; [done|]. apply elem_of_app. by left.
      * destruct (decide (j = i)) as [->|Hne].
        -- rewrite decide_True by (apply elem_of_app; right; by apply list_elem_of_singleton).
           assert (d0 = o0) as -> by congruence.
           unfold resolve. by rewrite <- Hmo.
        -- rewrite decide_False; [done|].
           intros [?| ->%list_elem_of_singleton]%elem_of_app; done.
    + intros Hfresh. rewrite (fi_logger _ _ _ Hinv).
      * rewrite (doclets_at_snoc _ _ _ _ Ho0), bind_app. simpl.
        rewrite Hreport. unfold link_report. rewrite Htarget.
        by rewrite !app_nil_r.
      * intros j d0 Hj. apply Hfresh. apply elem_of_app. by left.
Qed.

Lemma forest_inv_init σ : forest_inv σ [] σ.
Proof.
  split; try done.
  - intros i d0 d Hd0 Hd. rewrite decide_False by apply not_elem_of_nil. congruence.
  - intros _. simpl. by rewrite app_nil_r.
Qed.

Lemma make_forest_inv σ ids σ' :
  make_forest σ ids = Ok σ' → forest_inv σ ids σ'.
Proof.
  unfold make_forest. apply (for_each_invariant forest_step (forest_inv σ)).
  - apply forest_inv_init.
  - intros pre x post s s' _. apply forest_step_inv.
Qed.

(** ** The log of the merge pass *)

Lemma errors_app l1 l2 : errors (l1 ++ l2) = errors l1 ++ errors l2.
Proof. unfold errors. apply filter_app. Qed.

Lemma mapM_Ok {A B : Type} (f : A → Result B) (l : list A) (k : list B) :
  mapM f l = Ok k → Forall2 (λ x y, f x = Ok y) l k.
Proof.
  revert k. induction l as [|x l IH]; intros k Hk; simpl in Hk.
  - injection Hk as <-. constructor.
  - apply bind_Ok in Hk as (y & Hy & Hk).
    apply bind_Ok in Hk as (k' & Hk' & Hk). injection Hk as <-.
    constructor; [done|]. by apply IH.
Qed.

Lemma warn_level `{IsObj A} h (self : A) m e : warn h self m = Ok e → level e = Warning.
Proof.
  unfold warn. intros (sl & _ & He)%bind_Ok. by injection He as <-.
Qed.

Lemma mapM_warn_errors `{IsObj A} h (self : A) (text : string → string) l ws :
  mapM (λ n, warn h self (text n)) l = Ok ws → errors ws = [].
Proof.
  intros Hall%mapM_Ok. unfold errors.
  induction Hall as [|n e l ws He _ IH]; [done|].
  rewrite filter_cons, decide_False; [done|].
  apply warn_level in He. congruence.
Qed.

Lemma check_params_errors h doclet ws :
  check_params h doclet = Ok ws → errors ws = [].
Proof.
  unfold check_params. destruct (undocumented doclet); [by intros [= <-]|].
  unfold except_AttributeError.
  destruct (_ ≫= _) as [ws'|e] eqn:Hbody.
  - intros [= <-].
    apply bind_Ok in Hbody as (ps & _ & Hbody).
    apply bind_Ok in Hbody as (param_names & _ & Hbody).
    apply bind_Ok in Hbody as (m & _ & Hbody).
    apply bind_Ok in Hbody as (c & _ & Hbody).
    apply bind_Ok in Hbody as (meta_param_names & _ & Hbody).
    apply bind_Ok in Hbody as (w1 & Hw1 & Hbody).
    apply bind_Ok in Hbody as (w2 & Hw2 & Hbody). injection Hbody as <-.
    rewrite errors_app.
    apply mapM_warn_errors in Hw1, Hw2. by rewrite Hw1, Hw2.
  - destruct e; try done. by intros [= <-].
Qed.

Lemma merge_step_errors σ merged i σ' merged' :
  merge_step (σ, merged) i = Ok (σ', merged') → errors (logger σ') = errors (logger σ).
Proof.
  unfold merge_step. intros (doclet & _ & Hstep)%bind_Ok.
  destruct (setdefault _ _ _) as [last lns].
  destruct (Nat.eqb i last).
  - apply bind_Ok in Hstep as (ws & Hws & Hstep). injection Hstep as <- _. simpl.
    unfold errors. rewrite filter_app.
    apply check_params_errors in Hws. unfold errors in Hws.
    by rewrite Hws, app_nil_r.
  - inv_Ok. by subst.
Qed.

Lemma merge_loop_errors σ0 ids σ merged :
  for_each merge_step (σ0, []) ids = Ok (σ, merged) →
  errors (logger σ) = errors (logger σ0).
Proof.
  intros Hrun.
  apply (for_each_invariant merge_step
           (λ _ acc, errors (logger (fst acc)) = errors (logger σ0))
           (σ0, []) ids) in Hrun; [done|done|].
  intros pre x post [s m] [s' m'] _ Hpre Hstep. simpl in *.
  by rewrite (merge_step_errors _ _ _ _ _ Hstep).
Qed.

(** ** The two passes together *)

Lemma merge_doclets_passes ds log σ' merged ns lns :
  merge_doclets (initial_state ds log) (seq 0 (length ds)) = Ok (σ', (merged, ns, lns)) →
  ∃ σ1, merge_inv ds (length ds) σ1 merged
        ∧ errors (logger σ1) = errors log
        ∧ forest_inv σ1 merged σ'
        ∧ ns = ∅ ∧ lns = ∅.
Proof.
  unfold merge_doclets. intros ([σ1 merged1] & Hloop & Hrest)%bind_Ok.
  apply bind_Ok in Hrest as (σ2 & Hforest & Hret).
  injection Hret as <- <- <- <-.
  exists σ1. split; [by apply (merge_loop_inv ds log)|].
  split; [by apply (merge_loop_errors _ _ _ _ Hloop)|].
  split; [by apply make_forest_inv|done].
Qed.

Lemma strip_links_lookup (h h' : Heap) i d :
  strip_links <$> h = strip_links <$> h' → h !! i = Some d →
  ∃ d', h' !! i = Some d' ∧ strip_links d = strip_links d'.
Proof.
  intros Heq Hd.
  pose proof (f_equal (λ l, l !! i) Heq) as Hi. simpl in Hi.
  rewrite !list_lookup_fmap, Hd in Hi.
  destruct (h' !! i) as [d'|]; [|done].
  exists d'. split; [done|]. by apply (inj Some).
Qed.


Lemma link_report_strip lns d d' :
  strip_links d = strip_links d' → link_report lns d = link_report lns d'.
Proof.
  intros (_ & Hln & _ & Hmo & Hu & Hmeta & _)%strip_links_fields.
  unfold link_report, link_message, own_location. by rewrite Hln, Hmo, Hu, Hmeta.
Qed.

Lemma doclets_at_cons (h : Heap) i ids :
  doclets_at h (i :: ids) =
  match h !! i with
  | Some d => d :: doclets_at h ids
  | None => doclets_at h ids
  end.
Proof. unfold doclets_at. simpl. by destruct (h !! i). Qed.

Lemma doclets_at_reports lns (h h' : Heap) ids :
  strip_links <$> h = strip_links <$> h' →
  doclets_at h ids ≫= link_report lns = doclets_at h' ids ≫= link_report lns.
Proof.
  intros Heq. induction ids as [|i ids IH]; [done|].
  rewrite !doclets_at_cons.
  destruct (h !! i) as [d|] eqn:Hd.
  - destruct (strip_links_lookup _ _ _ _ Heq Hd) as (d' & -> & Hsame).
    by rewrite !bind_cons, IH, (link_report_strip _ _ _ Hsame).
  - assert (h' !! i = None) as ->; [|done].
    apply lookup_ge_None. apply lookup_ge_None in Hd.
    apply (f_equal length) in Heq. rewrite !length_fmap in Heq. lia.
Qed.

Lemma elem_of_doclets_at h ids d :
  d ∈ doclets_at h ids ↔ ∃ i, i ∈ ids ∧ h !! i = Some d.
Proof. unfold doclets_at. apply list_elem_of_omap. Qed.

Lemma doclets_at_distinct (h : Heap) (ids : list oid) :
  NoDup ids →
  (∀ i, i ∈ ids → is_Some (h !! i)) →
  (∀ i j di dj, i ∈ ids → j ∈ ids → h !! i = Some di → h !! j = Some dj →
                longname di = longname dj → i = j) →
  length (doclets_at h ids) = length ids
  ∧ NoDup (longname <$> doclets_at h ids).
Proof.
  induction 1 as [|i ids Hi Hnodup IH]; intros Hlive Hinj.
  - split; [done|constructor].
  - destruct (Hlive i) as [d Hd]; [by left|].
    destruct IH as [IHlen IHnodup].
    { intros j Hj. apply Hlive. by right. }
    { intros j1 j2 d1 d2 H1 H2. apply Hinj; by right. }
    rewrite doclets_at_cons, Hd. simpl.
    split; [by rewrite IHlen|].
    apply NoDup_cons. split; [|done].
    intros (d' & Hsame & Hd')%list_elem_of_fmap.
    apply elem_of_doclets_at in Hd' as (j & Hj & Hdj).
    assert (i = j) as -> by (eapply Hinj; [by left|by right|done..]).
    done.
Qed.

(** The facts about the kept doclets that the statements below share. *)
Lemma merge_doclets_kept ds log σ' merged ns lns i :
  merge_doclets (initial_state ds log) (seq 0 (length ds)) = Ok (σ', (merged, ns, lns)) →
  i ∈ merged →
  ∃ r d, ds !! i = Some r ∧ heap σ' !! i = Some d
         ∧ longnames σ' !! longname r = Some i
         ∧ kind d = kind r ∧ longname d = longname r ∧ name d = name r
         ∧ memberof d = memberof r
         ∧ undocumented d = forallb undocumented (sharing (longname r) ds)
         ∧ parent d = from_option Some (parent r) (resolve (longnames σ') d).
Proof.
  intros (σ1 & Hmerge & _ & Hforest & _)%merge_doclets_passes Hi.
  destruct (merge_inv_registered _ _ _ _ _ Hmerge Hi) as (r & Hr & Hreg & _).
  assert (is_Some (heap σ1 !! i)) as [d1 Hd1].
  { apply lookup_lt_is_Some. apply lookup_lt_Some in Hr.
    pose proof (f_equal length (mi_heap_longnames _ _ _ _ Hmerge)) as Hlen.
    rewrite !length_fmap in Hlen. lia. }
  destruct (mi_folded _ _ _ _ Hmerge i d1 r Hi Hd1 Hr) as (Hu & Hk & Hn & Hmo & Hp & _).
  rewrite firstn_all in Hu.
  assert (strip_links <$> heap σ1 = strip_links <$> heap σ') as Hrec
    by (symmetry; apply Hforest).
  destruct (strip_links_lookup _ _ _ _ Hrec Hd1) as (d & Hd & Hsame).
  destruct (strip_links_fields _ _ Hsame) as (Hk' & Hln' & Hn' & Hmo' & Hu' & _).
  assert (longname d1 = longname r) as Hln.
  { pose proof (f_equal (λ l, l !! i) (mi_heap_longnames _ _ _ _ Hmerge)) as Hl.
    simpl in Hl. rewrite !list_lookup_fmap, Hd1, Hr in Hl. by apply (inj Some). }
  exists r, d. rewrite (fi_longnames _ _ _ Hforest).
  repeat split; try congruence.
  rewrite (fi_parent _ _ _ Hforest i d1 d Hd1 Hd), decide_True by done.
  unfold resolve. by rewrite Hp, Hmo'.
Qed.

Lemma merge_doclets_distinct ds log σ' merged ns lns :
  merge_doclets (initial_state ds log) (seq 0 (length ds)) = Ok (σ', (merged, ns, lns)) →
  distinct_longnames (heap σ') merged.
Proof.
  intros Hrun.
  pose proof Hrun as (σ1 & Hmerge & _ & Hforest & _)%merge_doclets_passes.
  apply doclets_at_distinct; [apply Hmerge| |].
  - intros i Hi.
    destruct (merge_doclets_kept _ _ _ _ _ _ i Hrun Hi) as (r & d & _ & Hd & _). eauto.
  - intros i j di dj Hi Hj Hdi Hdj Hsame.
    destruct (merge_doclets_kept _ _ _ _ _ _ i Hrun Hi)
      as (ri & di' & _ & Hdi' & Hregi & _ & Hlni & _).
    destruct (merge_doclets_kept _ _ _ _ _ _ j Hrun Hj)
      as (rj & dj' & _ & Hdj' & Hregj & _ & Hlnj & _).
    assert (longname ri = longname rj) as Heq by congruence.
    rewrite Heq in Hregi. congruence.
Qed.


Lemma example_merge_returns : ∃ r, example_merge = Ok r.
Proof. vm_compute. eauto. Qed.


(** C2.  The [undocumented] flag of a kept doclet is the conjunction of the
    flags of all the records of the input that share its longname; when two
    records share it, it is the conjunction of the two flags, so that one
    documented record makes the merged doclet documented. *)
Theorem merge_undocumented_and ds log σ' merged ns lns i d :
  merge_doclets (initial_state ds log) (seq 0 (length ds)) = Ok (σ', (merged, ns, lns)) →
  i ∈ merged → heap σ' !! i = Some d →
  undocumented d = forallb undocumented (sharing (longname d) ds)
  ∧ ∀ r1 r2, sharing (longname d) ds = [r1; r2] →
      undocumented d = undocumented r1 && undocumented r2
      ∧ (undocumented r1 = negb (undocumented r2) → undocumented d = false).
Proof.
  intros Hrun Hi Hd.
  destruct (merge_doclets_kept _ _ _ _ _ _ i Hrun Hi)
    as (r & d' & _ & Hd' & _ & _ & Hln & _ & _ & Hu & _).
  assert (d' = d) as -> by congruence.
  rewrite Hln. split; [done|].
  intros r1 r2 Hpair. rewrite Hu, Hpair. simpl. rewrite andb_true_r.
  split; [done|]. intros ->. by destruct (undocumented r2).
Qed.

Lemma errors_link_reports lns (l : list Doclet) :
  errors (l ≫= link_report lns) = l ≫= link_report lns.
Proof.
  induction l as [|d l IH]; [done|].
  rewrite bind_cons, errors_app, IH. f_equal.
  unfold link_report.
  destruct (memberof d) as [target|]; [|done].
  destruct (lns !! target); [done|].
  by destruct (undocumented d).
Qed.

(** C3.  The errors that the two passes log are the link reports of the
    kept doclets, in the order of the merged list.  A kept doclet whose
    [memberof] is not a key of the longname index is in the returned list,
    has no parent, and its report is empty if it is undocumented and
    otherwise a single error, located at the doclet's own [meta] (or at the
    unknown location if it has none); when the [memberof] is [<anonymous>]
    the message advises to give the anonymous object an alias. *)
Theorem make_forest_unresolved_memberof ds log σ' merged ns lns :
  Forall constructed ds →
  merge_doclets (initial_state ds log) (seq 0 (length ds)) = Ok (σ', (merged, ns, lns)) →
  errors (logger σ') =
    errors log ++ (doclets_at (heap σ') merged ≫= link_report (longnames σ'))
  ∧ ∀ ln i d target,
      longnames σ' !! ln = Some i → heap σ' !! i = Some d →
      memberof d = Some target → longnames σ' !! target = None →
      i ∈ merged
      ∧ parent d = None
      ∧ link_report (longnames σ') d =
          (if undocumented d then []
           else [mkLog Error (link_message d target) (fmt_location (own_location d))])
      ∧ (target = "<anonymous>" →
         link_message d target =
           "Could not link up object " +:+ longname d +:+ " to <anonymous>."
           +:+ newline +:+ spaces 29 +:+ "Try giving the anonymous object an @alias.").
Proof.
  intros Hfresh Hrun.
  pose proof Hrun as (σ1 & Hmerge & Herrors & Hforest & _)%merge_doclets_passes.
  split.
  - rewrite (fi_logger _ _ _ Hforest).
    + rewrite errors_app, errors_link_reports, Herrors.
      rewrite <- (fi_longnames _ _ _ Hforest). f_equal.
      apply doclets_at_reports. symmetry. apply Hforest.
    + intros i d0 Hi Hd0.
      destruct (merge_inv_registered _ _ _ _ _ Hmerge Hi) as (r & Hr & _).
      destruct (mi_folded _ _ _ _ Hmerge i d0 r Hi Hd0 Hr) as (_ & _ & _ & _ & -> & _).
      rewrite Forall_forall in Hfresh.
      destruct (Hfresh r) as [Hroot _]; [by eapply list_elem_of_lookup_2|done].
  - intros ln i d target Hln Hd Htarget Hnone.
    assert (i ∈ merged) as Hi.
    { apply (mi_merged _ _ _ _ Hmerge). exists ln.
      by rewrite <- (fi_longnames _ _ _ Hforest). }
    split; [done|].
    destruct (merge_doclets_kept _ _ _ _ _ _ i Hrun Hi)
      as (r & d' & Hr & Hd' & _ & _ & _ & _ & _ & _ & Hparent).
    assert (d' = d) as -> by congruence.
    split.
    { rewrite Hparent. unfold resolve. rewrite Htarget. simpl. rewrite Hnone. simpl.
      rewrite Forall_forall in Hfresh.
      destruct (Hfresh r) as [Hroot _]; [by eapply list_elem_of_lookup_2|done]. }
    split.
    { unfold link_report. by rewrite Htarget, Hnone. }
    intros ->. done.
Qed.

(** Names the components of the merged example file. *)
Ltac example_merge_result σ' merged ns lns Hrun :=
  destruct example_merge as [[σ' [[merged ns] lns]]|?] eqn:Hrun;
  [|destruct example_merge_returns; congruence].

(** Two records of the example share the longname [Widget], one of them
    documented: a witness for C2. *)
Lemma merge_undocumented_and_witness :
  match example_merge with
  | Ok (σ', _) => ∃ d, heap σ' !! 0 = Some d ∧ undocumented d = false
  | Raise _ => False
  end.
Proof.
  example_merge_result σ' merged ns lns Hrun.
  pose proof Hrun as Hvalue. vm_compute in Hvalue.
  injection Hvalue as Hσ Hmerged _ _.
  assert (0 ∈ merged) as Hin by (rewrite <- Hmerged; apply list_elem_of_here).
  assert (is_Some (heap σ' !! 0)) as [d Hd] by (rewrite <- Hσ; eexists; reflexivity).
  assert (longname d = "Widget") as Hln.
  { rewrite <- Hσ in Hd. injection Hd as <-. reflexivity. }
  exists d. split; [done|].
  destruct (merge_undocumented_and example_records [] σ' merged ns lns 0 d Hrun Hin Hd)
    as [_ Hpair].
  destruct (Hpair (example_doclet "class" "Widget" "Widget" None false 3)
                  (example_doclet "class" "Widget" "Widget" None true 4)) as [_ Hone].
  - rewrite Hln. reflexivity.
  - apply Hone. reflexivity.
Defined.

Lemma example_records_constructed : Forall constructed example_records.
Proof. repeat constructor. Qed.

(** The example file has a documented function in an anonymous scope and an
    undocumented one in a scope that is not in the file: a witness for C3. *)
Lemma make_forest_unresolved_memberof_witness :
  match example_merge with
  | Ok (σ', (merged, _, _)) =>
      errors (logger σ') =
        [mkLog Error
           (link_message (example_doclet "function" "helper" "helper"
                                         (Some "<anonymous>") false 20) "<anonymous>")
           "/src/widget.js:20"]
      ∧ 3 ∈ merged ∧ 4 ∈ merged
      ∧ (parent <$> heap σ' !! 3) = Some None
      ∧ (parent <$> heap σ' !! 4) = Some None
  | Raise _ => False
  end.
Proof.
  example_merge_result σ' merged ns lns Hrun.
  destruct (make_forest_unresolved_memberof example_records [] σ' merged ns lns
              example_records_constructed Hrun) as [Hlog Hkept].
  pose proof Hrun as Hvalue. vm_compute in Hvalue.
  injection Hvalue as Hσ Hmerged _ _.
  split.
  { rewrite Hlog. rewrite <- Hσ, <- Hmerged. reflexivity. }
  assert (∃ d3, heap σ' !! 3 = Some d3 ∧ memberof d3 = Some "<anonymous>"
                ∧ longnames σ' !! "helper" = Some 3
                ∧ longnames σ' !! "<anonymous>" = None) as (d3 & Hd3 & Hm3 & Hl3 & Hn3).
  { rewrite <- Hσ. eexists. repeat split; reflexivity. }
  assert (∃ d4, heap σ' !! 4 = Some d4 ∧ memberof d4 = Some "Gadget"
                ∧ longnames σ' !! "hidden" = Some 4
                ∧ longnames σ' !! "Gadget" = None) as (d4 & Hd4 & Hm4 & Hl4 & Hn4).
  { rewrite <- Hσ. eexists. repeat split; reflexivity. }
  destruct (Hkept "helper" 3 d3 "<anonymous>" Hl3 Hd3 Hm3 Hn3) as (Hin3 & Hp3 & _).
  destruct (Hkept "hidden" 4 d4 "Gadget" Hl4 Hd4 Hm4 Hn4) as (Hin4 & Hp4 & _).
  rewrite Hd3, Hd4. simpl. by rewrite Hp3, Hp4.
Defined.

(** ** The structure cache *)

Lemma merge_doclets_locals σ ds σ' merged ns lns :
  merge_doclets σ ds = Ok (σ', (merged, ns, lns)) → ns = ∅ ∧ lns = ∅.
Proof.
  unfold merge_doclets. intros ([σ1 merged1] & _ & Hrest)%bind_Ok.
  apply bind_Ok in Hrest as (σ2 & _ & Hret). by injection Hret as _ _ <- <-.
Qed.

(** What a request does to the cache and to the files read. *)
Lemma load_structure_hit w structure_json s :
  loaded_structure_files w !! structure_json = Some s →
  load_structure w structure_json = (w, Ok (cached_state s (process_log w))).
Proof. unfold load_structure. by intros ->. Qed.

Lemma load_structure_miss w structure_json :
  loaded_structure_files w !! structure_json = None →
  (∃ e, load_structure w structure_json = (w, Raise e))
  ∨ (∃ e, load_structure w structure_json =
            (mkProcess (files w) (loaded_structure_files w)
                       (opened w ++ [structure_json]) (process_log w), Raise e))
  ∨ (∃ ds σ merged,
       files w !! structure_json = Some ds
       ∧ merge_doclets (initial_state ds (process_log w)) (seq 0 (length ds))
         = Ok (σ, (merged, ∅, ∅))
       ∧ load_structure w structure_json =
           (mkProcess (files w)
                      (<[structure_json := mkStructure (heap σ) merged ∅ ∅]>
                         (loaded_structure_files w))
                      (opened w ++ [structure_json]) (logger σ),
            Ok (cached_state (mkStructure (heap σ) merged ∅ ∅) (logger σ)))).
Proof.
  intros Hmiss. unfold load_structure. rewrite Hmiss.
  destruct (files w !! structure_json) as [ds|]; [|left; eauto].
  destruct (merge_doclets _ _) as [[σ [[merged ns] lns]]|e] eqn:Hmerge.
  - right. right.
    destruct (merge_doclets_locals _ _ _ _ _ _ Hmerge) as [-> ->].
    exists ds, σ, merged. done.
  - right. left. eauto.
Qed.

Lemma later_cache_indexes w w' :
  later w w' → cache_indexes_empty w → cache_indexes_empty w'.
Proof.
  intros Hlater Hw.
  induction Hlater as [|w' sj Hw' IH|w' fs Hw' IH]; simpl; [done| |exact IH].
  intros sj' s Hs.
  destruct (loaded_structure_files w' !! sj) as [s0|] eqn:Hcached.
  - rewrite (load_structure_hit _ _ _ Hcached) in Hs. by eapply IH.
  - destruct (load_structure_miss w' sj Hcached)
      as [(e & Heq)|[(e & Heq)|(ds & σ & merged & _ & _ & Heq)]];
      rewrite Heq in Hs; simpl in Hs; [by eapply IH|by eapply IH|].
    destruct (decide (sj = sj')) as [->|Hne].
    + rewrite lookup_insert_eq in Hs. by injection Hs as <-.
    + rewrite lookup_insert_ne in Hs by done. by eapply IH.
Qed.

Lemma reachable_cache_indexes w : reachable w → cache_indexes_empty w.
Proof.
  intros (fs & log & Hlater). apply (later_cache_indexes _ _ Hlater).
  intros sj s Hs. simpl in Hs. by rewrite lookup_empty in Hs.
Qed.

Lemma xref_empty_indexes σ nm :
  names σ = ∅ → longnames σ = ∅ → xref σ nm = Ok nm.
Proof.
  intros Hn Hl. unfold xref. by rewrite Hl, Hn, !lookup_empty.
Qed.

(** C10.  The dictionaries that [merge_doclets] returns are empty whatever
    the input, and so are the indexes of the directive once the cache entry
    has been read back, on the request that fills the cache and on every
    later one: the resolver then finds no name. *)
Theorem merge_doclets_returns_unwritten_locals :
  (∀ σ ds σ' merged ns lns,
      merge_doclets σ ds = Ok (σ', (merged, ns, lns)) → ns = ∅ ∧ lns = ∅)
  ∧ (∀ w structure_json w' σ,
      reachable w → load_structure w structure_json = (w', Ok σ) →
      names σ = ∅ ∧ longnames σ = ∅ ∧ ∀ nm, xref σ nm = Ok nm).
Proof.
  split; [apply merge_doclets_locals|].
  intros w sj w' σ Hw Hload.
  assert (names σ = ∅ ∧ longnames σ = ∅) as [Hn Hl].
  { destruct (loaded_structure_files w !! sj) as [s|] eqn:Hcached.
    - rewrite (load_structure_hit _ _ _ Hcached) in Hload.
      injection Hload as _ <-. simpl. by eapply reachable_cache_indexes.
    - destruct (load_structure_miss w sj Hcached)
        as [(e & Heq)|[(e & Heq)|(ds & σ1 & merged & _ & _ & Heq)]];
        rewrite Heq in Hload; [done|done|].
      by injection Hload as _ <-. }
  split; [done|]. split; [done|]. intros nm. by apply xref_empty_indexes.
Qed.

Lemma example_request_returns : ∃ σ, snd example_request = Ok σ.
Proof. vm_compute. eauto. Qed.

(** On the example file the instance attributes are filled by the merge
    pass while the returned dictionaries are empty, and the request for the
    file leaves the directive with empty indexes: a witness for C10. *)
Lemma merge_doclets_returns_unwritten_locals_witness :
  match example_merge with
  | Ok (σ', (_, ns, lns)) =>
      ns = ∅ ∧ lns = ∅
      ∧ names σ' !! "draw" = Some 1 ∧ longnames σ' !! "Widget" = Some 0
  | Raise _ => False
  end
  ∧ match snd example_request with
    | Ok σ => names σ = ∅ ∧ longnames σ = ∅ ∧ xref σ "Widget" = Ok "Widget"
    | Raise _ => False
    end.
Proof.
  split.
  - example_merge_result σ' merged ns lns Hrun.
    destruct (proj1 merge_doclets_returns_unwritten_locals _ _ _ _ _ _ Hrun) as [-> ->].
    vm_compute in Hrun. injection Hrun as <- _.
    repeat split; reflexivity.
  - destruct (snd example_request) as [σ|e] eqn:Hrequest;
      [|destruct example_request_returns; congruence].
    assert (reachable example_process) as Hstart.
    { exists {[ "structure.json" := example_records ]}, []. constructor. }
    destruct (proj2 merge_doclets_returns_unwritten_locals
                example_process "structure.json" (fst example_request) σ Hstart)
      as (Hn & Hl & Hxref).
    { rewrite <- Hrequest. unfold example_request. by destruct (load_structure _ _). }
    auto.
Defined.

Lemma later_cached w w' structure_json s :
  later w w' →
  loaded_structure_files w !! structure_json = Some s →
  loaded_structure_files w' !! structure_json = Some s
  ∧ reads_of structure_json w' = reads_of structure_json w.
Proof.
  intros Hlater Hs.
  induction Hlater as [|w' sj Hw' [IHs IHr]|w' fs Hw' IH]; simpl; [done| |exact IH].
  destruct (loaded_structure_files w' !! sj) as [s0|] eqn:Hcached.
  - by rewrite (load_structure_hit _ _ _ Hcached).
  - assert (sj ≠ structure_json) as Hne by (intros ->; congruence).
    assert (reads_of structure_json
              (mkProcess (files w') (loaded_structure_files w')
                         (opened w' ++ [sj]) (process_log w'))
            = reads_of structure_json w') as Hreads.
    { unfold reads_of. simpl. rewrite filter_app, filter_cons, decide_False by done.
      by rewrite filter_nil, app_nil_r. }
    destruct (load_structure_miss w' sj Hcached)
      as [(e & Heq)|[(e & Heq)|(ds & σ & merged & _ & _ & Heq)]];
      rewrite Heq; simpl.
    + done.
    + split; [done|]. by rewrite <- IHr, <- Hreads.
    + rewrite lookup_insert_ne by done. split; [done|]. by rewrite <- IHr, <- Hreads.
Qed.

(** C5.  Once a structure file is in the cache, it stays there with the
    same triple through every later request and every change of the files
    on disk; a request for it hands out that very triple (the objects, the
    list and the two dictionaries of the entry, nothing rebuilt) and leaves
    the process as it is, so the file is not read again. *)
Theorem structure_cache_populated_once w w' structure_json s :
  loaded_structure_files w !! structure_json = Some s →
  later w w' →
  loaded_structure_files w' !! structure_json = Some s
  ∧ (∃ σ, load_structure w' structure_json = (w', Ok σ)
          ∧ heap σ = s_heap s ∧ doclets σ = s_doclets s
          ∧ names σ = s_names s ∧ longnames σ = s_longnames s
          ∧ logger σ = process_log w')
  ∧ reads_of structure_json w' = reads_of structure_json w.
Proof.
  intros Hs Hlater.
  destruct (later_cached _ _ _ _ Hlater Hs) as [Hs' Hreads].
  split; [done|]. split; [|done].
  exists (cached_state s (process_log w')). by rewrite (load_structure_hit _ _ _ Hs').
Qed.

Lemma example_cached_entry :
  ∃ s, loaded_structure_files example_cached !! "structure.json" = Some s
       ∧ s_doclets s = [0; 1; 3; 4]
       ∧ longname <$> s_heap s = ["Widget"; "Widget.draw"; "Widget"; "helper"; "hidden"].
Proof. vm_compute. eauto. Qed.

(** The example file is read once; after the file has changed on disk (it
    now lists nothing) a second request still hands out the objects and the
    list built from the first reading, and the file has been read once: a
    witness for C5. *)
Lemma structure_cache_populated_once_witness :
  ∃ σ, load_structure example_edited "structure.json" = (example_edited, Ok σ)
       ∧ doclets σ = [0; 1; 3; 4]
       ∧ longname <$> heap σ = ["Widget"; "Widget.draw"; "Widget"; "helper"; "hidden"]
       ∧ names σ = ∅ ∧ longnames σ = ∅
       ∧ reads_of "structure.json" example_edited = 1.
Proof.
  destruct example_cached_entry as (s & Hs & Hdoclets & Hheap).
  assert (later example_cached example_edited) as Hlater.
  { unfold example_edited. apply later_edit. apply later_now. }
  destruct (structure_cache_populated_once example_cached example_edited
              "structure.json" s Hs Hlater)
    as (_ & (σ & Hload & Hh & Hd & Hn & Hl & _) & Hreads).
  exists σ. split; [done|].
  rewrite Hd, Hh, Hn, Hl, Hreads.
  split; [done|]. split; [done|].
  assert (cache_indexes_empty example_cached) as Hempty.
  { apply reachable_cache_indexes.
    exists {[ "structure.json" := example_records ]}, [].
    apply (later_request _ (mkProcess {[ "structure.json" := example_records ]} ∅ [] [])).
    apply later_now. }
  destruct (Hempty _ _ Hs) as [-> ->].
  split; [done|]. split; [done|]. reflexivity.
Defined.

(** ** The cross-reference resolver *)

Lemma ambiguous_merge_returns : ∃ r, ambiguous_merge = Ok r.
Proof. vm_compute. eauto. Qed.

Ltac ambiguous_merge_result σ' merged ns lns Hrun :=
  destruct ambiguous_merge as [[σ' [[merged ns] lns]]|?] eqn:Hrun;
  [|destruct ambiguous_merge_returns; congruence].

(** With the indexes that the merge pass builds for a file in which the
    short name [draw] belongs to a member and the longname [draw] to a
    function, the resolver answers with the category of the longname match,
    not with that of the short-name match. *)
Lemma xref_short_name_not_favoured :
  match ambiguous_merge with
  | Ok (σ', _) =>
      names σ' !! "draw" = Some 2
      ∧ kind <$> heap σ' !! 2 = Some "member"
      ∧ xref_table !! "member" = Some "js:attr"
      ∧ xref σ' "draw" ≠ Ok (xref_token "js:attr" "draw")
      ∧ xref σ' "draw" = Ok (xref_token "js:func" "draw")
  | Raise _ => False
  end.
Proof.
  ambiguous_merge_result σ' merged ns lns Hrun.
  vm_compute in Hrun. injection Hrun as <- _ _ _.
  repeat split; try reflexivity. vm_compute. discriminate.
Qed.

(** A match whose kind has no entry in [xref_table] makes the resolver
    raise [KeyError]. *)
Lemma xref_file_kind_raises :
  match ambiguous_merge with
  | Ok (σ', _) => xref σ' "widget.js" = Raise (KeyError "file")
  | Raise _ => False
  end.
Proof.
  ambiguous_merge_result σ' merged ns lns Hrun.
  vm_compute in Hrun. injection Hrun as <- _ _ _. reflexivity.
Qed.

Lemma xref_table_nonempty_kind k role : xref_table !! k = Some role → String.eqb k "" = false.
Proof.
  intros Hk. destruct (String.eqb_spec k "") as [->|]; [|done].
  vm_compute in Hk. discriminate.
Qed.

Lemma xref_of_kind σ nm i d role :
  match longnames σ !! nm with
  | Some j => j = i
  | None => names σ !! nm = Some i
  end →
  heap σ !! i = Some d → xref_table !! kind d = Some role →
  xref σ nm = Ok (xref_token role nm).
Proof.
  intros Hmatch Hd Hrole. unfold xref.
  assert ((match longnames σ !! nm with
           | Some i => d ← deref (heap σ) i; mret (Some (kind d))
           | None =>
               match names σ !! nm with
               | Some i => d ← deref (heap σ) i; mret (Some (kind d))
               | None => mret None
               end
           end) = Ok (Some (kind d))) as ->.
  { destruct (longnames σ !! nm) as [j|].
    - subst j. unfold deref. by rewrite Hd.
    - rewrite Hmatch. unfold deref. by rewrite Hd. }
  simpl. rewrite (xref_table_nonempty_kind _ _ Hrole).
  unfold getitem. by rewrite Hrole.
Qed.

(** C4 (as the code has it).  The longname index is consulted with
    precedence over the name index: a name that is a key of the longname
    index resolves to the category of that doclet, whatever the name index
    holds; a name that is a key of the name index only resolves to the
    category of that doclet; a name that is a key of neither index is
    returned unchanged. *)
Theorem xref_longname_index_first σ nm :
  (∀ i d role,
      longnames σ !! nm = Some i → heap σ !! i = Some d →
      xref_table !! kind d = Some role →
      xref σ nm = Ok (xref_token role nm))
  ∧ (∀ i d role,
      longnames σ !! nm = None → names σ !! nm = Some i → heap σ !! i = Some d →
      xref_table !! kind d = Some role →
      xref σ nm = Ok (xref_token role nm))
  ∧ (longnames σ !! nm = None → names σ !! nm = None → xref σ nm = Ok nm).
Proof.
  split; [|split].
  - intros i d role Hl Hd Hrole. apply (xref_of_kind σ nm i d role); [|done..].
    by rewrite Hl.
  - intros i d role Hl Hn Hd Hrole. apply (xref_of_kind σ nm i d role); [|done..].
    by rewrite Hl.
  - intros Hl Hn. unfold xref. by rewrite Hl, Hn.
Qed.

(** The three cases on the indexes of the file with the two [draw]s: a
    witness for C4. *)
Lemma xref_longname_index_first_witness :
  match ambiguous_merge with
  | Ok (σ', _) =>
      xref σ' "draw" = Ok (xref_token "js:func" "draw")
      ∧ xref σ' "Widget" = Ok (xref_token "js:class" "Widget")
      ∧ xref σ' "Gadget" = Ok "Gadget"
      ∧ xref (mkState (heap σ') [] (names σ') ∅ []) "draw"
        = Ok (xref_token "js:attr" "draw")
  | Raise _ => False
  end.
Proof.
  ambiguous_merge_result σ' merged ns lns Hrun.
  vm_compute in Hrun. injection Hrun as <- _ _ _.
  split; [|split; [|split]].
  - eapply (proj1 (xref_longname_index_first _ "draw") 0 _ "js:func"); reflexivity.
  - eapply (proj1 (xref_longname_index_first _ "Widget") 1 _ "js:class"); reflexivity.
  - eapply (proj2 (proj2 (xref_longname_index_first _ "Gadget"))); reflexivity.
  - eapply (proj1 (proj2 (xref_longname_index_first _ "draw")) 2 _ "js:attr"); reflexivity.
Defined.

(** ** Rendering *)

Lemma rev_app_append (cur acc x : string) :
  String.rev_app cur acc +:+ x = String.rev_app cur (acc +:+ x).
Proof.
  revert acc. induction cur as [|c cur IH]; intros acc; simpl; [done|apply IH].
Qed.

(** The first line that [splitlines] returns starts with what has been read
    of it. *)
Lemma splitlines_from_head (cur s : string) :
  cur ≠ "" → ∃ x more, splitlines_from false cur s = (String.rev cur +:+ x) :: more.
Proof.
  revert cur. induction s as [|c s IH]; intros cur Hcur; simpl.
  - destruct cur; [done|]. exists "", []. f_equal.
    unfold String.rev. by rewrite rev_app_append.
  - rewrite andb_false_r. destruct (is_linebreak c).
    + exists "", (splitlines_from (Nat.eqb (nat_of_ascii c) 13) "" s). f_equal.
      unfold String.rev. by rewrite rev_app_append.
    + destruct (IH (String c cur)) as (x & more & ->); [done|].
      exists (String c x), more. f_equal.
      unfold String.rev. by rewrite !rev_app_append.
Qed.

Lemma source_line_unknown depth h :
  source_line_from depth h None None = Ok ("<unknown>", 0%Z).
Proof. by destruct depth. Qed.

(** The parameter of the example renders with an unescaped pipe. *)
Lemma param_pipe_not_escaped :
  get_types (JSArgument_init example_param) = "Array|null"
  ∧ get_types (JSArgument_init example_param) ≠ "Array\|null"
  ∧ JSArgument_run [] (JSArgument_init example_param) 3
    = Ok [("   :param Array|null values: the values to draw", "<unknown>:0:<autojsdoc>")]
  ∧ contains "Array\|null" "   :param Array|null values: the values to draw" = false.
Proof. repeat split; try reflexivity. vm_compute. discriminate. Qed.

(** C8 (as the code has it).  For a parameter whose type sub-record holds
    the names [Array] and [null], the rendered types are the literal text
    [Array|null]: the names joined with a pipe, which is not escaped (only
    backslashes are doubled).  The parameter field is the line
    [:param Array|null <name>: <description>], and the first line appended
    to the content begins with [:param Array|null] after the indentation. *)
Theorem param_types_pipe_joined (p : Param) (h : Heap) (indent : nat) :
  p_type_names p = Some ["Array"; "null"] →
  get_types (JSArgument_init p) = "Array|null"
  ∧ JSArgument_run h (JSArgument_init p) indent
    = append h (JSArgument_init p)
        (":param Array|null " +:+ fmt_s (p_name p) +:+ ": "
         +:+ normalize_space (default "" (p_description p))) indent
  ∧ ∃ rest_of_line more,
      JSArgument_run h (JSArgument_init p) indent
      = Ok ((spaces indent +:+ ":param Array|null " +:+ rest_of_line,
             "<unknown>:0:<autojsdoc>") :: more).
Proof.
  intros Htypes.
  assert (get_types (JSArgument_init p) = "Array|null") as Hget.
  { unfold get_types, JSArgument_init. simpl. by rewrite Htypes. }
  split; [done|].
  assert (JSArgument_run h (JSArgument_init p) indent
          = append h (JSArgument_init p)
              (":param Array|null " +:+ fmt_s (p_name p) +:+ ": "
               +:+ normalize_space (default "" (p_description p))) indent) as Hrun.
  { unfold JSArgument_run. by rewrite Hget. }
  split; [done|].
  rewrite Hrun. unfold append, get_source_line, Obj_splitlines, splitlines.
  simpl. rewrite source_line_unknown. simpl.
  match goal with
  | |- context [splitlines_from false ?cur ?s] =>
      destruct (splitlines_from_head cur s) as (x & more & ->); [done|]
  end.
  exists x, ((λ line, (line, "<unknown>:0:<autojsdoc>"))
               <$> ((λ s, spaces indent +:+ s) <$> more)).
  reflexivity.
Qed.

(** ** Sorting by longname *)

Lemma insert_by_longname_perm x l : insert_by_longname x l ≡ₚ x :: l.
Proof.
  induction l as [|y l IH]; simpl; [done|].
  destruct (String.leb _ _); [done|].
  rewrite IH. apply Permutation_swap.
Qed.

Lemma sorted_by_longname_perm l : sorted_by_longname l ≡ₚ l.
Proof.
  induction l as [|x l IH]; simpl; [done|].
  by rewrite insert_by_longname_perm, IH.
Qed.

Lemma longname_le_total x y : longname_le x y ∨ longname_le y x.
Proof.
  unfold longname_le.
  destruct (total String.le (longname (snd x)) (longname (snd y))); auto.
Qed.

Lemma longname_le_trans x y z : longname_le x y → longname_le y z → longname_le x z.
Proof. unfold longname_le. intros Hxy Hyz. by etrans. Qed.

Lemma insert_by_longname_sorted x l :
  StronglySorted longname_le l → StronglySorted longname_le (insert_by_longname x l).
Proof.
  induction 1 as [|y l Hl IH Hy]; simpl.
  - repeat constructor.
  - destruct (String.leb (longname (snd x)) (longname (snd y))) eqn:Hle.
    + assert (longname_le x y) as Hxy by (unfold longname_le, String.le; by rewrite Hle).
      constructor; [by constructor|].
      constructor; [done|].
      eapply Forall_impl; [exact Hy|]. intros z Hyz. by eapply longname_le_trans.
    + assert (longname_le y x) as Hyx.
      { destruct (longname_le_total x y) as [Hxy|]; [|done].
        unfold longname_le, String.le in Hxy. by rewrite Hle in Hxy. }
      constructor; [done|].
      rewrite insert_by_longname_perm. by constructor.
Qed.

Lemma sorted_by_longname_sorted l : StronglySorted longname_le (sorted_by_longname l).
Proof.
  induction l as [|x l IH]; simpl; [constructor|by apply insert_by_longname_sorted].
Qed.

(** Two sorted lists of the same doclets, no two of which share a longname,
    are the same list. *)
Lemma sorted_by_longname_unique l1 l2 :
  NoDup ((longname ∘ snd) <$> l1) → l1 ≡ₚ l2 →
  sorted_by_longname l1 = sorted_by_longname l2.
Proof.
  intros Hnodup Hperm.
  apply (StronglySorted_unique_strong longname_le).
  - intros x y Hx Hy Hxy Hyx.
    rewrite sorted_by_longname_perm in Hx. rewrite sorted_by_longname_perm, <- Hperm in Hy.
    assert (longname (snd x) = longname (snd y)) as Heq.
    { apply (anti_symm String.le); done. }
    apply list_elem_of_lookup in Hx as [i Hi]. apply list_elem_of_lookup in Hy as [j Hj].
    assert (i = j) as ->; [|congruence].
    eapply (NoDup_lookup _ _ _ (longname (snd x)) Hnodup).
    + by rewrite list_lookup_fmap, Hi.
    + rewrite list_lookup_fmap, Hj. simpl. by rewrite Heq.
  - apply sorted_by_longname_sorted.
  - apply sorted_by_longname_sorted.
  - by rewrite !sorted_by_longname_perm.
Qed.

(** ** The selection *)

Section SelectionProperties.

Context {Pattern : Type}.
Variable re_compile : string → option Pattern.
Variable re_search : Pattern → string → bool.
Variable run_doclet : State → oid → nat → Result (list Line).

Lemma grep_Ok h objtype rex seen ds ms :
  grep re_search h objtype rex seen ds = Ok ms →
  ms = matching re_search h objtype rex seen ds.
Proof.
  revert ms. induction ds as [|i ds IH]; intros ms Hgrep; simpl in Hgrep.
  - by injection Hgrep as <-.
  - apply bind_Ok in Hgrep as (d & Hd%deref_Ok & Hgrep).
    apply bind_Ok in Hgrep as (tl & Htl & Hgrep).
    rewrite (IH tl Htl) in Hgrep.
    change (String.eqb (kind d) objtype && re_search rex (longname d)
            && bool_decide (longname d ∉ seen))
      with (selects re_search objtype rex seen (i, d)) in Hgrep.
    unfold matching. simpl. rewrite Hd. simpl. rewrite filter_cons.
    destruct (decide (selects re_search objtype rex seen (i, d) = true)) as [Hsel|Hsel].
    + rewrite Hsel in Hgrep. by injection Hgrep as <-.
    + apply not_true_is_false in Hsel. rewrite Hsel in Hgrep. by injection Hgrep as <-.
Qed.

Lemma matching_elem h objtype rex seen ds x :
  x ∈ matching re_search h objtype rex seen ds ↔
  fst x ∈ ds ∧ h !! fst x = Some (snd x) ∧ selects re_search objtype rex seen x = true.
Proof.
  unfold matching. rewrite list_elem_of_filter, list_elem_of_omap. split.
  - intros (Hsel & i & Hi & Hx). destruct (h !! i) as [d|] eqn:Hd; [|done].
    simpl in Hx. injection Hx as <-. done.
  - intros (Hi & Hx & Hsel). split; [done|]. exists (fst x). split; [done|].
    rewrite Hx. by destruct x.
Qed.

Lemma matching_longnames h objtype rex seen ds :
  (longname ∘ snd) <$> matching re_search h objtype rex seen ds
  `sublist_of` longname <$> doclets_at h ds.
Proof.
  unfold matching, doclets_at.
  etrans; [apply fmap_sublist, sublist_filter|].
  induction ds as [|i ds IH]; simpl; [done|].
  destruct (h !! i); simpl; [by constructor|done].
Qed.

Lemma matching_perm h objtype rex seen ds ds' :
  ds ≡ₚ ds' →
  matching re_search h objtype rex seen ds ≡ₚ matching re_search h objtype rex seen ds'.
Proof. intros Hperm. unfold matching. by rewrite Hperm. Qed.

End SelectionProperties.

Lemma doclets_at_app h ids1 ids2 :
  doclets_at h (ids1 ++ ids2) = doclets_at h ids1 ++ doclets_at h ids2.
Proof. unfold doclets_at. apply omap_app. Qed.

Lemma doclets_at_pairs (h : Heap) (l : list (oid * Doclet)) :
  (∀ x, x ∈ l → h !! fst x = Some (snd x)) → doclets_at h (fst <$> l) = snd <$> l.
Proof.
  induction l as [|x l IH]; intros Hl; [done|].
  rewrite fmap_cons, doclets_at_cons, (Hl x) by left.
  rewrite IH; [done|]. intros y Hy. apply Hl. by right.
Qed.

Lemma doclets_at_length_le h ids : (length (doclets_at h ids) ≤ length ids)%nat.
Proof.
  induction ids as [|i ids IH]; [done|].
  rewrite doclets_at_cons. destruct (h !! i); simpl; lia.
Qed.



Section RunProperties.

Context {Pattern : Type}.
Variable re_compile : string → option Pattern.
Variable re_search : Pattern → string → bool.
Variable run_doclet : State → oid → nat → Result (list Line).

Lemma render_loop σ out l out' :
  for_each (render_step run_doclet σ) out l = Ok out' →
  rendered out' = rendered out ++ (fst <$> l)
  ∧ visited out' = visited out ∪ list_to_set ((longname ∘ snd) <$> l)
  ∧ ∃ rendering,
      Forall2 (λ x ls, run_doclet σ (fst x) 0 = Ok ls) l rendering
      ∧ content out' = content out ++ concat rendering.
Proof.
  revert out. induction l as [|x l IH]; intros out Hrun; simpl in Hrun.
  - injection Hrun as <-. rewrite !app_nil_r. split; [done|].
    split; [simpl; by rewrite (right_id_L ∅ (∪))|].
    exists []. split; [constructor|]. by rewrite app_nil_r.
  - apply bind_Ok in Hrun as (out1 & Hstep & Hrun).
    unfold render_step in Hstep. apply bind_Ok in Hstep as (ls & Hls & Hstep).
    injection Hstep as <-.
    destruct (IH _ Hrun) as (Hrendered & Hvisited & rendering & Hall & Hcontent).
    simpl in *. split; [by rewrite Hrendered, <- app_assoc|].
    split; [rewrite Hvisited; simpl; by rewrite (assoc_L (∪))|].
    exists (ls :: rendering). split; [by constructor|].
    by rewrite Hcontent, <- app_assoc.
Qed.

Lemma run_argument_batch σ objtype out argument out' :
  run_argument re_compile re_search run_doclet σ objtype out argument = Ok out' →
  ∃ rex, re_compile argument = Some rex
    ∧ for_each (render_step run_doclet σ) out
        (sorted_by_longname
           (matching re_search (heap σ) objtype rex (visited out) (doclets σ)))
      = Ok out'.
Proof.
  unfold run_argument. intros (rex & Hrex & Hrun)%bind_Ok.
  destruct (re_compile argument) as [rex'|]; [|done]. injection Hrex as ->.
  apply bind_Ok in Hrun as (ms & Hms%grep_Ok & Hrun). subst ms. eauto.
Qed.

(** What holds of the output between two arguments: the visited set is the
    set of the longnames rendered so far, and none was rendered twice. *)
Lemma run_argument_once σ objtype out argument out' :
  distinct_longnames (heap σ) (doclets σ) →
  run_argument re_compile re_search run_doclet σ objtype out argument = Ok out' →
  distinct_longnames (heap σ) (rendered out) →
  (∀ ln, ln ∈ visited out ↔ ln ∈ longname <$> doclets_at (heap σ) (rendered out)) →
  distinct_longnames (heap σ) (rendered out')
  ∧ (∀ ln, ln ∈ visited out' ↔ ln ∈ longname <$> doclets_at (heap σ) (rendered out')).
Proof.
  intros [_ Hdoclets] (rex & _ & Hloop)%run_argument_batch [Hlive Hnodup] Hvisited.
  apply render_loop in Hloop as (Hrendered & Hvisited' & _).
  set (ms := matching re_search (heap σ) objtype rex (visited out) (doclets σ)) in *.
  set (batch := sorted_by_longname ms) in *.
  assert (batch ≡ₚ ms) as Hperm by apply sorted_by_longname_perm.
  assert (doclets_at (heap σ) (fst <$> batch) = snd <$> batch) as Hderef.
  { apply doclets_at_pairs. intros x Hx. rewrite Hperm in Hx.
    by apply matching_elem in Hx as (_ & ? & _). }
  assert (longname <$> doclets_at (heap σ) (rendered out')
          = (longname <$> doclets_at (heap σ) (rendered out))
            ++ ((longname ∘ snd) <$> batch)) as Hlongnames.
  { by rewrite Hrendered, doclets_at_app, Hderef, fmap_app, <- list_fmap_compose. }
  split; [split|].
  - rewrite Hrendered, doclets_at_app, Hderef, !length_app, !length_fmap. lia.
  - rewrite Hlongnames. apply NoDup_app. split; [done|]. split.
    + intros ln Hln (x & -> & Hx)%list_elem_of_fmap.
      rewrite Hperm in Hx. apply matching_elem in Hx as (_ & _ & Hsel).
      unfold selects in Hsel. apply andb_true_iff in Hsel as [_ Hnew].
      apply bool_decide_eq_true in Hnew. apply Hnew. by apply Hvisited.
    + rewrite Hperm. eapply sublist_NoDup; [exact Hdoclets|].
      apply matching_longnames.
  - intros ln. rewrite Hlongnames, Hvisited', elem_of_union, elem_of_app.
    rewrite elem_of_list_to_set, Hvisited. done.
Qed.



End RunProperties.

Lemma later_cache_distinct w w' :
  later w w' → cache_distinct w → cache_distinct w'.
Proof.
  intros Hlater Hw.
  induction Hlater as [|w' sj Hw' IH|w' fs Hw' IH]; simpl; [done| |exact IH].
  intros sj' s Hs.
  destruct (loaded_structure_files w' !! sj) as [s0|] eqn:Hcached.
  - rewrite (load_structure_hit _ _ _ Hcached) in Hs. by eapply IH.
  - destruct (load_structure_miss w' sj Hcached)
      as [(e & Heq)|[(e & Heq)|(ds & σ & merged & _ & Hmerge & Heq)]];
      rewrite Heq in Hs; simpl in Hs; [by eapply IH|by eapply IH|].
    destruct (decide (sj = sj')) as [->|Hne].
    + rewrite lookup_insert_eq in Hs. injection Hs as <-. simpl.
      by eapply merge_doclets_distinct.
    + rewrite lookup_insert_ne in Hs by done. by eapply IH.
Qed.

Lemma reachable_cache_distinct w : reachable w → cache_distinct w.
Proof.
  intros (fs & log & Hlater). apply (later_cache_distinct _ _ Hlater).
  intros sj s Hs. simpl in Hs. by rewrite lookup_empty in Hs.
Qed.

(** The doclets that a request hands to the directive have distinct
    longnames. *)
Lemma load_structure_distinct w structure_json w' σ :
  reachable w → load_structure w structure_json = (w', Ok σ) →
  distinct_longnames (heap σ) (doclets σ).
Proof.
  intros Hw Hload.
  destruct (loaded_structure_files w !! structure_json) as [s|] eqn:Hcached.
  - rewrite (load_structure_hit _ _ _ Hcached) in Hload. injection Hload as _ <-.
    simpl. by eapply reachable_cache_distinct.
  - destruct (load_structure_miss w structure_json Hcached)
      as [(e & Heq)|[(e & Heq)|(ds & σ1 & merged & _ & Hmerge & Heq)]];
      rewrite Heq in Hload; [done|done|].
    injection Hload as _ <-. simpl. by eapply merge_doclets_distinct.
Qed.

Section RunTheorems.

Context {Pattern : Type}.
Variable re_compile : string → option Pattern.
Variable re_search : Pattern → string → bool.
Variable run_doclet : State → oid → nat → Result (list Line).

Lemma run_Ok w self_name structure_json arguments w' σ out :
  run re_compile re_search run_doclet w self_name structure_json arguments
    = (w', Ok (σ, out)) →
  load_structure w structure_json = (w', Ok σ)
  ∧ run_arguments re_compile re_search run_doclet σ (strip_directive self_name) arguments
    = Ok out.
Proof.
  unfold run. destruct (load_structure w structure_json) as [w1 [σ1|e]]; simpl.
  - intros [= <- Hrun]. apply bind_Ok in Hrun as (out1 & Hout & Hret).
    by injection Hret as <- <-.
  - intros [= _ ?].
Qed.


(** C7.  For one pattern argument, the doclets rendered are those that
    match (kind, pattern, not yet visited), in ascending order of their
    longnames; the content grows by their renderings in that order; and the
    batch is the same for every order of [self.doclets]. *)
Theorem run_argument_sorted σ objtype out argument out' :
  run_argument re_compile re_search run_doclet σ objtype out argument = Ok out' →
  ∃ rex batch,
    re_compile argument = Some rex
    ∧ rendered out' = rendered out ++ (fst <$> batch)
    ∧ batch ≡ₚ matching re_search (heap σ) objtype rex (visited out) (doclets σ)
    ∧ StronglySorted longname_le batch
    ∧ (∃ rendering,
         Forall2 (λ x ls, run_doclet σ (fst x) 0 = Ok ls) batch rendering
         ∧ content out' = content out ++ concat rendering)
    ∧ (distinct_longnames (heap σ) (doclets σ) →
       ∀ ds, ds ≡ₚ doclets σ →
             sorted_by_longname
               (matching re_search (heap σ) objtype rex (visited out) ds) = batch).
Proof.
  intros (rex & Hrex & Hloop)%run_argument_batch.
  apply render_loop in Hloop as (Hrendered & _ & Hcontent).
  exists rex, (sorted_by_longname
                 (matching re_search (heap σ) objtype rex (visited out) (doclets σ))).
  split; [done|]. split; [done|].
  split; [apply sorted_by_longname_perm|].
  split; [apply sorted_by_longname_sorted|].
  split; [done|].
  intros [_ Hnodup] ds Hperm. apply sorted_by_longname_unique.
  - eapply sublist_NoDup; [|apply matching_longnames].
    unfold doclets_at. by rewrite Hperm.
  - by apply matching_perm.
Qed.

End RunTheorems.

Lemma selection_process_reachable : reachable selection_process.
Proof. exists {[ "structure.json" := selection_records ]}, []. constructor. Qed.



(** The functions [b] and [a] of the example file both match [.*]; [a] is
    rendered first.  A witness for C7. *)
Lemma run_argument_sorted_witness :
  match run_argument literal_compile literal_search declaration_line selection_state
                     "function" nothing_rendered ".*" with
  | Ok out' =>
      (∃ batch, rendered out' = fst <$> batch ∧ StronglySorted longname_le batch)
      ∧ rendered out' = [2; 0]
      ∧ content out' = [(".. js:function:: a", ""); (".. js:function:: b", "")]
  | Raise _ => False
  end.
Proof.
  destruct (run_argument literal_compile literal_search declaration_line selection_state
                         "function" nothing_rendered ".*")
    as [out'|e] eqn:Hrun; [|vm_compute in Hrun; discriminate].
  destruct (run_argument_sorted literal_compile literal_search declaration_line
              selection_state "function" nothing_rendered ".*" out' Hrun)
    as (rex & batch & _ & Hrendered & _ & Hsorted & _).
  split; [by exists batch|].
  vm_compute in Hrun. by injection Hrun as <-.
Defined.

(** The parameter of the example: a witness for C8. *)
Lemma param_types_pipe_joined_witness :
  get_types (JSArgument_init example_param) = "Array|null"
  ∧ ∃ rest_of_line more,
      JSArgument_run [] (JSArgument_init example_param) 3
      = Ok (("   :param Array|null " +:+ rest_of_line, "<unknown>:0:<autojsdoc>") :: more).
Proof.
  destruct (param_types_pipe_joined example_param [] 3 eq_refl) as (Htypes & _ & Hline).
  split; [done|]. exact Hline.
Defined.

Lemma xref_of_match σ nm i d role :
  xref_match σ nm = Some i → heap σ !! i = Some d → xref_table !! kind d = Some role →
  xref σ nm = Ok (xref_token role nm).
Proof.
  unfold xref_match. intros Hmatch. apply xref_of_kind.
  destruct (longnames σ !! nm); [congruence|done].
Qed.

(** What [JSSee.run] does with the indexes it is given: a link that
    contains [://] is rendered as it is, whatever the indexes hold; a link
    without [://] that matches a doclet of the indexes whose kind has a
    cross-reference category is rendered as the token of that category. *)
Lemma JSSee_run_resolves σ self indent :
  (contains "://" (link self) = true →
   JSSee_run σ self indent
   = (ls ← append (heap σ) self (see_text self (link self)) indent; mret (ls ++ nl)))
  ∧ (∀ i d role,
       contains "://" (link self) = false →
       xref_match σ (link self) = Some i → heap σ !! i = Some d →
       xref_table !! kind d = Some role →
       JSSee_run σ self indent
       = (ls ← append (heap σ) self
                  (see_text self (xref_token role (link self))) indent;
          mret (ls ++ nl))).
Proof.
  unfold JSSee_run, see_text. split.
  - by intros ->.
  - intros i d role -> Hmatch Hd Hrole. simpl.
    by rewrite (xref_of_match _ _ _ _ _ Hmatch Hd Hrole).
Qed.

(** The two "see" references of the example, rendered with the indexes
    that the merge pass has filled on the directive when it returns. *)
Lemma JSSee_run_resolves_example :
  match example_merge with
  | Ok (σ', _) =>
      JSSee_run σ' example_see_uri 0
      = Ok [("See: https://example.com/x the manual", "/src/widget.js:12:<autojsdoc>");
            ("", "")]
      ∧ JSSee_run σ' example_see_class 0
        = Ok [("See: :js:class:`Widget` the base class", "/src/widget.js:13:<autojsdoc>");
              ("", "")]
  | Raise _ => False
  end.
Proof.
  example_merge_result σ' merged ns lns Hrun.
  vm_compute in Hrun. injection Hrun as <- _ _ _.
  split.
  - rewrite (proj1 (JSSee_run_resolves _ example_see_uri 0)); reflexivity.
  - erewrite (proj2 (JSSee_run_resolves _ example_see_class 0) 0 _ "js:class"); reflexivity.
Qed.




(** ** The merge pass returns *)

Lemma for_each_returns {S A : Type} (body : S → A → Result S) (J : S → Prop) (l : list A) :
  (∀ s x, J s → x ∈ l → ∃ s', body s x = Ok s' ∧ J s') →
  ∀ s, J s → ∃ s', for_each body s l = Ok s' ∧ J s'.
Proof.
  induction l as [|x l IH]; intros Hbody s Hs; simpl; [eauto|].
  destruct (Hbody s x Hs) as (s1 & -> & Hs1); [left|]. simpl.
  apply IH; [|done]. intros s2 y Hs2 Hy. apply Hbody; [done|by right].
Qed.

Lemma mapM_returns {A B : Type} (f : A → Result B) (l : list A) :
  (∀ x, ∃ y, f x = Ok y) → ∃ k, mapM f l = Ok k.
Proof.
  intros Hf. induction l as [|x l [k IH]]; simpl; [eauto|].
  destruct (Hf x) as [y ->]. simpl. rewrite IH. simpl. eauto.
Qed.

Lemma mapM_getattr {A B : Type} (attr : string) (f : A → option B) (l : list A) :
  (∃ k, mapM (λ x, getattr attr (f x)) l = Ok k)
  ∨ mapM (λ x, getattr attr (f x)) l = Raise (AttributeError attr).
Proof.
  induction l as [|x l [[k IH]|IH]]; simpl; [eauto| |].
  - destruct (f x); simpl; [|by right]. rewrite IH. simpl. eauto.
  - destruct (f x); simpl; [|by right]. rewrite IH. by right.
Qed.

(** [check_params] never raises: it warns only about a doclet with a
    [meta], whose location needs no ancestor. *)
Lemma check_params_returns h doclet : ∃ ws, check_params h doclet = Ok ws.
Proof.
  unfold check_params. destruct (undocumented doclet); [eauto|].
  destruct (params doclet) as [ps|]; simpl; [|eauto].
  destruct (mapM_getattr "name" p_name ps) as [[param_names ->]| ->]; simpl; [|eauto].
  destruct (meta doclet) as [m|] eqn:Hmeta; simpl; [|eauto].
  destruct (code m) as [c|]; simpl; [|eauto].
  destruct (paramnames c) as [meta_param_names|]; simpl; [|eauto].
  assert (∀ text, ∃ e, warn h doclet text = Ok e) as Hwarn.
  { intros text. unfold warn, get_source_line. simpl. rewrite Hmeta.
    destruct (recursion_limit h); simpl; eauto. }
  destruct (mapM_returns
              (λ n, warn h doclet
                      ("Documented parameter " +:+ n +:+ " not found on signature"))
              (list_difference (remove_dups param_names) (remove_dups meta_param_names)))
    as [w1 ->]; [intros n; apply Hwarn|]. simpl.
  destruct (mapM_returns
              (λ n, warn h doclet ("Undocumented parameter " +:+ n))
              (list_difference (remove_dups meta_param_names) (remove_dups param_names)))
    as [w2 ->]; [intros n; apply Hwarn|]. simpl. eauto.
Qed.

Lemma merge_step_returns (n : nat) σ merged i :
  length (heap σ) = n → Forall complete (heap σ) →
  (∀ ln j, longnames σ !! ln = Some j → j < n) → i < n →
  ∃ σ' merged',
    merge_step (σ, merged) i = Ok (σ', merged')
    ∧ length (heap σ') = n ∧ Forall complete (heap σ')
    ∧ (∀ ln j, longnames σ' !! ln = Some j → j < n).
Proof.
  intros Hlen Hcomplete Hindex Hi. unfold merge_step.
  destruct (lookup_lt_is_Some_2 (heap σ) i) as [doclet Hdoclet]; [lia|].
  rewrite (proj2 (deref_Ok _ _ _) Hdoclet). simpl.
  destruct (longnames σ !! longname doclet) as [j|] eqn:Hlookup.
  - rewrite (setdefault_Some _ _ _ _ Hlookup).
    destruct (Nat.eqb i j).
    + destruct (check_params_returns (heap σ) doclet) as [ws ->]. simpl.
      eexists _, _. split; [done|]. simpl. done.
    + pose proof (Hindex _ _ Hlookup) as Hj.
      destruct (lookup_lt_is_Some_2 (heap σ) j) as [last_doclet Hlast]; [lia|].
      rewrite (proj2 (deref_Ok _ _ _) Hlast). simpl.
      rewrite Forall_forall in Hcomplete.
      destruct (Hcomplete last_doclet) as [[c1 ->] _];
        [by eapply list_elem_of_lookup_2|].
      destruct (Hcomplete doclet) as [[c2 ->] [m ->]];
        [by eapply list_elem_of_lookup_2|]. simpl.
      eexists _, _. split; [done|]. simpl.
      split; [by rewrite length_insert|]. split; [|done].
      apply Forall_insert; [by apply Forall_forall|].
      split; simpl; eauto.
  - rewrite (setdefault_None _ _ _ Hlookup), Nat.eqb_refl.
    destruct (check_params_returns (heap σ) doclet) as [ws ->]. simpl.
    eexists _, _. split; [done|]. simpl. split; [done|]. split; [done|].
    intros ln j. destruct (decide (longname doclet = ln)) as [<-|Hne].
    + rewrite lookup_insert_eq. by intros [= <-].
    + rewrite lookup_insert_ne by done. apply Hindex.
Qed.

Lemma forest_step_returns (n : nat) σ i :
  length (heap σ) = n → Forall (λ d, is_Some (meta d)) (heap σ) → i < n →
  ∃ σ', forest_step σ i = Ok σ'
        ∧ length (heap σ') = n ∧ Forall (λ d, is_Some (meta d)) (heap σ')
        ∧ longnames σ' = longnames σ.
Proof.
  intros Hlen Hmeta Hi. unfold forest_step.
  destruct (lookup_lt_is_Some_2 (heap σ) i) as [o Ho]; [lia|].
  rewrite (proj2 (deref_Ok _ _ _) Ho). simpl.
  destruct (memberof o) as [target|]; [|eauto].
  destruct (longnames σ !! target) as [p|].
  - eexists. split; [done|]. simpl. rewrite !length_alter. split; [done|].
    split; [|done].
    apply Forall_alter; [apply Forall_alter; [done|]|]; by intros x _ Hx.
  - destruct (doc o); [|eauto].
    rewrite Forall_forall in Hmeta.
    destruct (Hmeta o) as [m Hm]; [by eapply list_elem_of_lookup_2|].
    unfold error, get_source_line. simpl. rewrite Hm.
    destruct (recursion_limit (heap σ)); simpl;
      (eexists; split; [done|]; simpl; split; [done|]; split; [by apply Forall_forall|done]).
Qed.

(** On records that carry a comment and a [meta] both passes run to their
    end. *)
Lemma merge_doclets_returns ds log :
  Forall complete ds → ∃ r, merge_doclets (initial_state ds log) (seq 0 (length ds)) = Ok r.
Proof.
  intros Hcomplete. unfold merge_doclets.
  destruct (for_each_returns merge_step
              (λ acc : State * list oid,
                 length (heap (fst acc)) = length ds
                 ∧ Forall complete (heap (fst acc))
                 ∧ (∀ ln j, longnames (fst acc) !! ln = Some j → j < length ds)
                 ∧ Forall (λ j, j < length ds) (snd acc))
              (seq 0 (length ds))) with (s := (initial_state ds log, @nil oid))
    as ([σ1 merged] & -> & Hlen & Hcomplete1 & _ & Hmerged).
  - intros [σ merged] i (Hlen & Hc & Hindex & Hmerged) Hi%elem_of_seq. simpl in *.
    destruct (merge_step_returns (length ds) σ merged i) as (σ' & merged' & Hstep & ? & ? & ?);
      [done|done|done|lia|].
    exists (σ', merged'). split; [done|]. simpl. repeat split; try done.
    unfold merge_step in Hstep.
    apply bind_Ok in Hstep as (doclet & _ & Hstep).
    destruct (setdefault _ _ _) as [last lns]. destruct (Nat.eqb i last).
    + inv_Ok. subst. apply Forall_app. split; [done|]. repeat constructor. lia.
    + inv_Ok. by subst.
  - simpl. repeat split; done.
  - simpl.
    destruct (for_each_returns forest_step
                (λ σ, length (heap σ) = length ds ∧ Forall (λ d, is_Some (meta d)) (heap σ))
                merged) with (s := σ1) as (σ2 & Hforest & _).
    + intros σ i [Hl Hm] Hi.
      rewrite Forall_forall in Hmerged.
      destruct (forest_step_returns (length ds) σ i) as (σ' & -> & ? & ? & _);
        [done|done|by apply Hmerged|]. eauto.
    + split; [done|]. eapply Forall_impl; [exact Hcomplete1|]. by intros d [_ ?].
    + unfold make_forest. rewrite Hforest. simpl. eauto.
Qed.

(** * Further properties *)

(** ** The merge pass in detail *)

Lemma string_app_nil_r (s : string) : s +:+ "" = s.
Proof.
  induction s as [|c s IH]; [done|].
  change (String c (s +:+ "") = String c s). by rewrite IH.
Qed.

Lemma string_app_assoc (s1 s2 s3 : string) : (s1 +:+ s2) +:+ s3 = s1 +:+ (s2 +:+ s3).
Proof.
  induction s1 as [|c s1 IH]; [done|].
  change (String c ((s1 +:+ s2) +:+ s3) = String c (s1 +:+ (s2 +:+ s3))). by rewrite IH.
Qed.

Lemma concat_strings_snoc (l : list string) (s : string) :
  concat_strings (l ++ [s]) = concat_strings l +:+ s.
Proof.
  induction l as [|x l IH].
  - cbn. by rewrite string_app_nil_r.
  - change (x +:+ concat_strings (l ++ [s]) = (x +:+ concat_strings l) +:+ s).
    by rewrite IH, string_app_assoc.
Qed.

Lemma joined_comments_snoc (l : list Doclet) (x : Doclet) :
  l ≠ [] →
  joined_comments (l ++ [x]) = (c1 ← joined_comments l; c2 ← comment x; Some (c1 +:+ c2)).
Proof.
  destruct l as [|r rest]; [done|]. intros _. simpl. by rewrite foldl_app.
Qed.

Lemma merge_step_merged σ merged i σ' merged' :
  merge_step (σ, merged) i = Ok (σ', merged') →
  merged' = merged ∨ merged' = merged ++ [i].
Proof.
  unfold merge_step. intros (doclet & _ & Hstep)%bind_Ok.
  destruct (setdefault _ _ _) as [last lns]. destruct (Nat.eqb i last).
  - inv_Ok. subst. by right.
  - inv_Ok. subst. by left.
Qed.

Lemma merge_detail_init ds log : merge_detail ds 0 (initial_state ds log) [].
Proof.
  split; simpl.
  - intros n. by rewrite lookup_empty.
  - constructor.
  - intros i d r Hi. by apply elem_of_nil in Hi.
Qed.

Lemma sharing_first_seen ds k i r :
  ds !! i = Some r → first_with (longname r) (take k ds) = Some i →
  ∃ rest, sharing (longname r) (take k ds) = r :: rest.
Proof.
  intros Hr (r' & Hr' & _ & Hbefore)%first_with_Some.
  pose proof Hr' as Hlt%lookup_lt_Some.
  apply lookup_take_Some in Hr' as [Hr' Hik].
  assert (r' = r) as -> by congruence.
  assert (take k ds = take i (take k ds) ++ r :: drop (S i) (take k ds)) as Hsplit.
  { symmetry. apply take_drop_middle. by apply lookup_take_Some. }
  rewrite Hsplit. unfold sharing. rewrite filter_app, filter_cons, decide_True by done.
  assert (filter (λ d, longname d = longname r) (take i (take k ds)) = []) as ->.
  { apply sharing_nil_first_with. apply first_with_None. apply Forall_forall.
    intros d Hd. apply list_elem_of_lookup in Hd as [j Hj].
    pose proof Hj as Hjlt%lookup_lt_Some. rewrite length_take in Hjlt.
    apply lookup_take_Some in Hj as [Hj _]. apply (Hbefore j d); [done|lia]. }
  simpl. eauto.
Qed.

Lemma merge_step_detail ds k σ merged σ' merged' :
  k < length ds →
  merge_inv ds k σ merged → merge_detail ds k σ merged →
  merge_step (σ, merged) k = Ok (σ', merged') →
  merge_detail ds (S k) σ' merged'.
Proof.
  intros Hk Hinv Hdet Hstep.
  destruct (lookup_lt_is_Some_2 ds k Hk) as [doclet Hdoclet].
  assert (∀ i, i ∈ merged → i < k) as Hbelow.
  { intros i Hin. destruct (merge_inv_registered _ _ _ _ _ Hinv Hin) as (? & _ & _ & ?). lia. }
  assert (k ∉ merged) as Hfresh.
  { intros Hin. apply Hbelow in Hin. lia. }
  assert (heap σ !! k = Some doclet) as Hheap.
  { by rewrite (mi_untouched _ _ _ _ Hinv k Hfresh). }
  assert (take (S k) ds = take k ds ++ [doclet]) as Htake by (by apply take_S_r).
  unfold merge_step in Hstep.
  apply bind_Ok in Hstep as (doclet' & Hd' & Hstep).
  apply deref_Ok in Hd'. rewrite Hheap in Hd'. injection Hd' as <-.
  destruct (longnames σ !! longname doclet) as [j|] eqn:Hlookup.
  - (* a prior record exists for that longname *)
    rewrite (setdefault_Some _ _ _ _ Hlookup) in Hstep.
    assert (j ∈ merged) as Hj by (apply (mi_merged _ _ _ _ Hinv); eauto).
    destruct (merge_inv_registered _ _ _ _ _ Hinv Hj) as (rj & Hrj & Hlnj & Hjk).
    assert (longname rj = longname doclet) as Hsame.
    { rewrite (mi_index _ _ _ _ Hinv) in Hlookup, Hlnj.
      apply first_with_Some in Hlookup as (r1 & Hr1 & Hl1 & _).
      apply lookup_take_Some in Hr1 as [Hr1 _]. congruence. }
    replace (Nat.eqb k j) with false in Hstep by (symmetry; apply Nat.eqb_neq; lia).
    inv_Ok. subst σ' merged'. rename a into last_doclet.
    split; simpl; [apply Hdet|apply Hdet|].
    intros i d r Hi Hd Hr. rewrite Htake, sharing_snoc.
    destruct (decide (j = i)) as [->|Hne].
    + rewrite list_lookup_insert_eq in Hd by (by eapply lookup_lt_Some).
      injection Hd as <-. simpl.
      assert (r = rj) as -> by congruence.
      destruct (md_folded _ _ _ _ Hdet i last_doclet rj Hi Ha Hr)
        as (Hdesc & Hmeta & Hcomment & Hparams & Hignore).
      rewrite decide_True by done.
      destruct (sharing_first_seen ds k i rj Hr) as [rest Hrest].
      { by rewrite <- (mi_index _ _ _ _ Hinv). }
      rewrite fmap_app.
      change (description <$> [doclet]) with [description doclet].
      rewrite concat_strings_snoc, last_snoc, <- Hdesc. simpl.
      rewrite joined_comments_snoc by (by rewrite Hrest).
      rewrite <- Hcomment, Ha0, Ha1. simpl. done.
    + rewrite list_lookup_insert_ne in Hd by done.
      destruct (merge_inv_registered _ _ _ _ _ Hinv Hi) as (ri & Hri & Hlni & _).
      assert (ri = r) as -> by congruence.
      rewrite decide_False, app_nil_r; [by apply (md_folded _ _ _ _ Hdet i d r)|].
      intros Heq. rewrite <- Heq in Hlni. congruence.
  - (* first time seen *)
    rewrite (setdefault_None _ _ _ Hlookup) in Hstep.
    rewrite Nat.eqb_refl in Hstep.
    inv_Ok. subst σ' merged'.
    pose proof Hlookup as Hnone. rewrite (mi_index _ _ _ _ Hinv) in Hnone.
    split; simpl.
    + intros n. rewrite filter_app, filter_cons, filter_nil.
      destruct (decide (has_name ds n k)) as [Hn|Hn].
      * unfold has_name in Hn. rewrite Hdoclet in Hn. injection Hn as <-.
        by rewrite lookup_insert_eq, last_snoc.
      * rewrite app_nil_r, lookup_insert_ne; [apply Hdet|].
        intros <-. apply Hn. unfold has_name. by rewrite Hdoclet.
    + apply StronglySorted_app_2; [|apply Hdet|repeat constructor].
      intros i1 i2 Hi1 ->%list_elem_of_singleton. by apply Hbelow.
    + intros i d r Hi Hd Hr. rewrite Htake, sharing_snoc.
      apply elem_of_app in Hi as [Hi| ->%list_elem_of_singleton].
      * destruct (merge_inv_registered _ _ _ _ _ Hinv Hi) as (ri & Hri & Hlni & _).
        assert (ri = r) as -> by congruence.
        rewrite decide_False, app_nil_r; [by apply (md_folded _ _ _ _ Hdet i d r)|].
        intros Heq. rewrite <- Heq in Hlni. congruence.
      * assert (d = doclet) as -> by congruence.
        assert (r = doclet) as -> by congruence.
        rewrite (sharing_nil_first_with _ _ Hnone), decide_True by done. simpl.
        by rewrite string_app_nil_r.
Qed.

Lemma merge_loop_detail ds log σ merged :
  for_each merge_step (initial_state ds log, []) (seq 0 (length ds)) = Ok (σ, merged) →
  merge_detail ds (length ds) σ merged.
Proof.
  intros Hrun.
  pose (I := λ (pre : list oid) (acc : State * list oid),
               merge_inv ds (length pre) (fst acc) (snd acc)
               ∧ merge_detail ds (length pre) (fst acc) (snd acc)).
  assert (I (seq 0 (length ds)) (σ, merged)) as [_ Hfinal].
  { eapply (for_each_invariant merge_step I); [| |exact Hrun].
    - split; [apply merge_inv_init|apply merge_detail_init].
    - intros pre x post [s m] [s' m'] Hsplit [Hpre Hdet] Hstep. unfold I in *. simpl in *.
      apply seq_split_position in Hsplit as [-> Hlt].
      rewrite length_app. simpl. rewrite Nat.add_1_r.
      split; [by eapply merge_step_inv|by eapply merge_step_detail]. }
  simpl in Hfinal. by rewrite length_seq in Hfinal.
Qed.

Lemma strip_links_more d d' :
  strip_links d = strip_links d' →
  comment d = comment d' ∧ params d = params d' ∧ ignore d = ignore d'.
Proof.
  destruct d, d'. unfold strip_links, set_parent. simpl. intros [=]. by subst.
Qed.

Lemma merge_doclets_detail ds log σ' merged ns lns :
  merge_doclets (initial_state ds log) (seq 0 (length ds)) = Ok (σ', (merged, ns, lns)) →
  ∃ σ1, merge_inv ds (length ds) σ1 merged
        ∧ merge_detail ds (length ds) σ1 merged
        ∧ forest_inv σ1 merged σ'.
Proof.
  unfold merge_doclets. intros ([σ1 merged1] & Hloop & Hrest)%bind_Ok.
  apply bind_Ok in Hrest as (σ2 & Hforest & Hret).
  injection Hret as <- <- <- <-.
  exists σ1. split; [by apply (merge_loop_inv ds log)|].
  split; [by apply (merge_loop_detail ds log)|by apply make_forest_inv].
Qed.

Lemma detail_merge_returns : ∃ r, detail_merge = Ok r.
Proof. vm_compute. eauto. Qed.

Ltac detail_merge_result σ' merged ns lns Hrun :=
  destruct detail_merge as [[σ' [[merged ns] lns]]|?] eqn:Hrun;
  [|destruct detail_merge_returns; congruence].

Lemma seq_strongly_sorted (j n : nat) : StronglySorted lt (seq j n).
Proof.
  revert j. induction n as [|n IH]; intros j; simpl; constructor; [apply IH|].
  apply Forall_forall. intros i Hi%elem_of_seq. lia.
Qed.

Lemma filter_strongly_sorted {A : Type} (R : relation A) (P : A → Prop)
    `{∀ x, Decision (P x)} (l : list A) :
  StronglySorted R l → StronglySorted R (filter P l).
Proof.
  induction 1 as [|x l Hl IH Hx]; [constructor|].
  rewrite filter_cons. destruct (decide (P x)); [|done].
  constructor; [done|]. apply Forall_forall. intros y [_ Hy]%list_elem_of_filter.
  rewrite Forall_forall in Hx. by apply Hx.
Qed.

(** X1.  The list that [merge_doclets] returns holds the first-seen
    records in the order of the input: it is the list of the positions, in
    ascending order, of the records that are the first with their
    longname. *)
Theorem merge_doclets_input_order ds log σ' merged ns lns :
  merge_doclets (initial_state ds log) (seq 0 (length ds)) = Ok (σ', (merged, ns, lns)) →
  merged = filter (is_first_seen ds) (seq 0 (length ds)).
Proof.
  intros (σ1 & Hmerge & Hdetail & _)%merge_doclets_detail.
  apply (StronglySorted_unique_strong lt).
  - intros x y _ _ Hxy Hyx. lia.
  - apply Hdetail.
  - apply filter_strongly_sorted, seq_strongly_sorted.
  - apply NoDup_Permutation; [apply Hmerge| |].
    + apply NoDup_filter, NoDup_seq.
    + intros i. rewrite list_elem_of_filter, elem_of_seq.
      rewrite (mi_merged _ _ _ _ Hmerge). split.
      * intros (ln & Hln). rewrite (mi_index _ _ _ _ Hmerge), firstn_all in Hln.
        pose proof Hln as Hlt%first_with_lt.
        split; [|lia]. apply first_with_Some in Hln as (r & Hr & <- & Hbefore).
        exists r. split; [done|]. apply first_with_Some. eauto.
      * intros [(r & Hr & Hfirst) _]. exists (longname r).
        by rewrite (mi_index _ _ _ _ Hmerge), firstn_all.
Qed.

(** The records of the example, of which the third repeats the longname of
    the first: a witness for X1. *)
Lemma merge_doclets_input_order_witness :
  match detail_merge with
  | Ok (_, (merged, _, _)) => merged = [0; 1]
  | Raise _ => False
  end.
Proof.
  detail_merge_result σ' merged ns lns Hrun.
  rewrite (merge_doclets_input_order detail_records [] σ' merged ns lns Hrun).
  reflexivity.
Defined.

(** X2.  The name index holds, for every short name, the last of the kept
    doclets that carry it: each first-seen record overwrites the entry of
    its short name. *)
Theorem merge_doclets_names_last ds log σ' merged ns lns n :
  merge_doclets (initial_state ds log) (seq 0 (length ds)) = Ok (σ', (merged, ns, lns)) →
  names σ' !! n = last (filter (has_name ds n) merged).
Proof.
  intros (σ1 & _ & Hdetail & Hforest)%merge_doclets_detail.
  rewrite (fi_names _ _ _ Hforest). apply Hdetail.
Qed.

(** Two kept doclets of the example share the short name [draw]; the index
    holds the second.  A witness for X2. *)
Lemma merge_doclets_names_last_witness :
  match detail_merge with
  | Ok (σ', _) => names σ' !! "draw" = Some 1 ∧ longnames σ' !! "draw" = Some 0
  | Raise _ => False
  end.
Proof.
  detail_merge_result σ' merged ns lns Hrun.
  rewrite (merge_doclets_names_last detail_records [] σ' merged ns lns "draw" Hrun).
  vm_compute in Hrun. injection Hrun as <- <- _ _.
  split; reflexivity.
Defined.

Lemma merge_doclets_fold_fields ds log σ' merged ns lns i d :
  merge_doclets (initial_state ds log) (seq 0 (length ds)) = Ok (σ', (merged, ns, lns)) →
  i ∈ merged → heap σ' !! i = Some d →
  description d = concat_strings (description <$> sharing (longname d) ds)
  ∧ comment d = joined_comments (sharing (longname d) ds)
  ∧ meta d = last (sharing (longname d) ds) ≫= meta.
Proof.
  intros Hrun Hi Hd.
  destruct (merge_doclets_kept _ _ _ _ _ _ i Hrun Hi)
    as (r & d' & Hr & Hd' & _ & _ & Hln & _).
  assert (d' = d) as -> by congruence.
  pose proof Hrun as (σ1 & Hmerge & Hdetail & Hforest)%merge_doclets_detail.
  assert (strip_links <$> heap σ' = strip_links <$> heap σ1) as Hrec by apply Hforest.
  destruct (strip_links_lookup _ _ _ _ Hrec Hd) as (d1 & Hd1 & Hsame).
  destruct (md_folded _ _ _ _ Hdetail i d1 r Hi Hd1 Hr) as (Hdesc & Hmeta & Hcomment & _).
  rewrite firstn_all in Hdesc, Hmeta, Hcomment.
  destruct (strip_links_fields _ _ Hsame) as (_ & _ & _ & _ & _ & Hm & Hde).
  destruct (strip_links_more _ _ Hsame) as (Hc & _).
  rewrite Hln, Hde, Hc, Hm. done.
Qed.

(** X3.  A kept doclet carries the descriptions of all the records with
    its longname, concatenated in the order of the input without a
    separator, their comments concatenated likewise, and the [meta] of the
    last of them. *)
Theorem merge_doclets_folds ds log σ' merged ns lns i d :
  merge_doclets (initial_state ds log) (seq 0 (length ds)) = Ok (σ', (merged, ns, lns)) →
  i ∈ merged → heap σ' !! i = Some d →
  description d = concat_strings (description <$> sharing (longname d) ds)
  ∧ comment d = joined_comments (sharing (longname d) ds)
  ∧ meta d = last (sharing (longname d) ds) ≫= meta.
Proof. apply merge_doclets_fold_fields. Qed.

(** The function of the example, documented in its comment block and seen
    again in the code: a witness for X3. *)
Lemma merge_doclets_folds_witness :
  match detail_merge with
  | Ok (σ', _) =>
      ∃ d, heap σ' !! 0 = Some d
           ∧ description d = "Draws the widget.Again."
           ∧ comment d = Some "/** Draws the widget. */"
           ∧ meta d = Some (example_meta 4)
  | Raise _ => False
  end.
Proof.
  detail_merge_result σ' merged ns lns Hrun.
  pose proof Hrun as Hvalue. vm_compute in Hvalue.
  injection Hvalue as Hσ Hmerged _ _.
  assert (0 ∈ merged) as Hin by (rewrite <- Hmerged; apply list_elem_of_here).
  assert (is_Some (heap σ' !! 0)) as [d Hd] by (rewrite <- Hσ; eexists; reflexivity).
  assert (longname d = "draw") as Hln.
  { rewrite <- Hσ in Hd. injection Hd as <-. reflexivity. }
  destruct (merge_doclets_folds detail_records [] σ' merged ns lns 0 d Hrun Hin Hd)
    as (Hdesc & Hcomment & Hmeta).
  rewrite Hln in Hdesc, Hcomment, Hmeta.
  exists d. split; [done|]. rewrite Hdesc, Hcomment, Hmeta. repeat split; reflexivity.
Defined.

(** ** When the merge pass returns *)

Lemma for_each_app {S A : Type} (body : S → A → Result S) (s : S) (l1 l2 : list A) :
  for_each body s (l1 ++ l2) = (s' ← for_each body s l1; for_each body s' l2).
Proof.
  revert s. induction l1 as [|x l1 IH]; intros s; simpl.
  - by destruct (for_each body s l2).
  - destruct (body s x) as [s1|e]; simpl; [apply IH|done].
Qed.

Lemma bind_Ok_l {A B : Type} (a : A) (f : A → Result B) : Ok a ≫= f = f a.
Proof. done. Qed.

Lemma bind_Raise_l {A B : Type} (e : PyErr) (f : A → Result B) : Raise e ≫= f = Raise e.
Proof. done. Qed.

Lemma for_each_cons {S A : Type} (body : S → A → Result S) (s : S) (x : A) (l : list A) :
  for_each body s (x :: l) = (s' ← body s x; for_each body s' l).
Proof. done. Qed.

Lemma merge_prefix_inv ds log k σ merged :
  (k ≤ length ds)%nat →
  for_each merge_step (initial_state ds log, []) (seq 0 k) = Ok (σ, merged) →
  merge_inv ds k σ merged.
Proof.
  intros Hk Hrun.
  pose (I := λ (pre : list oid) (acc : State * list oid),
               merge_inv ds (length pre) (fst acc) (snd acc)).
  assert (I (seq 0 k) (σ, merged)) as Hfinal.
  { eapply (for_each_invariant merge_step I); [| |exact Hrun].
    - apply merge_inv_init.
    - intros pre x post [s m] [s' m'] Hsplit Hpre Hstep. unfold I in *. simpl in *.
      apply seq_split_position in Hsplit as [-> Hlt].
      rewrite length_app. simpl. rewrite Nat.add_1_r.
      eapply merge_step_inv; [lia|done..]. }
  unfold I in Hfinal. simpl in Hfinal. by rewrite length_seq in Hfinal.
Qed.

(** The loop gets through a prefix of complete records. *)
Lemma merge_prefix_returns ds log k :
  (k ≤ length ds)%nat → Forall complete (take k ds) →
  ∃ σ merged, for_each merge_step (initial_state ds log, []) (seq 0 k) = Ok (σ, merged)
              ∧ ∀ j d, j < k → heap σ !! j = Some d → is_Some (comment d).
Proof.
  intros Hk Hcomplete.
  induction k as [|k IH].
  - eexists _, _. split; [done|]. intros j d Hj. lia.
  - destruct (lookup_lt_is_Some_2 ds k ltac:(lia)) as [doclet Hdoclet].
    rewrite (take_S_r ds k doclet Hdoclet) in Hcomplete.
    apply Forall_app in Hcomplete as [Hprefix Hthis].
    destruct IH as (σ & merged & Hrun & Hcomments); [lia|done|].
    pose proof (merge_prefix_inv ds log k σ merged ltac:(lia) Hrun) as Hinv.
    assert (complete doclet) as [[c2 Hc2] [m Hm]] by (by inversion Hthis).
    assert (k ∉ merged) as Hfresh.
    { intros Hin. destruct (merge_inv_registered _ _ _ _ _ Hinv Hin) as (? & _ & _ & ?). lia. }
    assert (heap σ !! k = Some doclet) as Hheap.
    { by rewrite (mi_untouched _ _ _ _ Hinv k Hfresh). }
    assert (∃ σ' merged', merge_step (σ, merged) k = Ok (σ', merged')
              ∧ ∀ j d, j < S k → heap σ' !! j = Some d → is_Some (comment d))
      as (σ' & merged' & Hstep & Hcomments').
    { unfold merge_step. rewrite (proj2 (deref_Ok _ _ _) Hheap). simpl.
      destruct (longnames σ !! longname doclet) as [j|] eqn:Hlookup.
      - rewrite (setdefault_Some _ _ _ _ Hlookup).
        assert (j < k) as Hjk.
        { rewrite (mi_index _ _ _ _ Hinv) in Hlookup.
          apply first_with_lt in Hlookup. rewrite length_take in Hlookup. lia. }
        replace (Nat.eqb k j) with false by (symmetry; apply Nat.eqb_neq; lia).
        destruct (lookup_lt_is_Some_2 (heap σ) j) as [last_doclet Hlast].
        { pose proof (f_equal length (mi_heap_longnames _ _ _ _ Hinv)) as Hlen.
          rewrite !length_fmap in Hlen. lia. }
        rewrite (proj2 (deref_Ok _ _ _) Hlast). simpl.
        destruct (Hcomments j last_doclet Hjk Hlast) as [c1 Hc1].
        rewrite Hc1, Hc2, Hm. simpl. eexists _, _. split; [done|]. simpl.
        intros i d Hi Hd. destruct (decide (j = i)) as [->|Hne].
        + rewrite list_lookup_insert_eq in Hd by (by eapply lookup_lt_Some).
          injection Hd as <-. simpl. eauto.
        + rewrite list_lookup_insert_ne in Hd by done.
          destruct (decide (i = k)) as [->|]; [|apply (Hcomments i d); [lia|done]].
          assert (d = doclet) as -> by congruence. eauto.
      - rewrite (setdefault_None _ _ _ Hlookup), Nat.eqb_refl.
        destruct (check_params_returns (heap σ) doclet) as [ws ->]. simpl.
        eexists _, _. split; [done|]. simpl.
        intros i d Hi Hd.
        destruct (decide (i = k)) as [->|]; [|apply (Hcomments i d); [lia|done]].
        assert (d = doclet) as -> by congruence. eauto. }
    exists σ', merged'. split; [|done].
    rewrite seq_S. change (0 + k) with k. rewrite for_each_snoc.
    apply bind_Ok. by exists (σ, merged).
Qed.

(** X5.  After records that all carry a comment and a [meta], a record
    that repeats a longname seen before and has no [comment] makes
    [merge_doclets] raise [AttributeError] for [comment], and one that has
    a comment but no [meta] makes it raise [AttributeError] for [meta];
    nothing is returned for the file. *)
Theorem merge_doclets_incomplete_duplicate ds log k x j :
  ds !! k = Some x → Forall complete (take k ds) →
  first_with (longname x) (take k ds) = Some j →
  (comment x = None →
   merge_doclets (initial_state ds log) (seq 0 (length ds))
   = Raise (AttributeError "comment"))
  ∧ (is_Some (comment x) → meta x = None →
     merge_doclets (initial_state ds log) (seq 0 (length ds))
     = Raise (AttributeError "meta")).
Proof.
  intros Hx Hcomplete Hfirst.
  pose proof Hx as Hk%lookup_lt_Some.
  destruct (merge_prefix_returns ds log k) as (σ & merged & Hrun & Hcomments);
    [lia|done|].
  pose proof (merge_prefix_inv ds log k σ merged ltac:(lia) Hrun) as Hinv.
  assert (k ∉ merged) as Hfresh.
  { intros Hin. destruct (merge_inv_registered _ _ _ _ _ Hinv Hin) as (? & _ & _ & ?). lia. }
  assert (heap σ !! k = Some x) as Hheap.
  { by rewrite (mi_untouched _ _ _ _ Hinv k Hfresh). }
  assert (longnames σ !! longname x = Some j) as Hlookup.
  { by rewrite (mi_index _ _ _ _ Hinv). }
  assert (j < k) as Hjk.
  { apply first_with_lt in Hfirst. rewrite length_take in Hfirst. lia. }
  destruct (lookup_lt_is_Some_2 (heap σ) j) as [last_doclet Hlast].
  { pose proof (f_equal length (mi_heap_longnames _ _ _ _ Hinv)) as Hlen.
    rewrite !length_fmap in Hlen. lia. }
  destruct (Hcomments j last_doclet Hjk Hlast) as [c1 Hc1].
  assert (seq 0 (length ds) = seq 0 k ++ k :: seq (S k) (length ds - S k)) as Hsplit.
  { replace (length ds) with (k + S (length ds - S k)) at 1 by lia.
    by rewrite seq_app. }
  assert (∀ e, merge_step (σ, merged) k = Raise e →
               merge_doclets (initial_state ds log) (seq 0 (length ds)) = Raise e)
    as Hraise.
  { intros e He. unfold merge_doclets.
    by rewrite Hsplit, for_each_app, Hrun, bind_Ok_l, for_each_cons, He. }
  split.
  - intros Hnone. apply Hraise. unfold merge_step.
    rewrite (proj2 (deref_Ok _ _ _) Hheap). simpl.
    rewrite (setdefault_Some _ _ _ _ Hlookup).
    replace (Nat.eqb k j) with false by (symmetry; apply Nat.eqb_neq; lia).
    rewrite (proj2 (deref_Ok _ _ _) Hlast). simpl. by rewrite Hc1, Hnone.
  - intros [c2 Hc2] Hnone. apply Hraise. unfold merge_step.
    rewrite (proj2 (deref_Ok _ _ _) Hheap). simpl.
    rewrite (setdefault_Some _ _ _ _ Hlookup).
    replace (Nat.eqb k j) with false by (symmetry; apply Nat.eqb_neq; lia).
    rewrite (proj2 (deref_Ok _ _ _) Hlast). simpl. by rewrite Hc1, Hc2, Hnone.
Qed.

(** The example file with a second, uncommented record for [helper]: a
    witness for X5. *)
Lemma merge_doclets_incomplete_duplicate_witness :
  merge_doclets (initial_state incomplete_records []) (seq 0 (length incomplete_records))
  = Raise (AttributeError "comment").
Proof.
  refine (proj1 (merge_doclets_incomplete_duplicate incomplete_records [] 5 _ 3 _ _ _) _);
    try reflexivity.
  vm_compute. repeat constructor; eauto.
Defined.

(** X4.  On records that all carry a comment and a [meta], [merge_doclets]
    returns, and every doclet it keeps has a [meta]: its source location is
    its own and looking it up cannot fail. *)
Theorem merge_doclets_complete ds log :
  Forall complete ds →
  ∃ σ' merged,
    merge_doclets (initial_state ds log) (seq 0 (length ds)) = Ok (σ', (merged, ∅, ∅))
    ∧ ∀ i d, i ∈ merged → heap σ' !! i = Some d →
        ∃ m, meta d = Some m
             ∧ get_source_line (heap σ') d
               = Ok (os_path_join (path m) (filename m), lineno m).
Proof.
  intros Hcomplete.
  destruct (merge_doclets_returns ds log Hcomplete) as [[σ' [[merged ns] lns]] Hrun].
  destruct (merge_doclets_locals _ _ _ _ _ _ Hrun) as [-> ->].
  exists σ', merged. split; [done|].
  intros i d Hi Hd.
  destruct (merge_doclets_fold_fields ds log σ' merged ∅ ∅ i d Hrun Hi Hd) as (_ & _ & Hmeta).
  destruct (merge_doclets_kept _ _ _ _ _ _ i Hrun Hi)
    as (r & d' & Hr & Hd' & _ & _ & Hln & _).
  assert (d' = d) as -> by congruence.
  assert (r ∈ sharing (longname d) ds) as Hin.
  { apply list_elem_of_filter. split; [done|]. by eapply list_elem_of_lookup_2. }
  destruct (last (sharing (longname d) ds)) as [x|] eqn:Hlast.
  - assert (complete x) as [_ [m Hm]].
    { rewrite Forall_forall in Hcomplete. apply Hcomplete.
      apply last_Some_elem_of in Hlast. by apply list_elem_of_filter in Hlast as [_ ?]. }
    exists m. simpl in Hmeta. rewrite Hm in Hmeta. split; [done|].
    unfold get_source_line. simpl. rewrite Hmeta.
    by destruct (recursion_limit (heap σ')).
  - apply last_None in Hlast. rewrite Hlast in Hin. by apply elem_of_nil in Hin.
Qed.

Lemma example_records_complete : Forall complete example_records.
Proof. repeat constructor; eauto. Qed.

(** The example file: a witness for X4. *)
Lemma merge_doclets_complete_witness :
  ∃ σ' merged, example_merge = Ok (σ', (merged, ∅, ∅)).
Proof.
  destruct (merge_doclets_complete example_records [] example_records_complete)
    as (σ' & merged & Hrun & _).
  by exists σ', merged.
Defined.

(** ** The forest *)

Lemma forest_step_children σ0 pre σ i σ' :
  forest_inv σ0 pre σ →
  (∀ p d0 d, heap σ0 !! p = Some d0 → heap σ !! p = Some d →
     children d = children d0 ++ filter (links_to (longnames σ0) (heap σ0) p) pre) →
  forest_step σ i = Ok σ' →
  ∀ p d0 d, heap σ0 !! p = Some d0 → heap σ' !! p = Some d →
    children d = children d0 ++ filter (links_to (longnames σ0) (heap σ0) p) (pre ++ [i]).
Proof.
  intros Hinv Hchildren Hstep p d0 d Hd0 Hd.
  unfold forest_step in Hstep.
  apply bind_Ok in Hstep as (o & Ho%deref_Ok & Hstep).
  destruct (strip_links_lookup _ _ _ _ (fi_records _ _ _ Hinv) Ho) as (o0 & Ho0 & Hsame).
  destruct (strip_links_fields _ _ Hsame) as (_ & _ & _ & Hmo & _).
  rewrite filter_app, filter_cons, filter_nil.
  assert (∀ q, links_to (longnames σ0) (heap σ0) q i ↔ resolve (longnames σ0) o0 = Some q)
    as Hlinks.
  { intros q. unfold links_to. rewrite Ho0. split; [by intros (? & [= <-] & ?)|eauto]. }
  assert (resolve (longnames σ0) o0 = memberof o ≫= λ target, longnames σ !! target)
    as Hresolve.
  { unfold resolve. by rewrite Hmo, (fi_longnames _ _ _ Hinv). }
  destruct (memberof o) as [target|] eqn:Htarget.
  - destruct (longnames σ !! target) as [q|] eqn:Hq.
    + injection Hstep as <-. simpl in Hd. simpl in Hresolve. rewrite Hq in Hresolve.
      rewrite list_lookup_alter in Hd.
      destruct (decide (q = p)) as [->|Hne].
      * rewrite decide_True by (by apply Hlinks).
        destruct (alter (set_parent (Some p)) i (heap σ) !! p) as [d1|] eqn:Hd1; [|done].
        injection Hd as <-. simpl.
        rewrite list_lookup_alter in Hd1.
        assert (∃ d2, heap σ !! p = Some d2 ∧ children d1 = children d2) as (d2 & Hd2 & ->).
        { destruct (decide (i = p)) as [->|]; [|eauto].
          destruct (heap σ !! p) as [d2|]; [|done]. injection Hd1 as <-. eauto. }
        by rewrite (Hchildren p d0 d2 Hd0 Hd2), <- app_assoc.
      * rewrite decide_False by (rewrite Hlinks, Hresolve; congruence).
        rewrite app_nil_r. rewrite list_lookup_alter in Hd.
        assert (∃ d2, heap σ !! p = Some d2 ∧ children d = children d2) as (d2 & Hd2 & ->).
        { destruct (decide (i = p)) as [->|]; [|eauto].
          destruct (heap σ !! p) as [d2|]; [|done]. injection Hd as <-. eauto. }
        by apply Hchildren.
    + simpl in Hresolve. rewrite Hq in Hresolve.
      rewrite decide_False by (rewrite Hlinks, Hresolve; congruence).
      rewrite app_nil_r. apply Hchildren; [done|].
      destruct (doc o); [|by injection Hstep as <-].
      apply bind_Ok in Hstep as (e & _ & Hstep). by injection Hstep as <-.
  - simpl in Hresolve.
    rewrite decide_False by (rewrite Hlinks, Hresolve; congruence).
    rewrite app_nil_r. injection Hstep as <-. by apply Hchildren.
Qed.

Lemma make_forest_children σ ids σ' :
  make_forest σ ids = Ok σ' →
  ∀ p d0 d, heap σ !! p = Some d0 → heap σ' !! p = Some d →
    children d = children d0 ++ filter (links_to (longnames σ) (heap σ) p) ids.
Proof.
  intros Hrun.
  apply (for_each_invariant forest_step
           (λ pre σ1,
              forest_inv σ pre σ1
              ∧ ∀ p d0 d, heap σ !! p = Some d0 → heap σ1 !! p = Some d →
                  children d = children d0
                               ++ filter (links_to (longnames σ) (heap σ) p) pre)
           σ ids) in Hrun; [apply Hrun| |].
  - split; [apply forest_inv_init|].
    intros p d0 d Hd0 Hd. rewrite filter_nil, app_nil_r. congruence.
  - intros pre x post s s' _ [Hinv Hchildren] Hstep.
    split; [by eapply forest_step_inv|by eapply forest_step_children].
Qed.

Lemma links_to_strip lns (h h' : Heap) p i :
  strip_links <$> h = strip_links <$> h' → links_to lns h p i ↔ links_to lns h' p i.
Proof.
  assert (∀ h h' : Heap, strip_links <$> h = strip_links <$> h' →
                         links_to lns h p i → links_to lns h' p i) as Hone.
  { intros h1 h2 Heq (d & Hd & Hres).
    destruct (strip_links_lookup _ _ _ _ Heq Hd) as (d' & Hd' & Hsame).
    exists d'. split; [done|].
    destruct (strip_links_fields _ _ Hsame) as (_ & _ & _ & Hmo & _).
    unfold resolve in *. by rewrite <- Hmo. }
  intros Heq. split; apply Hone; done.
Qed.

Lemma forest_merge_returns : ∃ r, forest_merge = Ok r.
Proof. vm_compute. eauto. Qed.

Lemma merge_doclets_split σ ds σ' merged ns lns :
  merge_doclets σ ds = Ok (σ', (merged, ns, lns)) →
  ∃ σ1, for_each merge_step (σ, []) ds = Ok (σ1, merged)
        ∧ make_forest σ1 merged = Ok σ'.
Proof.
  unfold merge_doclets. intros ([σ1 merged1] & Hloop & Hrest)%bind_Ok.
  apply bind_Ok in Hrest as (σ2 & Hforest & Hret).
  injection Hret as <- <- _ _. eauto.
Qed.

(** X6.  After the two passes on freshly constructed doclets the links are
    consistent: the parent of a kept doclet is the doclet that the longname
    index holds for its [memberof] (none if the index has no such key), the
    longname of that parent is the [memberof], and the children of every
    doclet are the kept doclets that are its members, each once and in the
    order of the merged list. *)
Theorem make_forest_links ds log σ' merged ns lns :
  Forall constructed ds →
  merge_doclets (initial_state ds log) (seq 0 (length ds)) = Ok (σ', (merged, ns, lns)) →
  (∀ i d, i ∈ merged → heap σ' !! i = Some d → parent d = resolve (longnames σ') d)
  ∧ (∀ i d p dp, i ∈ merged → heap σ' !! i = Some d → parent d = Some p →
       heap σ' !! p = Some dp →
       p ∈ merged ∧ memberof d = Some (longname dp) ∧ i ∈ children dp)
  ∧ (∀ p dp, heap σ' !! p = Some dp →
       children dp = filter (links_to (longnames σ') (heap σ') p) merged).
Proof.
  intros Hfresh Hrun. rewrite Forall_forall in Hfresh.
  pose proof Hrun as (σ1 & Hloop & Hmake)%merge_doclets_split.
  pose proof (merge_loop_inv ds log σ1 merged Hloop) as Hmerge.
  pose proof (make_forest_inv _ _ _ Hmake) as Hforest.
  pose proof (make_forest_children _ _ _ Hmake) as Hgrown.
  assert (strip_links <$> heap σ' = strip_links <$> heap σ1) as Hrec by apply Hforest.
  assert (∀ i d, i ∈ merged → heap σ' !! i = Some d → parent d = resolve (longnames σ') d)
    as Hparent.
  { intros i d Hi Hd.
    destruct (merge_doclets_kept _ _ _ _ _ _ i Hrun Hi)
      as (r & d' & Hr & Hd' & _ & _ & _ & _ & _ & _ & Hp).
    assert (d' = d) as -> by congruence.
    destruct (Hfresh r) as [Hroot _]; [by eapply list_elem_of_lookup_2|].
    rewrite Hp, Hroot. by destruct (resolve (longnames σ') d). }
  assert (∀ p dp, heap σ' !! p = Some dp →
            children dp = filter (links_to (longnames σ') (heap σ') p) merged)
    as Hchildren.
  { intros p dp Hdp.
    destruct (strip_links_lookup _ _ _ _ Hrec Hdp) as (d1 & Hd1 & _).
    rewrite (Hgrown p d1 dp Hd1 Hdp).
    assert (children d1 = []) as ->.
    { assert (is_Some (ds !! p)) as [r Hr].
      { apply lookup_lt_is_Some. apply lookup_lt_Some in Hd1.
        pose proof (f_equal length (mi_heap_longnames _ _ _ _ Hmerge)) as Hlen.
        rewrite !length_fmap in Hlen. lia. }
      destruct (Hfresh r) as [_ Hnone]; [by eapply list_elem_of_lookup_2|].
      destruct (decide (p ∈ merged)) as [Hin|Hnin].
      - by destruct (mi_folded _ _ _ _ Hmerge p d1 r Hin Hd1 Hr) as (_ & _ & _ & _ & _ & ->).
      - rewrite (mi_untouched _ _ _ _ Hmerge p Hnin) in Hd1. congruence. }
    simpl. apply list_filter_iff. intros i.
    rewrite (fi_longnames _ _ _ Hforest). symmetry. by apply links_to_strip. }
  split; [done|]. split; [|done].
  intros i d p dp Hi Hd Hp Hdp.
  rewrite (Hparent i d Hi Hd) in Hp.
  pose proof Hp as Hres. unfold resolve in Hres.
  destruct (memberof d) as [target|] eqn:Htarget; [|done]. simpl in Hres.
  assert (p ∈ merged) as Hpin.
  { apply (mi_merged _ _ _ _ Hmerge). exists target.
    by rewrite <- (fi_longnames _ _ _ Hforest). }
  split; [done|]. split.
  - destruct (merge_doclets_kept _ _ _ _ _ _ p Hrun Hpin)
      as (r & dp' & Hr & Hdp' & _ & _ & Hln & _).
    assert (dp' = dp) as -> by congruence.
    rewrite (fi_longnames _ _ _ Hforest), (mi_index _ _ _ _ Hmerge), firstn_all in Hres.
    apply first_with_Some in Hres as (r' & Hr' & Hlnr & _).
    assert (r' = r) as -> by congruence. congruence.
  - rewrite (Hchildren p dp Hdp). apply list_elem_of_filter. split; [|done].
    exists d. done.
Qed.

(** The class of the example gets its two members as children, in the
    order of the file: a witness for X6. *)
Lemma make_forest_links_witness :
  match forest_merge with
  | Ok (σ', _) =>
      children <$> heap σ' !! 1 = Some [0; 3]
      ∧ parent <$> heap σ' !! 0 = Some (Some 1)
      ∧ parent <$> heap σ' !! 2 = Some None
  | Raise _ => False
  end.
Proof.
  destruct forest_merge as [[σ' [[merged ns] lns]]|?] eqn:Hrun;
    [|destruct forest_merge_returns; congruence].
  destruct (make_forest_links forest_records [] σ' merged ns lns) as (Hparent & _ & Hchildren).
  { repeat constructor. }
  { exact Hrun. }
  pose proof Hrun as Hvalue. vm_compute in Hvalue.
  injection Hvalue as Hσ Hmerged _ _.
  assert (∃ d1, heap σ' !! 1 = Some d1) as [d1 Hd1] by (rewrite <- Hσ; eexists; reflexivity).
  assert (∃ d0, heap σ' !! 0 = Some d0 ∧ memberof d0 = Some "Widget") as (d0 & Hd0 & Hm0).
  { rewrite <- Hσ. eexists. split; reflexivity. }
  assert (∃ d2, heap σ' !! 2 = Some d2 ∧ memberof d2 = None) as (d2 & Hd2 & Hm2).
  { rewrite <- Hσ. eexists. split; reflexivity. }
  assert (longnames σ' !! "Widget" = Some 1) as Hindex by (rewrite <- Hσ; reflexivity).
  assert (0 ∈ merged ∧ 2 ∈ merged) as [Hin0 Hin2].
  { rewrite <- Hmerged. split; apply list_elem_of_In; simpl; auto. }
  rewrite Hd1, Hd0, Hd2. simpl.
  rewrite (Hchildren 1 d1 Hd1), (Hparent 0 d0 Hin0 Hd0), (Hparent 2 d2 Hin2 Hd2).
  unfold resolve. rewrite Hm0, Hm2. simpl. rewrite Hindex.
  split; [|done]. rewrite <- Hmerged, <- Hσ. reflexivity.
Defined.

(** ** Source locations *)

Lemma source_line_ancestors h p ps dn m depth :
  ancestors h p ps dn → meta dn = Some m → (length ps ≤ depth)%nat →
  source_line_from depth h None p = Ok (meta_location m).
Proof.
  intros Hchain Hm. revert depth.
  induction Hchain as [p d Hd|p d ps dn Hd Hnone _ IH]; intros depth Hdepth;
    simpl in Hdepth; (destruct depth as [|depth]; [lia|]); simpl;
    rewrite (proj2 (deref_Ok _ _ _) Hd); simpl.
  - destruct depth; simpl; by rewrite Hm.
  - rewrite Hnone. apply IH; [done|lia].
Qed.

Lemma source_line_ancestors_deep h p ps dn frames :
  ancestors h p ps dn → frames < length ps →
  source_line_from frames h None p = Raise RecursionError.
Proof.
  intros Hchain. revert frames.
  induction Hchain as [p d Hd|p d ps dn Hd Hnone _ IH]; intros frames Hframes;
    simpl in Hframes; (destruct frames as [|frames]; [done|]); [lia|].
  simpl. rewrite (proj2 (deref_Ok _ _ _) Hd). simpl. rewrite Hnone.
  apply IH. lia.
Qed.

(** X7.  The source location of an object is that of its own [meta] if it
    has one, and the unknown location if it has neither [meta] nor parent.
    Without a [meta] the search climbs to the closest ancestor that has
    one, one call per ancestor: with [frames] calls available it returns
    the location of that ancestor if the ancestor is at most [frames]
    levels up, and raises [RecursionError] if it is further up. *)
Theorem get_source_line_closest `{IsObj A} (h : Heap) (self : A) :
  (∀ m, obj_meta self = Some m → get_source_line h self = Ok (meta_location m))
  ∧ (obj_meta self = None → obj_parent self = None →
     get_source_line h self = Ok ("<unknown>", 0%Z))
  ∧ (∀ frames ps dn m,
       obj_meta self = None → ancestors h (obj_parent self) ps dn →
       meta dn = Some m →
       source_line_from frames h (obj_meta self) (obj_parent self)
       = if decide (length ps ≤ frames)%nat then Ok (meta_location m)
         else Raise RecursionError).
Proof.
  unfold get_source_line. split; [|split].
  - intros m ->. by destruct (recursion_limit h).
  - intros -> ->. by destruct (recursion_limit h).
  - intros frames ps dn m -> Hchain Hm.
    destruct (decide (length ps ≤ frames)%nat) as [Hle|Hgt].
    + by apply (source_line_ancestors h _ ps dn).
    + apply (source_line_ancestors_deep h _ ps dn); [done|lia].
Qed.

(** The member two levels below the module of the example is located at
    the module when two calls are available, and the search gives up when
    only one is: a witness for X7. *)
Lemma get_source_line_closest_witness :
  source_line_from 2 nested_heap None (Some 1) = Ok ("/src/app.js", 1%Z)
  ∧ source_line_from 1 nested_heap None (Some 1) = Raise RecursionError.
Proof.
  assert (ancestors nested_heap (Some 1) [1; 0]
            (mkDoclet "module" "app" "app" None "" false false None
                      (Some (mkMeta "/src" "app.js" 1%Z None)) None None [1]
                      (Some []) None [])) as Hchain.
  { eapply ancestors_step; [reflexivity|reflexivity|].
    simpl. apply ancestors_last. reflexivity. }
  pose (self := mkDoclet "member" "app.Widget.size" "size" (Some "app.Widget") ""
                         false false None None None (Some 1) [] (Some []) None []).
  destruct (get_source_line_closest nested_heap self) as (_ & _ & Hclimb).
  split.
  - exact (Hclimb 2 _ _ _ eq_refl Hchain eq_refl).
  - exact (Hclimb 1 _ _ _ eq_refl Hchain eq_refl).
Defined.

Lemma source_line_self_parent h i d depth :
  h !! i = Some d → meta d = None → parent d = Some i →
  source_line_from depth h None (Some i) = Raise RecursionError.
Proof.
  intros Hd Hmeta Hparent. induction depth as [|depth IH]; simpl; [done|].
  rewrite (proj2 (deref_Ok _ _ _) Hd). simpl. by rewrite Hmeta, Hparent.
Qed.

(** X8.  The link pass does not guard against a doclet that names its own
    longname as [memberof]: such a doclet becomes its own parent, and if it
    has no [meta] the search for its source location does not end and
    raises [RecursionError]. *)
Theorem make_forest_self_member ds log σ' merged ns lns i d :
  merge_doclets (initial_state ds log) (seq 0 (length ds)) = Ok (σ', (merged, ns, lns)) →
  i ∈ merged → heap σ' !! i = Some d → memberof d = Some (longname d) →
  parent d = Some i
  ∧ (meta d = None → get_source_line (heap σ') d = Raise RecursionError).
Proof.
  intros Hrun Hi Hd Hself.
  destruct (merge_doclets_kept _ _ _ _ _ _ i Hrun Hi)
    as (r & d' & Hr & Hd' & Hreg & _ & Hln & _ & _ & _ & Hp).
  assert (d' = d) as -> by congruence.
  assert (parent d = Some i) as Hparent.
  { rewrite Hp. unfold resolve. rewrite Hself. simpl. by rewrite Hln, Hreg. }
  split; [done|]. intros Hmeta.
  unfold get_source_line. simpl. rewrite Hmeta, Hparent.
  by apply (source_line_self_parent _ i d).
Qed.

(** The file with the record that is a member of itself: a witness for
    X8. *)
Lemma make_forest_self_member_witness :
  ∃ σ' d, merge_doclets (initial_state cyclic_records []) [0] = Ok (σ', ([0], ∅, ∅))
          ∧ heap σ' !! 0 = Some d
          ∧ parent d = Some 0
          ∧ get_source_line (heap σ') d = Raise RecursionError.
Proof.
  destruct (merge_doclets (initial_state cyclic_records []) [0])
    as [[σ' [[merged ns] lns]]|e] eqn:Hrun; [|vm_compute in Hrun; discriminate].
  pose proof Hrun as Hvalue. vm_compute in Hvalue.
  injection Hvalue as Hσ Hmerged Hns Hlns.
  assert (∃ d, heap σ' !! 0 = Some d ∧ memberof d = Some (longname d) ∧ meta d = None)
    as (d & Hd & Hself & Hmeta).
  { rewrite <- Hσ. eexists. repeat split; reflexivity. }
  assert (0 ∈ merged) as Hin by (rewrite <- Hmerged; apply list_elem_of_here).
  destruct (make_forest_self_member cyclic_records [] σ' merged ns lns 0 d Hrun Hin Hd Hself)
    as [Hparent Hraise].
  exists σ', d. rewrite <- Hmerged, <- Hns, <- Hlns. auto.
Defined.

(** ** The resolver on kinds without a role *)

(** X9.  On indexes that point to live objects, [xref] fails exactly when
    the name matches (the longname index first) a doclet whose kind is not
    empty and has no entry in [xref_table], and then with the [KeyError] of
    that kind; for a doclet of empty kind the name is returned
    unchanged. *)
Theorem xref_raises σ nm :
  (∀ i, xref_match σ nm = Some i → is_Some (heap σ !! i)) →
  (∀ e, xref σ nm = Raise e ↔
        ∃ i d, xref_match σ nm = Some i ∧ heap σ !! i = Some d
               ∧ kind d ≠ "" ∧ xref_table !! kind d = None
               ∧ e = KeyError (kind d))
  ∧ (∀ i d, xref_match σ nm = Some i → heap σ !! i = Some d → kind d = "" →
            xref σ nm = Ok nm).
Proof.
  intros Hlive. unfold xref, xref_match in *.
  assert (∀ i d, heap σ !! i = Some d →
                 (d ← deref (heap σ) i; mret (Some (kind d))) = Ok (Some (kind d)))
    as Hderef.
  { intros i d Hd. by rewrite (proj2 (deref_Ok _ _ _) Hd). }
  assert (∀ i d (e : PyErr),
            heap σ !! i = Some d →
            (if String.eqb (kind d) "" then Ok nm
             else role ← getitem xref_table (kind d);
                  mret (":" +:+ role +:+ ":`" +:+ nm +:+ "`")) = Raise e
            ↔ kind d ≠ "" ∧ xref_table !! kind d = None ∧ e = KeyError (kind d))
    as Hkind.
  { intros i d e Hd. destruct (String.eqb_spec (kind d) "") as [Hk|Hk].
    - split; [done|]. by intros [? _].
    - unfold getitem. destruct (xref_table !! kind d) as [role|]; simpl.
      + split; [done|]. by intros (_ & ? & _).
      + split; [by intros [= <-]|]. by intros (_ & _ & ->). }
  split.
  - intros e. destruct (longnames σ !! nm) as [i|].
    + destruct (Hlive i eq_refl) as [d Hd]. rewrite (Hderef i d Hd). simpl.
      rewrite (Hkind i d e Hd). split.
      * intros (? & ? & ?). by exists i, d.
      * intros (i' & d' & [= <-] & Hd' & ?). by assert (d' = d) as -> by congruence.
    + destruct (names σ !! nm) as [i|].
      * destruct (Hlive i eq_refl) as [d Hd]. rewrite (Hderef i d Hd). simpl.
        rewrite (Hkind i d e Hd). split.
        -- intros (? & ? & ?). by exists i, d.
        -- intros (i' & d' & [= <-] & Hd' & ?). by assert (d' = d) as -> by congruence.
      * simpl. split; [done|]. by intros (? & ? & ? & _).
  - intros i d Hmatch Hd Hk.
    assert ((match longnames σ !! nm with
             | Some i => d ← deref (heap σ) i; mret (Some (kind d))
             | None =>
                 match names σ !! nm with
                 | Some i => d ← deref (heap σ) i; mret (Some (kind d))
                 | None => mret None
                 end
             end) = Ok (Some (kind d))) as ->.
    { destruct (longnames σ !! nm) as [j|].
      - injection Hmatch as ->. by apply Hderef.
      - rewrite Hmatch. by apply Hderef. }
    simpl. by rewrite Hk.
Qed.

(** The record of kind [file] in the file with the two [draw]s: a witness
    for X9. *)
Lemma xref_raises_witness :
  match ambiguous_merge with
  | Ok (σ', _) =>
      ∀ e, xref σ' "widget.js" = Raise e ↔
           ∃ i d, xref_match σ' "widget.js" = Some i ∧ heap σ' !! i = Some d
                  ∧ kind d ≠ "" ∧ xref_table !! kind d = None
                  ∧ e = KeyError (kind d)
  | Raise _ => False
  end.
Proof.
  ambiguous_merge_result σ' merged ns lns Hrun.
  apply (xref_raises σ' "widget.js").
  vm_compute in Hrun. injection Hrun as <- _ _ _.
  intros i Hi. vm_compute in Hi. injection Hi as <-. by eexists.
Defined.

(** ** What the selection renders *)

Lemma distinct_longnames_inj h ids i j di dj :
  distinct_longnames h ids → i ∈ ids → j ∈ ids →
  h !! i = Some di → h !! j = Some dj → longname di = longname dj → i = j.
Proof.
  intros [Hlen Hnodup]. revert i j di dj.
  induction ids as [|k ids IH]; intros i j di dj Hi Hj Hdi Hdj Heq;
    [by apply elem_of_nil in Hi|].
  rewrite doclets_at_cons in Hlen, Hnodup.
  pose proof (doclets_at_length_le h ids) as Hle.
  destruct (h !! k) as [dk|] eqn:Hdk; simpl in Hlen; [|lia].
  rewrite fmap_cons in Hnodup. apply NoDup_cons in Hnodup as [Hfresh Hnodup].
  assert (∀ x dx, x ∈ ids → h !! x = Some dx → longname dx ≠ longname dk) as Hne.
  { intros x dx Hx Hdx Hsame. apply Hfresh. rewrite <- Hsame.
    apply list_elem_of_fmap. exists dx. split; [done|].
    apply elem_of_doclets_at. eauto. }
  apply elem_of_cons in Hi as [->|Hi]; apply elem_of_cons in Hj as [->|Hj].
  - done.
  - assert (di = dk) as -> by congruence. by destruct (Hne j dj Hj Hdj).
  - assert (dj = dk) as -> by congruence. by destruct (Hne i di Hi Hdi).
  - apply (IH ltac:(lia) Hnodup i j di dj); done.
Qed.

Section RunCompleteness.

Context {Pattern : Type}.
Variable re_compile : string → option Pattern.
Variable re_search : Pattern → string → bool.
Variable run_doclet : State → oid → nat → Result (list Line).

Lemma run_arguments_requested σ objtype arguments out :
  distinct_longnames (heap σ) (doclets σ) →
  run_arguments re_compile re_search run_doclet σ objtype arguments = Ok out →
  (∀ a, a ∈ arguments → is_Some (re_compile a))
  ∧ (∀ i, i ∈ rendered out ↔ requested re_compile re_search σ objtype arguments i).
Proof.
  intros Hdoclets. unfold run_arguments. intros Hrun.
  cut ((distinct_longnames (heap σ) (rendered out)
        ∧ (∀ ln, ln ∈ visited out
                 ↔ ln ∈ longname <$> doclets_at (heap σ) (rendered out)))
       ∧ (∀ a, a ∈ arguments → is_Some (re_compile a))
       ∧ (∀ i, i ∈ rendered out
               ↔ requested re_compile re_search σ objtype arguments i)).
  { by intros [_ ?]. }
  revert out Hrun.
  apply (for_each_invariant (run_argument re_compile re_search run_doclet σ objtype)
           (λ pre out,
              (distinct_longnames (heap σ) (rendered out)
               ∧ (∀ ln, ln ∈ visited out
                        ↔ ln ∈ longname <$> doclets_at (heap σ) (rendered out)))
              ∧ (∀ a, a ∈ pre → is_Some (re_compile a))
              ∧ (∀ i, i ∈ rendered out
                      ↔ requested re_compile re_search σ objtype pre i))).
  - split; [split; [split; [done|constructor]|]|split].
    + intros ln. simpl.
      split; [by intros ?%not_elem_of_empty|by intros ?%not_elem_of_nil].
    + by intros a ?%elem_of_nil.
    + intros i. simpl. split; [by intros ?%elem_of_nil|].
      by intros (? & ? & ? & _ & _ & _ & ?%elem_of_nil & _).
  - intros pre x post s s' _ [[Hs Hv] [Hcompile Hreq]] Hstep.
    split; [by eapply run_argument_once|].
    pose proof Hstep as (rex & Hrex & Hloop)%run_argument_batch.
    apply render_loop in Hloop as (Hrendered & _ & _).
    set (ms := matching re_search (heap σ) objtype rex (visited s) (doclets σ)) in *.
    assert (sorted_by_longname ms ≡ₚ ms) as Hperm by apply sorted_by_longname_perm.
    split.
    + intros a [Ha| ->%list_elem_of_singleton]%elem_of_app; [by apply Hcompile|].
      by rewrite Hrex.
    + intros i. rewrite Hrendered, elem_of_app. split.
      * intros [Hi|Hi].
        -- apply Hreq in Hi as (d & a & rex' & ? & ? & ? & ? & ? & ?).
           exists d, a, rex'. repeat split; try done. apply elem_of_app. by left.
        -- apply list_elem_of_fmap in Hi as ([j d] & -> & Hx). rewrite Hperm in Hx.
           apply matching_elem in Hx as (Hj & Hd & Hsel). simpl in *.
           unfold selects in Hsel. simpl in Hsel.
           apply andb_true_iff in Hsel as [[Hkind%String.eqb_eq Hfound]%andb_true_iff _].
           exists d, x, rex. repeat split; try done.
           apply elem_of_app. right. by apply list_elem_of_singleton.
      * intros (d & a & rex' & Hi & Hd & Hkind & Ha & Hrex' & Hfound).
        apply elem_of_app in Ha as [Ha| ->%list_elem_of_singleton].
        { left. apply Hreq. by exists d, a, rex'. }
        assert (rex' = rex) as -> by congruence.
        destruct (decide (longname d ∈ visited s)) as [Hseen|Hnew].
        -- left. apply Hv in Hseen.
           apply list_elem_of_fmap in Hseen as (d' & Heq & Hd').
           apply elem_of_doclets_at in Hd' as (j & Hj & Hdj).
           pose proof Hj as (_ & _ & _ & Hj' & _)%Hreq.
           by rewrite (distinct_longnames_inj _ _ i j d d' Hdoclets Hi Hj' Hd Hdj Heq).
        -- right. apply list_elem_of_fmap. exists (i, d). split; [done|].
           rewrite Hperm. apply matching_elem. simpl. split; [done|]. split; [done|].
           unfold selects. simpl. rewrite Hfound.
           rewrite (proj2 (String.eqb_eq _ _) Hkind). simpl.
           by apply bool_decide_eq_true.
Qed.

(** X10.  In a successful invocation of the directive, the loop over the
    arguments calls [run] (with indent 0) on exactly the doclets of the
    structure file whose kind is the object type of the directive and whose
    longname some argument finds: on none of another kind, on none that no
    argument finds, and on every one that an argument finds.  Every
    argument was a well-formed expression.  What such a call renders
    below the doclet (its children, of whatever kind and name) is not
    restricted by this. *)
Theorem run_renders_requested w self_name structure_json arguments w' σ out :
  reachable w →
  run re_compile re_search run_doclet w self_name structure_json arguments
    = (w', Ok (σ, out)) →
  (∀ a, a ∈ arguments → is_Some (re_compile a))
  ∧ (∀ i, i ∈ rendered out
          ↔ requested re_compile re_search σ (strip_directive self_name) arguments i).
Proof.
  intros Hw (Hload & Hrun)%run_Ok.
  pose proof (load_structure_distinct _ _ _ _ Hw Hload) as Hdoclets.
  by apply run_arguments_requested.
Qed.

End RunCompleteness.

(** The directive [js:autoclass] with the arguments [foo] and [foo.*] on
    the example file: [run] is called on the two classes and on neither
    function.  A witness for X10. *)
Lemma run_renders_requested_witness :
  match run literal_compile literal_search declaration_line selection_process
            "js:autoclass" "structure.json" ["foo"; "foo.*"] with
  | (_, Ok (σ, out)) =>
      ∀ i, i ∈ rendered out
           ↔ requested literal_compile literal_search σ "class" ["foo"; "foo.*"] i
  | (_, Raise _) => False
  end.
Proof.
  destruct (run literal_compile literal_search declaration_line selection_process
                "js:autoclass" "structure.json" ["foo"; "foo.*"])
    as [w' [[σ out]|e]] eqn:Hrun; [|vm_compute in Hrun; discriminate].
  exact (proj2 (run_renders_requested literal_compile literal_search declaration_line
                  selection_process "js:autoclass" "structure.json" ["foo"; "foo.*"]
                  w' σ out selection_process_reachable Hrun)).
Defined.

(** ** The parameter check *)

Lemma string_length_app (s t : string) :
  String.length (s +:+ t) = String.length s + String.length t.
Proof.
  induction s as [|c s IH]; [done|].
  change (S (String.length (s +:+ t)) = S (String.length s + String.length t)).
  by rewrite IH.
Qed.

Lemma string_app_inv_tail (s1 s2 t : string) : s1 +:+ t = s2 +:+ t → s1 = s2.
Proof.
  revert s2. induction s1 as [|c1 s1 IH]; intros [|c2 s2] Heq.
  - done.
  - apply (f_equal String.length) in Heq.
    change (String.length t = S (String.length (s2 +:+ t))) in Heq.
    rewrite string_length_app in Heq. lia.
  - apply (f_equal String.length) in Heq.
    change (S (String.length (s1 +:+ t)) = String.length t) in Heq.
    rewrite string_length_app in Heq. lia.
  - change (String c1 (s1 +:+ t) = String c2 (s2 +:+ t)) in Heq.
    injection Heq as -> Heq. by rewrite (IH s2 Heq).
Qed.

Lemma not_on_signature_inj n n' : not_on_signature n = not_on_signature n' → n = n'.
Proof.
  unfold not_on_signature. intros Heq%(inj (String.append _)).
  by apply string_app_inv_tail in Heq.
Qed.

Lemma not_documented_inj n n' : not_documented n = not_documented n' → n = n'.
Proof. unfold not_documented. by intros Heq%(inj (String.append _)). Qed.

Lemma messages_differ n n' : not_on_signature n ≠ not_documented n'.
Proof. done. Qed.

Lemma mapM_getattr_option {A B : Type} (attr : string) (f : A → option B) (l : list A) :
  mapM (λ x, getattr attr (f x)) l
  = match mapM f l with
    | Some k => Ok k
    | None => Raise (AttributeError attr)
    end.
Proof.
  induction l as [|x l IH]; simpl; [done|].
  destruct (f x); simpl; [|done]. rewrite IH. by destruct (mapM f l).
Qed.

Lemma mapM_warn_located h (doclet : Doclet) (m : Meta) (text : string → string) l :
  meta doclet = Some m →
  mapM (λ n, warn h doclet (text n)) l
  = Ok ((λ n, mkLog Warning (text n) (fmt_location (meta_location m))) <$> l).
Proof.
  intros Hmeta.
  assert (∀ n, warn h doclet (text n)
               = Ok (mkLog Warning (text n) (fmt_location (meta_location m)))) as Hwarn.
  { intros n. unfold warn, get_source_line. simpl. rewrite Hmeta.
    by destruct (recursion_limit h). }
  induction l as [|n l IH]; simpl; [done|]. by rewrite Hwarn, IH.
Qed.

Lemma check_params_checked h doclet names sig m :
  undocumented doclet = false → documented_names doclet = Some names →
  signature_names doclet = Some sig → meta doclet = Some m →
  check_params h doclet
  = Ok (((λ n, mkLog Warning (not_on_signature n) (fmt_location (meta_location m)))
           <$> list_difference (remove_dups names) (remove_dups sig))
        ++ ((λ n, mkLog Warning (not_documented n) (fmt_location (meta_location m)))
              <$> list_difference (remove_dups sig) (remove_dups names))).
Proof.
  intros Hdoc Hnames Hsig Hmeta. unfold check_params. rewrite Hdoc.
  unfold documented_names in Hnames. unfold signature_names in Hsig.
  rewrite Hmeta in Hsig. simpl in Hsig.
  destruct (params doclet) as [ps|]; [|done]. simpl in Hnames. simpl.
  rewrite mapM_getattr_option, Hnames. simpl. rewrite Hmeta. simpl.
  destruct (code m) as [c|]; [|done]. simpl in Hsig. simpl. rewrite Hsig. simpl.
  rewrite (mapM_warn_located h doclet m
             (λ n, "Documented parameter " +:+ n +:+ " not found on signature")) by done.
  simpl.
  by rewrite (mapM_warn_located h doclet m (λ n, "Undocumented parameter " +:+ n)) by done.
Qed.

Lemma check_params_unchecked h doclet :
  undocumented doclet = true ∨ documented_names doclet = None
  ∨ signature_names doclet = None →
  check_params h doclet = Ok [].
Proof.
  unfold check_params, documented_names, signature_names.
  destruct (undocumented doclet); [done|]. intros [?|Hmissing]; [done|].
  destruct (params doclet) as [ps|]; simpl in *; [|done].
  rewrite mapM_getattr_option.
  destruct (mapM p_name ps) as [names|]; simpl; [|done].
  destruct (meta doclet) as [m|]; simpl in *; [|done].
  destruct (code m) as [c|]; simpl in *; [|done].
  destruct (paramnames c) as [sig|]; simpl; [|done].
  by destruct Hmissing.
Qed.

(** X11.  The parameter check never fails.  It reports warnings only, all
    at the doclet's own location.  A name is reported as documented but not
    on the signature exactly when the doclet is documented, its documented
    parameters and its signature are both known, and the name is among the
    former and not the latter; as undocumented exactly in the converse
    case.  The check is silent exactly when the doclet is undocumented, one
    of the two lists is unknown, or they hold the same names. *)
Theorem check_params_report h doclet :
  ∃ ws,
    check_params h doclet = Ok ws
    ∧ Forall (λ e, level e = Warning
                   ∧ ∃ m, meta doclet = Some m
                          ∧ location e = fmt_location (meta_location m)) ws
    ∧ (∀ n, not_on_signature n ∈ msg <$> ws
            ↔ ∃ names sig,
                undocumented doclet = false ∧ documented_names doclet = Some names
                ∧ signature_names doclet = Some sig ∧ n ∈ names ∧ n ∉ sig)
    ∧ (∀ n, not_documented n ∈ msg <$> ws
            ↔ ∃ names sig,
                undocumented doclet = false ∧ documented_names doclet = Some names
                ∧ signature_names doclet = Some sig ∧ n ∈ sig ∧ n ∉ names)
    ∧ (ws = []
       ↔ undocumented doclet = true ∨ documented_names doclet = None
         ∨ signature_names doclet = None
         ∨ ∃ names sig,
             documented_names doclet = Some names ∧ signature_names doclet = Some sig
             ∧ ∀ n, n ∈ names ↔ n ∈ sig).
Proof.
  destruct (undocumented doclet) eqn:Hdoc;
    [|destruct (documented_names doclet) as [names|] eqn:Hnames;
      [destruct (signature_names doclet) as [sig|] eqn:Hsig|]].
  2: {
    assert (∃ m, meta doclet = Some m) as [m Hmeta].
    { unfold signature_names in Hsig. destruct (meta doclet); [eauto|done]. }
    eexists. split; [by apply (check_params_checked h doclet names sig m)|].
    set (l1 := list_difference (remove_dups names) (remove_dups sig)).
    set (l2 := list_difference (remove_dups sig) (remove_dups names)).
    assert (∀ n, n ∈ l1 ↔ n ∈ names ∧ n ∉ sig) as Hl1.
    { intros n. unfold l1. by rewrite list_elem_of_difference, !elem_of_remove_dups. }
    assert (∀ n, n ∈ l2 ↔ n ∈ sig ∧ n ∉ names) as Hl2.
    { intros n. unfold l2. by rewrite list_elem_of_difference, !elem_of_remove_dups. }
    split; [|split; [|split]].
    - apply Forall_app. split; apply Forall_fmap, Forall_true; intros n; simpl; eauto.
    - intros n. rewrite fmap_app, <- !list_fmap_compose, elem_of_app. simpl.
      rewrite !list_elem_of_fmap. split.
      + intros [(n' & Heq & Hn')|(n' & Heq & _)].
        * apply not_on_signature_inj in Heq as <-. apply Hl1 in Hn' as [? ?].
          by exists names, sig.
        * by destruct (messages_differ n n').
      + intros (names' & sig' & _ & [= <-] & [= <-] & ? & ?).
        left. exists n. split; [done|]. by apply Hl1.
    - intros n. rewrite fmap_app, <- !list_fmap_compose, elem_of_app. simpl.
      rewrite !list_elem_of_fmap. split.
      + intros [(n' & Heq & _)|(n' & Heq & Hn')].
        * symmetry in Heq. by destruct (messages_differ n' n).
        * apply not_documented_inj in Heq as <-. apply Hl2 in Hn' as [? ?].
          by exists names, sig.
      + intros (names' & sig' & _ & [= <-] & [= <-] & ? & ?).
        right. exists n. split; [done|]. by apply Hl2.
    - split.
      + intros [Hw1%fmap_nil_inv Hw2%fmap_nil_inv]%app_eq_nil.
        right. right. right. exists names, sig. split; [done|]. split; [done|].
        intros n. split; intros Hn.
        * destruct (decide (n ∈ sig)) as [|Hout]; [done|].
          assert (n ∈ l1) as Hin by by apply Hl1.
          rewrite Hw1 in Hin. by apply elem_of_nil in Hin.
        * destruct (decide (n ∈ names)) as [|Hout]; [done|].
          assert (n ∈ l2) as Hin by by apply Hl2.
          rewrite Hw2 in Hin. by apply elem_of_nil in Hin.
      + intros [?|[?|[?|(names' & sig' & [= <-] & [= <-] & Hsame)]]]; try done.
        assert (l1 = []) as ->.
        { apply elem_of_nil_inv. intros n [Hin Hout]%Hl1. by apply Hsame in Hin. }
        assert (l2 = []) as ->; [|done].
        apply elem_of_nil_inv. intros n [Hin Hout]%Hl2. by apply Hsame in Hin. }
  all: exists []; (split; [apply check_params_unchecked; auto|]);
    (split; [constructor|]);
    (split; [intros n; split; [by intros ?%elem_of_nil|];
             by intros (? & ? & ? & ? & ? & _)|]);
    (split; [intros n; split; [by intros ?%elem_of_nil|];
             by intros (? & ? & ? & ? & ? & _)|]);
    (split; [auto|done]).
Qed.

(** ** The text functions *)

Lemma string_pair_ind (P : string → Prop) :
  P "" → (∀ c, P (String c "")) →
  (∀ c1 c2 s, P s → P (String c2 s) → P (String c1 (String c2 s))) →
  ∀ s, P s.
Proof.
  intros Hnil Hone Hstep s.
  cut (P s ∧ ∀ c, P (String c s)); [by intros [? _]|].
  induction s as [|a s [IH1 IH2]]; [by split|].
  split; [apply IH2|]. intros c. by apply Hstep.
Qed.

Lemma rev_app_snoc (x acc : string) (c : ascii) :
  String.rev_app (x +:+ String c "") acc = String c (String.rev_app x acc).
Proof. revert acc. induction x as [|a x IH]; intros acc; simpl; [done|apply IH]. Qed.

Lemma rev_snoc (x : string) (c : ascii) :
  String.rev (x +:+ String c "") = String c (String.rev x).
Proof. apply rev_app_snoc. Qed.

Lemma rev_cons (c : ascii) (s : string) :
  String.rev (String c s) = String.rev s +:+ String c "".
Proof. unfold String.rev. simpl. by rewrite rev_app_append. Qed.

Lemma rev_nonempty (s : string) : s ≠ "" → String.rev s ≠ "".
Proof.
  destruct s as [|c s]; [done|]. intros _. rewrite rev_cons.
  by destruct (String.rev s).
Qed.

Lemma lstrip_snoc (a : string) (c : ascii) :
  lstrip (a +:+ String c "")
  = match lstrip a with
    | EmptyString => lstrip (String c "")
    | String _ _ => lstrip a +:+ String c ""
    end.
Proof.
  induction a as [|x a IH]; [done|].
  change (String x a +:+ String c "") with (String x (a +:+ String c "")).
  simpl. destruct (isspace x); [apply IH|done].
Qed.

(** [rstrip] read from the left. *)
Lemma rstrip_cons (c : ascii) (r : string) :
  rstrip (String c r)
  = match rstrip r with
    | EmptyString => if isspace c then "" else String c ""
    | String _ _ => String c (rstrip r)
    end.
Proof.
  unfold rstrip. rewrite rev_cons, lstrip_snoc.
  destruct (lstrip (String.rev r)) as [|x l] eqn:Hl.
  - simpl. by destruct (isspace c).
  - rewrite rev_snoc.
    pose proof (rev_nonempty (String x l) ltac:(done)) as Hne.
    by destruct (String.rev (String x l)).
Qed.

Lemma rstrip_no_trailing_ws (t : string) : no_trailing_ws (rstrip t) = true.
Proof.
  induction t as [|c r IH]; [done|]. rewrite rstrip_cons.
  destruct (rstrip r) as [|x l].
  - destruct (isspace c) eqn:Hc; simpl; [done|by rewrite Hc].
  - done.
Qed.

Lemma rstrip_head (c : ascii) (r : string) :
  isspace c = false → rstrip (String c r) = String c (rstrip r).
Proof. intros Hc. rewrite rstrip_cons, Hc. by destruct (rstrip r). Qed.

Lemma rstrip_fixed (t : string) : no_trailing_ws t = true → rstrip t = t.
Proof.
  induction t as [|c r IH]; [done|]. intros Ht. rewrite rstrip_cons.
  destruct r as [|x l].
  - simpl in *. by destruct (isspace c).
  - rewrite IH by done. done.
Qed.

Lemma lstrip_head (s : string) :
  match lstrip s with
  | EmptyString => True
  | String c _ => isspace c = false
  end.
Proof.
  induction s as [|c s IH]; [done|]. simpl.
  destruct (isspace c) eqn:Hc; [done|]. by rewrite Hc.
Qed.

Lemma strip_shape (s : string) :
  no_trailing_ws (strip s) = true
  ∧ match strip s with
    | EmptyString => True
    | String c _ => isspace c = false
    end.
Proof.
  unfold strip. split; [apply rstrip_no_trailing_ws|].
  pose proof (lstrip_head s) as Hhead.
  destruct (lstrip s) as [|c r]; [done|]. by rewrite rstrip_head.
Qed.

Lemma sub_ws_tidy (t : string) :
  no_trailing_ws t = true →
  tidy_tail (sub_ws false t) = true
  ∧ (t ≠ "" → ∃ c' r', sub_ws true t = String c' r' ∧ isspace c' = false
                        ∧ tidy_tail r' = true).
Proof.
  induction t as [|c r IH]; [done|]. intros Ht.
  assert (no_trailing_ws r = true) as Hr by (by destruct r).
  destruct (IH Hr) as [IH1 IH2].
  simpl. destruct (isspace c) eqn:Hc.
  - assert (r ≠ "") as Hne by (intros ->; simpl in Ht; by rewrite Hc in Ht).
    destruct (IH2 Hne) as (c' & r' & Hsub & Hc' & Hr').
    split; [|intros _; eauto].
    rewrite Hsub. simpl. by rewrite Hc', Hr'.
  - split; [simpl; by rewrite Hc|]. intros _. eauto.
Qed.

Lemma tidy_tail_space (c : ascii) (r : string) :
  isspace c = true → tidy_tail (String c r) = true →
  c = " "%char ∧ ∃ c' r', r = String c' r' ∧ isspace c' = false ∧ tidy_tail r' = true.
Proof.
  simpl. intros ->. intros [Hc Hr]%andb_true_iff.
  apply Ascii.eqb_eq in Hc. split; [done|].
  destruct r as [|c' r']; [done|].
  apply andb_true_iff in Hr as [Hc'%negb_true_iff Hr']. eauto.
Qed.

Lemma sub_ws_fixed (r : string) : tidy_tail r = true → sub_ws false r = r.
Proof.
  induction r as [| c | c1 c2 s IH1 IH2] using string_pair_ind; [done| |].
  - simpl. destruct (isspace c); [by rewrite andb_false_r|done].
  - intros Htidy. destruct (isspace c1) eqn:Hc1.
    + destruct (tidy_tail_space _ _ Hc1 Htidy) as (-> & c' & r' & [= <- <-] & Hc' & Hr').
      simpl. rewrite Hc'. by rewrite IH1.
    + simpl in Htidy. rewrite Hc1 in Htidy.
      change (sub_ws false (String c1 (String c2 s)))
        with (if isspace c1 then String " " (sub_ws true (String c2 s))
              else String c1 (sub_ws false (String c2 s))).
      rewrite Hc1. by rewrite IH2.
Qed.

Lemma tidy_tail_no_trailing_ws (r : string) (c : ascii) :
  isspace c = false → tidy_tail r = true → no_trailing_ws (String c r) = true.
Proof.
  revert c. induction r as [| a | c1 c2 s IH1 IH2] using string_pair_ind; intros c Hc Htidy.
  - simpl. by rewrite Hc.
  - simpl in *. destruct (isspace a); [by rewrite andb_false_r in Htidy|done].
  - change (no_trailing_ws (String c1 (String c2 s)) = true).
    destruct (isspace c1) eqn:Hc1.
    + destruct (tidy_tail_space _ _ Hc1 Htidy) as (-> & c' & r' & [= <- <-] & Hc' & Hr').
      change (no_trailing_ws (String c2 s) = true). by apply IH1.
    + simpl in Htidy. rewrite Hc1 in Htidy. by apply IH2.
Qed.

Lemma is_linebreak_isspace (c : ascii) : is_linebreak c = true → isspace c = true.
Proof. by destruct c as [[] [] [] [] [] [] [] []]. Qed.

Lemma tidy_tail_one_line (r : string) : tidy_tail r = true → one_line r = true.
Proof.
  induction r as [| c | c1 c2 s IH1 IH2] using string_pair_ind; [done| |].
  - simpl. destruct (isspace c) eqn:Hc; [by rewrite andb_false_r|]. intros _.
    destruct (is_linebreak c) eqn:Hl; [|done].
    apply is_linebreak_isspace in Hl. congruence.
  - intros Htidy. destruct (isspace c1) eqn:Hc1.
    + destruct (tidy_tail_space _ _ Hc1 Htidy) as (-> & c' & r' & [= <- <-] & Hc' & Hr').
      change (one_line (String c2 s) = true). apply IH2. simpl. by rewrite Hc'.
    + simpl in Htidy. rewrite Hc1 in Htidy.
      change (negb (is_linebreak c1) && one_line (String c2 s) = true).
      rewrite (IH2 Htidy), andb_true_r.
      destruct (is_linebreak c1) eqn:Hl; [|done].
      apply is_linebreak_isspace in Hl. congruence.
Qed.

Lemma normalize_space_is_tidy (text : string) : tidy (normalize_space text) = true.
Proof.
  unfold normalize_space. destruct (strip_shape text) as [Hend Hhead].
  destruct (strip text) as [|c r]; [done|].
  simpl. rewrite Hhead. simpl. rewrite Hhead. simpl.
  apply sub_ws_tidy. by destruct r.
Qed.

Lemma normalize_space_fixed (text : string) :
  tidy text = true → normalize_space text = text.
Proof.
  intros Htidy. unfold normalize_space, strip.
  destruct text as [|c r]; [done|].
  apply andb_true_iff in Htidy as [Hc%negb_true_iff Hr].
  assert (lstrip (String c r) = String c r) as -> by (simpl; by rewrite Hc).
  rewrite rstrip_fixed by by apply tidy_tail_no_trailing_ws.
  simpl. rewrite Hc. by rewrite sub_ws_fixed.
Qed.

(** X12.  The result of [normalize_space] has no whitespace at either end
    and no whitespace but single spaces between other characters, so it
    holds no line boundary; a text of that shape is returned unchanged, and
    normalizing twice is normalizing once. *)
Theorem normalize_space_tidy (text : string) :
  tidy (normalize_space text) = true
  ∧ one_line (normalize_space text) = true
  ∧ (tidy text = true → normalize_space text = text)
  ∧ normalize_space (normalize_space text) = normalize_space text.
Proof.
  pose proof (normalize_space_is_tidy text) as Htidy.
  split; [done|]. split; [|split].
  - destruct (normalize_space text) as [|c r]; [done|].
    apply andb_true_iff in Htidy as [Hc%negb_true_iff Hr].
    simpl. rewrite (tidy_tail_one_line r Hr), andb_true_r.
    destruct (is_linebreak c) eqn:Hl; [|done].
    apply is_linebreak_isspace in Hl. congruence.
  - apply normalize_space_fixed.
  - by apply normalize_space_fixed.
Qed.

(** A description that is tidy already: a witness for X12. *)
Lemma normalize_space_tidy_witness :
  tidy "the values to draw" = true
  ∧ normalize_space "the values to draw" = "the values to draw".
Proof.
  split; [reflexivity|].
  apply (proj1 (proj2 (proj2 (normalize_space_tidy "the values to draw")))). reflexivity.
Defined.

Lemma bs_app (s t : string) : bs (s +:+ t) = bs s +:+ bs t.
Proof.
  induction s as [|c s IH]; [done|].
  change (bs (String c (s +:+ t)) = bs (String c s) +:+ bs t).
  simpl. rewrite IH. by destruct (Ascii.eqb c "\").
Qed.

Lemma bs_inj (s t : string) : bs s = bs t → s = t.
Proof.
  revert t. induction s as [|c s IH]; intros [|d t] Heq; simpl in Heq.
  - done.
  - by destruct (Ascii.eqb d "\").
  - by destruct (Ascii.eqb c "\").
  - destruct (Ascii.eqb_spec c "\") as [->|Hc], (Ascii.eqb_spec d "\") as [->|Hd].
    + injection Heq as Heq. by rewrite (IH t Heq).
    + injection Heq as <-. done.
    + injection Heq as ->. done.
    + injection Heq as -> Heq. by rewrite (IH t Heq).
Qed.

Lemma bs_fixed (s : string) : bs s = s ↔ no_backslash s = true.
Proof.
  induction s as [|c s IH]; [done|]. simpl.
  destruct (Ascii.eqb_spec c "\") as [->|Hc]; simpl.
  - split; [|done]. intros Heq. apply (f_equal String.length) in Heq. simpl in Heq.
    assert (∀ x, (String.length x ≤ String.length (bs x))%nat) as Hle.
    { induction x as [|a x IHx]; [done|]. simpl.
      destruct (Ascii.eqb a "\"); simpl; lia. }
    pose proof (Hle s). lia.
  - rewrite <- IH. split; [by intros [= ?]|by intros ->].
Qed.

(** X13.  [bs] doubles every backslash and nothing else: it distributes
    over concatenation, lengthens the text by the number of its
    backslashes only (a text is unchanged exactly when it has none), and
    loses nothing: two different links stay different. *)
Theorem bs_doubles_backslashes (s t : string) :
  bs (s +:+ t) = bs s +:+ bs t
  ∧ (bs s = s ↔ no_backslash s = true)
  ∧ (bs s = bs t → s = t)
  ∧ bs (String "\" s) = String "\" (String "\" (bs s)).
Proof.
  split; [apply bs_app|]. split; [apply bs_fixed|]. split; [apply bs_inj|done].
Qed.

(** A witness for X13: the two texts differ by a backslash. *)
Lemma bs_doubles_backslashes_witness : bs "a\b" ≠ bs "ab".
Proof.
  intros Heq. by apply (proj1 (proj2 (proj2 (bs_doubles_backslashes "a\b" "ab")))) in Heq.
Defined.

(** ** The lines of the content *)

Lemma normalize_space_is_tidy_one_line (text : string) :
  one_line (normalize_space text) = true.
Proof.
  pose proof (normalize_space_is_tidy text) as Htidy.
  destruct (normalize_space text) as [|c r]; [done|].
  apply andb_true_iff in Htidy as [Hc%negb_true_iff Hr].
  simpl. rewrite (tidy_tail_one_line r Hr), andb_true_r.
  destruct (is_linebreak c) eqn:Hl; [|done].
  apply is_linebreak_isspace in Hl. congruence.
Qed.

Lemma one_line_app (s t : string) : one_line (s +:+ t) = one_line s && one_line t.
Proof.
  induction s as [|c s IH]; [done|].
  change (negb (is_linebreak c) && one_line (s +:+ t)
          = negb (is_linebreak c) && one_line s && one_line t).
  by rewrite IH, andb_assoc.
Qed.

Lemma one_line_rev_app (cur acc : string) :
  one_line (String.rev_app cur acc) = one_line cur && one_line acc.
Proof.
  revert acc. induction cur as [|c cur IH]; intros acc; simpl; [done|].
  rewrite IH. simpl. destruct (is_linebreak c); simpl; [by rewrite andb_false_r|done].
Qed.

Lemma one_line_bs (s : string) : one_line (bs s) = one_line s.
Proof.
  induction s as [|c s IH]; [done|]. simpl.
  destruct (Ascii.eqb_spec c "\") as [->|_]; simpl; by rewrite IH.
Qed.

Lemma one_line_spaces (n : nat) : one_line (spaces n) = true.
Proof. induction n as [|n IH]; [done|]. simpl. exact IH. Qed.

Lemma splitlines_from_one_line (cur s : string) :
  one_line s = true →
  splitlines_from false cur s
  = match String.rev cur +:+ s with
    | EmptyString => []
    | String _ _ => [String.rev cur +:+ s]
    end.
Proof.
  revert cur. induction s as [|c s IH]; intros cur Hs.
  - rewrite string_app_nil_r. simpl. destruct cur as [|a cur]; [done|].
    pose proof (rev_nonempty (String a cur) ltac:(done)) as Hne.
    by destruct (String.rev (String a cur)).
  - simpl in Hs. apply andb_true_iff in Hs as [Hc%negb_true_iff Hs].
    simpl. rewrite andb_false_r, Hc, (IH _ Hs), rev_cons, string_app_assoc. done.
Qed.

Lemma splitlines_from_lines (after_cr : bool) (cur s : string) :
  one_line cur = true → Forall (λ x, one_line x = true) (splitlines_from after_cr cur s).
Proof.
  revert after_cr cur. induction s as [|c s IH]; intros after_cr cur Hcur; simpl.
  - destruct cur; [constructor|]. constructor; [|constructor].
    unfold String.rev. by rewrite one_line_rev_app, Hcur.
  - destruct (Nat.eqb (nat_of_ascii c) 10 && after_cr); [by apply IH|].
    destruct (is_linebreak c) eqn:Hc.
    + constructor; [|by apply IH].
      unfold String.rev. by rewrite one_line_rev_app, Hcur.
    + apply IH. simpl. by rewrite Hc.
Qed.

(** X14.  [Obj.append] of a text tags every line it appends with the
    source location of the object and indents it, and no appended line
    holds a line boundary; an empty text appends nothing, and a text
    without a line boundary is appended as one line. *)
Theorem append_lines `{IsObj A} (h : Heap) (self : A) (text : string) (indent : nat)
    (file : string) (line : Z) :
  get_source_line h self = Ok (file, line) →
  ∃ ls,
    append h self text indent = Ok ls
    ∧ Forall (λ l, snd l = file +:+ ":" +:+ fmt_d line +:+ ":<autojsdoc>"
                   ∧ ∃ s, fst l = spaces indent +:+ s ∧ one_line s = true) ls
    ∧ (text = "" → ls = [])
    ∧ (text ≠ "" → one_line text = true →
       ls = [(spaces indent +:+ text, file +:+ ":" +:+ fmt_d line +:+ ":<autojsdoc>")]).
Proof.
  intros Hloc. unfold append. rewrite Hloc. simpl. eexists. split; [done|].
  unfold Obj_splitlines, splitlines. split; [|split].
  - rewrite <- list_fmap_compose. apply Forall_fmap.
    eapply Forall_impl; [by apply (splitlines_from_lines false "" text)|].
    intros s Hs. simpl. eauto.
  - by intros ->.
  - intros Hne Hone. rewrite (splitlines_from_one_line "" text Hone).
    change (String.rev "" +:+ text) with text. by destruct text.
Qed.

(** A line of the class of the example: a witness for X14. *)
Lemma append_lines_witness :
  append [] (example_doclet "class" "Widget" "Widget" None false 5)
         ".. js:class:: Widget" 3
  = Ok [("   .. js:class:: Widget", "/src/widget.js:5:<autojsdoc>")].
Proof.
  assert (get_source_line [] (example_doclet "class" "Widget" "Widget" None false 5)
          = Ok ("/src/widget.js", 5%Z)) as Hloc by (vm_compute; reflexivity).
  destruct (append_lines [] (example_doclet "class" "Widget" "Widget" None false 5)
              ".. js:class:: Widget" 3 "/src/widget.js" 5%Z Hloc)
    as (ls & -> & _ & _ & Hone).
  by rewrite Hone.
Defined.

(** X15.  For a parameter whose type has names, [JSArgument.run] appends
    exactly one line, [:param <types> <name>: <description>], when neither
    the type names nor the name hold a line boundary; the wrapper has
    neither [meta] nor parent, so the line is tagged with the unknown
    location; a parameter without a name is rendered with the name
    [None]. *)
Theorem JSArgument_run_one_line (p : Param) (h : Heap) (indent : nat) (tys : list string) :
  p_type_names p = Some tys →
  one_line (join "|" tys) = true →
  one_line (fmt_s (p_name p)) = true →
  JSArgument_run h (JSArgument_init p) indent
  = Ok [(spaces indent +:+ ":param " +:+ bs (join "|" tys)
         +:+ " " +:+ fmt_s (p_name p) +:+ ": "
         +:+ normalize_space (default "" (p_description p)),
         "<unknown>:0:<autojsdoc>")].
Proof.
  intros Hnames Htypes Hname. unfold JSArgument_run, append, get_source_line. simpl.
  rewrite source_line_unknown. simpl. unfold Obj_splitlines, splitlines.
  unfold get_types, get_description. simpl. rewrite Hnames. simpl.
  rewrite splitlines_from_one_line; [done|].
  change (one_line (bs (join "|" tys)
                    +:+ " " +:+ fmt_s (p_name p) +:+ ": "
                    +:+ normalize_space (default "" (p_description p))) = true).
  rewrite !one_line_app, one_line_bs, Htypes, Hname. simpl.
  apply normalize_space_is_tidy_one_line.
Qed.

(** The parameter of the example: a witness for X15. *)
Lemma JSArgument_run_one_line_witness :
  JSArgument_run [] (JSArgument_init example_param) 3
  = Ok [("   :param Array|null values: the values to draw", "<unknown>:0:<autojsdoc>")].
Proof.
  rewrite (JSArgument_run_one_line example_param [] 3 ["Array"; "null"]); reflexivity.
Defined.
